(** * Simulación PBC - PFP - PMP: the simulation engine and its specification

    A shallow embedding of the discrete-time engine of the "Planificador
    Humano" application (the variant with [DEFAULT.consumersN = 350]):
    the seeded generator [mulberry32], the demand model, the per-tick update
    [simTick], the initial calibration of [initSimulation] and the survey
    regression [olsLinear].

    Numbers.  A JavaScript number is an IEEE-754 binary64 value; it is
    modelled by Rocq's primitive [float], whose operations are the
    processor's, so every evaluation below is bit-exact.  Tick counters,
    delays and array indexes, which the source keeps as integer-valued
    numbers, are carried as [Z].  [Math.exp] and [Math.log], which the
    language leaves to the implementation, are parameters of the engine. *)

From Stdlib Require Import ZArith List Bool String Lia.
From Stdlib Require Import Floats.
From Stdlib Require Uint63 DecimalString.
Import ListNotations.

Set Warnings "-inexact-float".

Local Open Scope Z_scope.

(* ================================================================== *)
(** * JavaScript number primitives                                      *)
(* ================================================================== *)

Module JS.

(** Truthiness of a number: [0], [-0] and [NaN] are falsy. *)
Definition truthy (x : float) : bool := negb (is_nan x || is_zero x).

(** [x || d] on numbers. *)
Definition or_else (x d : float) : float := if truthy x then x else d.

(** [Math.max(a, b)]: NaN if either is NaN; [+0] is larger than [-0]. *)
Definition Math_max (a b : float) : float :=
  if is_nan a || is_nan b then nan
  else if (a <? b)%float then b
  else if (b <? a)%float then a
  else if get_sign a then b else a.

(** [Math.min(a, b)]: NaN if either is NaN; [-0] is smaller than [+0]. *)
Definition Math_min (a b : float) : float :=
  if is_nan a || is_nan b then nan
  else if (a <? b)%float then a
  else if (b <? a)%float then b
  else if get_sign a then a else b.

(** [Math.min(a, b, c)]. *)
Definition Math_min3 (a b c : float) : float := Math_min (Math_min a b) c.

Definition Math_abs (x : float) : float := abs x.

(** [a >= b] and [a > b] on numbers (false when either is NaN). *)
Definition geb (a b : float) : bool := (b <=? a)%float.
Definition gtb (a b : float) : bool := (b <? a)%float.

(** [x ** 2]. *)
Definition sq (x : float) : float := (x * x)%float.

(** The integer [k] as a number (exact for [0 <= k < 2^53]). *)
Definition of_int (k : Z) : float := of_uint63 (Uint63.of_Z k).

Definition of_nat (n : nat) : float := of_int (Z.of_nat n).

(** [Math.floor(x)] for a finite [x], as an integer. *)
Definition Math_floor (x : float) : Z :=
  match Prim2SF x with
  | S754_finite s m e =>
      let sm := if s then Zneg m else Zpos m in
      if 0 <=? e then Z.shiftl sm e else Z.shiftr sm (- e)
  | _ => 0
  end.

(** [Math.round(x)] for a finite [x], as an integer: the nearest integer,
    a tie going up. *)
Definition Math_round (x : float) : Z :=
  match Prim2SF x with
  | S754_finite s m e =>
      let sm := if s then Zneg m else Zpos m in
      if 0 <=? e then Z.shiftl sm e
      else Z.shiftr (2 * sm + Z.shiftl 1 (- e)) (1 - e)
  | _ => 0
  end.

(** [arr[i]] for an integer index. *)
Definition index {A : Type} (arr : list A) (i : Z) : option A :=
  if i <? 0 then None else nth_error arr (Z.to_nat i).

(** [ToUint32(x)]: the integer part of [x] modulo [2^32]. *)
Definition ToUint32 (x : float) : Z :=
  match Prim2SF x with
  | S754_finite s m e =>
      let v := if 0 <=? e then Z.shiftl (Zpos m) e else Z.shiftr (Zpos m) (- e) in
      Z.land (if s then - v else v) 4294967295
  | _ => 0
  end.

(** [Math.imul(x, y)] on 32-bit patterns. *)
Definition Math_imul (x y : Z) : Z := Z.land (x * y) 4294967295.

(** [Number(x.toFixed(d))]: [x] rounded to [d] decimals (a tie going away
    from zero) and read back as the nearest number. *)
Definition toFixed (d : Z) (x : float) : float :=
  match Prim2SF x with
  | S754_finite s m e =>
      if (1e21 <=? abs x)%float then x
      else
        let scaled := Zpos m * 10 ^ d in
        let n := if 0 <=? e then Z.shiftl scaled e
                 else Z.shiftr (2 * scaled + Z.shiftl 1 (- e)) (1 - e) in
        match n with
        | Zpos p =>
            let q := SF2Prim (SFdiv prec emax (S754_finite false p 0)
                                              (S754_finite false (Z.to_pos (10 ^ d)) 0)) in
            if s then (- q)%float else q
        | _ => if s then neg_zero else zero
        end
  | S754_zero _ => zero
  | _ => x
  end.

End JS.
Import JS.

(* ================================================================== *)
(** * Utilities                                                         *)
(* ================================================================== *)

(** The generator's state is the closure variable [a], a number that
    grows by [0x6d2b79f5] at each call and is reduced to 32 bits only
    inside the bit operations. *)
Definition RngState := float.

(** One call of the function returned by [mulberry32(a)]: the uniform
    number in [[0, 1)] and the next state. *)
Definition mulberry32 (a : RngState) : float * RngState :=
  let a := (a + 1831565813)%float in
  let t := ToUint32 a in
  let t := Math_imul (Z.lxor t (Z.shiftr t 15)) (Z.lor t 1) in
  let t := Z.lxor t (Z.land (t + Math_imul (Z.lxor t (Z.shiftr t 7)) (Z.lor t 61)) 4294967295) in
  ((of_int (Z.lxor t (Z.shiftr t 14)) / 4294967296)%float, a).

Definition randRange (rng : RngState) (a b : float) : float * RngState :=
  let '(u, rng) := mulberry32 rng in
  ((a + (b - a) * u)%float, rng).

Definition clamp (x a b : float) : float := Math_max a (Math_min b x).

Definition sum_floats (l : list float) : float :=
  fold_left (fun s v => (s + v)%float) l 0%float.

(** [olsLinear(x, y)]: the least-squares line [y = a + b x]; the loop runs
    over the indexes of [x]. *)
Record Ols := mkOls { ols_a : float; ols_b : float }.

Fixpoint ols_sums (meanX meanY : float) (x y : list float) (num den : float)
  : float * float :=
  match x with
  | [] => (num, den)
  | xi :: x' =>
      let yi := hd nan y in
      ols_sums meanX meanY x' (tl y)
        (num + (xi - meanX) * (yi - meanY))%float
        (den + sq (xi - meanX))%float
  end.

Definition olsLinear (x y : list float) : Ols :=
  match x with
  | [] => mkOls 0 0
  | _ =>
      let n := of_nat (List.length x) in
      let meanX := (sum_floats x / n)%float in
      let meanY := (sum_floats y / n)%float in
      let '(num, den) := ols_sums meanX meanY x y 0 0 in
      let b := if (den =? 0)%float then 0%float else (num / den)%float in
      let a := (meanY - b * meanX)%float in
      mkOls a b
  end.

Definition variance (arr : list float) : float :=
  match arr with
  | [] => 0%float
  | _ =>
      let n := of_nat (List.length arr) in
      let mean := (sum_floats arr / n)%float in
      (fold_left (fun a b => (a + sq (b - mean))%float) arr 0 / n)%float
  end.

(* ================================================================== *)
(** * Data model                                                        *)
(* ================================================================== *)

(** The demand family of a hidden consumer ([c.type]). *)
Inductive DemandType := linear | log | exp | poly.

Record Consumer := mkConsumer {
  c_id : string;
  c_type : DemandType;
  c_a : float;
  c_b : float;
  c_Ti : Z;
  c_nextUpdateAt : Z;
  c_lastUpdate : Z;
  c_nextChange : Z
}.

(** The three tiers, the keys of [s.firms]. *)
Inductive Tier := PBC | PFP | PMP.

(** A firm; [f_planned] is used by the PBC tier only. *)
Record Firm := mkFirm {
  f_id : string;
  f_A : float;
  f_capacity : float;
  f_marginalCost : float;
  f_inventory : float;
  f_planned : float;
  f_history : list (Z * float)
}.

(** [ord.level]: ["PBC->PFP"] or ["PFP->PMP"]. *)
Inductive OrderLevel := PBC_PFP | PFP_PMP.

(** An order of the ledger [s.orders].  The ledger only grows, so the
    object an escalated order refers to by [orig] is named by its position
    in the ledger; [o_filled] is [false] while the field is absent. *)
Record Order := mkOrder {
  o_level : OrderLevel;
  o_from : string;
  o_to : string;
  o_amount : float;
  o_due : Z;
  o_filled : bool;
  o_orig : option nat
}.

Record Innovation := mkInnovation {
  i_firm : string;
  i_level : Tier;
  i_costMul : float;
  i_tfpMul : float;
  i_scheduleAt : Z;
  i_adoptAt : Z;
  i_adopted : bool
}.

(** Entries of [s.logs]; orders and innovations are named by position. *)
Inductive LogEntry :=
  | order_filled (t : Z) (ord : nat)
  | innovation_adopted (t : Z) (firm : string) (innov : nat).

(** The simulation object [simRef.current], with the counters of
    [innovationCounterRef]. *)
Record Sim := mkSim {
  s_t : Z;
  s_seed : float;
  s_rng : RngState;
  s_price : float;
  s_consumers : list Consumer;
  s_PBC : list Firm;
  s_PFP : list Firm;
  s_PMP : list Firm;
  s_orders : list Order;
  s_logs : list LogEntry;
  s_innovations : list Innovation;
  s_scheduled : Z;
  s_adopted : Z
}.

(** A point of the metrics series [seriesData]. *)
Record MetricsPoint := mkPoint {
  p_t : Z;
  p_price : float;
  p_qDemand : float;
  p_qServed : float;
  p_efficiency : float
}.

Inductive PriceMode := auto | manual.

(** The experiment phases, [EXPERIMENT_PHASES[phaseIdx]]. *)
Inductive PhaseIdx := phaseA | phaseB | phaseC.

Record Phase := mkPhase { feedbackStrength : float; volatility : float }.

Definition EXPERIMENT_PHASES (i : PhaseIdx) : Phase :=
  match i with
  | phaseA => mkPhase 0.05 0.02
  | phaseB => mkPhase 0.12 0.12
  | phaseC => mkPhase 0.4 0.12
  end.

(** What a tick reads from the interface: the price mode and the manual
    price, the experiment phase, the planner's demand function (absent in
    automatic mode; a call returns a number or throws, [None]) and the
    length of the displayed history. *)
Record Inputs := mkInputs {
  priceMode : PriceMode;
  manualPrice : float;
  phaseIdx : PhaseIdx;
  userDemandFn : option (float -> option float);
  historyLen : nat
}.

Module DEFAULT.
Definition seed : float := 12345.
Definition consumersN : nat := 350.
Definition p0 : float := 1.0.
Definition pMin : float := 0.01.
Definition pPriceAdjustGain : float := 0.08.
Definition consumerUpdateRange : float * float := (30, 90)%float.
Definition pbcCountRange : float * float := (3, 6)%float.
Definition pfpCountRange : float * float := (3, 6)%float.
Definition pmpCountRange : float * float := (2, 4)%float.
Definition delays_pbcToPfp : float * float := (5, 15)%float.
Definition delays_pfpToPmp : float * float := (5, 20)%float.
Definition innovation_probPerTick : float := 0.03.
Definition innovation_costMultRange : float * float := (0.92, 0.99)%float.
Definition innovation_tfpMultRange : float * float := (1.02, 1.25)%float.
Definition innovation_adoptionRange : float * float := (10, 60)%float.
End DEFAULT.

Definition CONSUMER_REACT_PROBS_baja : float := 0.8.
Definition CONSUMER_REACT_PROBS_mantiene : float := 0.18.
Definition CONSUMER_REACT_FACTORS_baja : float * float := (0.7, 0.95)%float.
Definition CONSUMER_REACT_FACTORS_mantiene : float * float := (0.98, 1.02)%float.
Definition CONSUMER_REACT_FACTORS_sube : float * float := (1.01, 1.2)%float.

(** Field updates, as the source mutates its objects. *)
Definition set_inventory (v : float) (f : Firm) : Firm :=
  mkFirm (f_id f) (f_A f) (f_capacity f) (f_marginalCost f) v (f_planned f) (f_history f).

Definition set_planned (v : float) (f : Firm) : Firm :=
  mkFirm (f_id f) (f_A f) (f_capacity f) (f_marginalCost f) (f_inventory f) v (f_history f).

Definition push_history (h : Z * float) (f : Firm) : Firm :=
  mkFirm (f_id f) (f_A f) (f_capacity f) (f_marginalCost f) (f_inventory f) (f_planned f)
         (f_history f ++ [h]).

Definition set_cost_A (mc A : float) (f : Firm) : Firm :=
  mkFirm (f_id f) A (f_capacity f) mc (f_inventory f) (f_planned f) (f_history f).

Definition set_filled (o : Order) : Order :=
  mkOrder (o_level o) (o_from o) (o_to o) (o_amount o) (o_due o) true (o_orig o).

Definition set_adopted (i : Innovation) : Innovation :=
  mkInnovation (i_firm i) (i_level i) (i_costMul i) (i_tfpMul i) (i_scheduleAt i) (i_adoptAt i) true.

(** [arr.find((x) => x.id === id)] and the mutation of the object found. *)
Definition find_firm (id : string) (arr : list Firm) : option Firm :=
  find (fun x => String.eqb (f_id x) id) arr.

Fixpoint update_firm (id : string) (g : Firm -> Firm) (arr : list Firm) : list Firm :=
  match arr with
  | [] => []
  | x :: r => if String.eqb (f_id x) id then g x :: r else x :: update_firm id g r
  end.

(** The mutation of the object at position [k] of an array. *)
Fixpoint update_nth {A : Type} (k : nat) (g : A -> A) (arr : list A) : list A :=
  match arr, k with
  | [], _ => []
  | x :: r, O => g x :: r
  | x :: r, S k' => x :: update_nth k' g r
  end.

(** The positions of the elements of an array that satisfy [p], in order
    ([arr.filter(p)], the elements being shared with [arr]). *)
Fixpoint positions {A : Type} (p : A -> bool) (k : nat) (arr : list A) : list nat :=
  match arr with
  | [] => []
  | x :: r => if p x then k :: positions p (S k) r else positions p (S k) r
  end.

Definition firm_id (prefix : string) (i : nat) : string :=
  (prefix ++ DecimalString.NilEmpty.string_of_uint (Nat.to_uint i))%string.

Definition firms (s : Sim) (lvl : Tier) : list Firm :=
  match lvl with PBC => s_PBC s | PFP => s_PFP s | PMP => s_PMP s end.

Definition set_firms (lvl : Tier) (l : list Firm) (s : Sim) : Sim :=
  match lvl with
  | PBC => mkSim (s_t s) (s_seed s) (s_rng s) (s_price s) (s_consumers s) l (s_PFP s)
                 (s_PMP s) (s_orders s) (s_logs s) (s_innovations s) (s_scheduled s) (s_adopted s)
  | PFP => mkSim (s_t s) (s_seed s) (s_rng s) (s_price s) (s_consumers s) (s_PBC s) l
                 (s_PMP s) (s_orders s) (s_logs s) (s_innovations s) (s_scheduled s) (s_adopted s)
  | PMP => mkSim (s_t s) (s_seed s) (s_rng s) (s_price s) (s_consumers s) (s_PBC s) (s_PFP s)
                 l (s_orders s) (s_logs s) (s_innovations s) (s_scheduled s) (s_adopted s)
  end.

Definition set_rng (g : RngState) (s : Sim) : Sim :=
  mkSim (s_t s) (s_seed s) g (s_price s) (s_consumers s) (s_PBC s) (s_PFP s) (s_PMP s)
        (s_orders s) (s_logs s) (s_innovations s) (s_scheduled s) (s_adopted s).

Definition set_price (p : float) (s : Sim) : Sim :=
  mkSim (s_t s) (s_seed s) (s_rng s) p (s_consumers s) (s_PBC s) (s_PFP s) (s_PMP s)
        (s_orders s) (s_logs s) (s_innovations s) (s_scheduled s) (s_adopted s).

Definition set_t (t : Z) (s : Sim) : Sim :=
  mkSim t (s_seed s) (s_rng s) (s_price s) (s_consumers s) (s_PBC s) (s_PFP s) (s_PMP s)
        (s_orders s) (s_logs s) (s_innovations s) (s_scheduled s) (s_adopted s).

Definition set_consumers (l : list Consumer) (s : Sim) : Sim :=
  mkSim (s_t s) (s_seed s) (s_rng s) (s_price s) l (s_PBC s) (s_PFP s) (s_PMP s)
        (s_orders s) (s_logs s) (s_innovations s) (s_scheduled s) (s_adopted s).

Definition set_orders (l : list Order) (s : Sim) : Sim :=
  mkSim (s_t s) (s_seed s) (s_rng s) (s_price s) (s_consumers s) (s_PBC s) (s_PFP s) (s_PMP s)
        l (s_logs s) (s_innovations s) (s_scheduled s) (s_adopted s).

Definition set_logs (l : list LogEntry) (s : Sim) : Sim :=
  mkSim (s_t s) (s_seed s) (s_rng s) (s_price s) (s_consumers s) (s_PBC s) (s_PFP s) (s_PMP s)
        (s_orders s) l (s_innovations s) (s_scheduled s) (s_adopted s).

Definition set_innovations (l : list Innovation) (sch ado : Z) (s : Sim) : Sim :=
  mkSim (s_t s) (s_seed s) (s_rng s) (s_price s) (s_consumers s) (s_PBC s) (s_PFP s) (s_PMP s)
        (s_orders s) (s_logs s) l sch ado.

(* ================================================================== *)
(** * The engine                                                        *)
(* ================================================================== *)

Section Engine.

(** [Math.exp] and [Math.log]. *)
Variables Math_exp Math_log : float -> float.

Local Open Scope float_scope.

(** ** Demand factory of the visual editor *)

Inductive EditorType := ed_linear | ed_exp | ed_log | ed_poly | ed_logistic.

Record DParams := mkDParams {
  d_A : float; d_B : float; d_C : float; d_K : float; d_mid : float; d_steep : float
}.

Definition createDemandFn (type : EditorType) (params : DParams) : float -> float :=
  match type with
  | ed_linear => fun p => Math_max 0 (d_A params - d_B params * p)
  | ed_exp => fun p => Math_max 0 (d_A params * Math_exp (- d_B params * p))
  | ed_log => fun p => Math_max 0 (d_A params - d_B params * Math_log (1 + Math_max 0 p))
  | ed_poly => fun p => Math_max 0 (d_A params - d_B params * p - d_C params * p * p)
  | ed_logistic =>
      fun p => Math_max 0 (d_K params / (1 + Math_exp (d_steep params * (p - d_mid params))))
  end.

(** [applyEditorDemand]: the function handed to the planner never throws. *)
Definition applyEditorDemand (type : EditorType) (params : DParams)
  : option (float -> option float) :=
  Some (fun p => Some (createDemandFn type params p)).

(** ** Consumer demand and reaction *)

Definition computeConsumerDemand (c : Consumer) (p : float) (rng : RngState)
  : float * RngState :=
  let q :=
    match c_type c with
    | linear => c_a c - c_b c * p
    | log => c_a c - c_b c * Math_log (1 + Math_max 0 p)
    | exp => c_a c * Math_exp (- c_b c * p)
    | poly =>
        let cc := Math_max 0.001 (c_b c * 0.01) in
        Math_max 0 (c_a c - c_b c * p - cc * p * p)
    end in
  let noiseSigma := 0.05 in
  let '(u, rng) := mulberry32 rng in
  let noise := 1 + (u - 0.5) * 2 * noiseSigma in
  (Math_max 0 (q * noise), rng).

Definition consumerReact (prevPrice newPrice : float) (rng : RngState)
  : float * RngState :=
  if newPrice =? prevPrice then (1, rng)
  else
    let up := gtb newPrice prevPrice in
    let '(roll, rng) := mulberry32 rng in
    if up then
      if roll <? CONSUMER_REACT_PROBS_baja then
        randRange rng (fst CONSUMER_REACT_FACTORS_baja) (snd CONSUMER_REACT_FACTORS_baja)
      else if roll <? CONSUMER_REACT_PROBS_baja + CONSUMER_REACT_PROBS_mantiene then
        randRange rng (fst CONSUMER_REACT_FACTORS_mantiene) (snd CONSUMER_REACT_FACTORS_mantiene)
      else
        randRange rng (fst CONSUMER_REACT_FACTORS_sube) (snd CONSUMER_REACT_FACTORS_sube)
    else
      if roll <? 0.7 then randRange rng 1.01 1.2
      else if roll <? 0.95 then randRange rng 0.98 1.02
      else randRange rng 0.7 0.95.

(** [Qagg] of a population at price [p]: one noisy evaluation per consumer. *)
Fixpoint aggregateDemand (cs : list Consumer) (p : float) (Qagg : float) (rng : RngState)
  : float * RngState :=
  match cs with
  | [] => (Qagg, rng)
  | c :: rest =>
      let '(q, rng) := computeConsumerDemand c p rng in
      aggregateDemand rest p (Qagg + q) rng
  end.

(** ** Initialisation *)

(** The draw of [(a, b)] shared by the initial population and the full
    resample of [simTick]. *)
Definition sample_ab (rng : RngState) : float * float * RngState :=
  let '(a, rng) := randRange rng 5 200 in
  let '(signRoll, rng) := mulberry32 rng in
  if signRoll <? 0.75 then
    let '(b, rng) := randRange rng 0.01 10 in (a, b, rng)
  else if signRoll <? 0.95 then (a, 0, rng)
  else let '(x, rng) := randRange rng 0.1 5 in (a, - x, rng).

Definition newConsumer (i : nat) (rng : RngState) : Consumer * RngState :=
  let '(typeRand, rng) := mulberry32 rng in
  let type :=
    if typeRand <? 0.6 then linear
    else if typeRand <? 0.85 then log
    else if typeRand <? 0.98 then exp
    else poly in
  let '(a, b, rng) := sample_ab rng in
  let '(x, rng) := randRange rng 0 50 in
  let nextChange := Math_floor x in
  let '(y, rng) :=
    randRange rng (fst DEFAULT.consumerUpdateRange) (snd DEFAULT.consumerUpdateRange) in
  let Ti := Math_round y in
  (mkConsumer (firm_id "C" i) type a b Ti Ti 0%Z nextChange, rng).

Fixpoint newConsumers (n i : nat) (rng : RngState) : list Consumer * RngState :=
  match n with
  | O => ([], rng)
  | S n' =>
      let '(c, rng) := newConsumer i rng in
      let '(cs, rng) := newConsumers n' (S i) rng in
      (c :: cs, rng)
  end.

(** The firms of one tier: [A], [capacity] and [marginalCost] drawn in
    this order for each firm. *)
Fixpoint newFirms (prefix : string) (cap mc : float * float) (n i : nat) (rng : RngState)
  : list Firm * RngState :=
  match n with
  | O => ([], rng)
  | S n' =>
      let '(A, rng) := randRange rng 0.8 1.3 in
      let '(capacity, rng) := randRange rng (fst cap) (snd cap) in
      let '(marginalCost, rng) := randRange rng (fst mc) (snd mc) in
      let '(fs, rng) := newFirms prefix cap mc n' (S i) rng in
      (mkFirm (firm_id prefix i) A capacity marginalCost 0 0 [] :: fs, rng)
  end.

Definition firmCount (range : float * float) (rng : RngState) : nat * RngState :=
  let '(x, rng) := randRange rng (fst range) (snd range) in
  (Z.to_nat (Math_round x), rng).

(** The approximation of [p0]: at most [iters] rounds, each sampling the
    aggregate demand and moving the price by 5%; the round stops the loop
    when the sample is within 1% of the supply.  The result tells the
    price, the generator and whether the loop was left by [break]. *)
Fixpoint calibrate (iters : nat) (cs : list Consumer) (pbc : list Firm) (p0 : float)
  (rng : RngState) : float * RngState * bool :=
  match iters with
  | O => (p0, rng, false)
  | S iters' =>
      let '(Qagg, rng) := aggregateDemand cs p0 0 rng in
      let oferta :=
        Math_max 1 (fold_left (fun acc f => acc + or_else (f_capacity f) 0) pbc 0) in
      if Math_abs (Qagg - oferta) <? 1e-2 * Math_max 1 oferta then (p0, rng, true)
      else if gtb Qagg oferta then calibrate iters' cs pbc (p0 * 1.05) rng
      else calibrate iters' cs pbc (p0 * 0.95) rng
  end.

Definition initSimulation (newSeed : float) : Sim * list MetricsPoint :=
  let rng := newSeed in
  let '(cs, rng) := newConsumers DEFAULT.consumersN 0 rng in
  let '(pbcCount, rng) := firmCount DEFAULT.pbcCountRange rng in
  let '(pbc, rng) := newFirms "PBC" (10, 50) (0.2, 1.0) pbcCount 0 rng in
  let '(pfpCount, rng) := firmCount DEFAULT.pfpCountRange rng in
  let '(pfp, rng) := newFirms "PFP" (10, 80) (0.1, 0.8) pfpCount 0 rng in
  let '(pmpCount, rng) := firmCount DEFAULT.pmpCountRange rng in
  let '(pmp, rng) := newFirms "PMP" (30, 140) (0.05, 0.6) pmpCount 0 rng in
  let '(p0, rng, _) := calibrate 40 cs pbc DEFAULT.p0 rng in
  (mkSim 0 newSeed rng p0 cs pbc pfp pmp [] [] [] 0 0,
   [mkPoint 0 p0 0 0 1]).

(** ** The tick *)

(** The update of one consumer and its purchase [baseQ] of the tick. *)
Definition updateConsumer (inp : Inputs) (t : Z) (prevPrice price : float)
  (c : Consumer) (rng : RngState) : Consumer * float * RngState :=
  (* change of preferences: a new family with fresh coefficients *)
  let '(c, rng) :=
    if (t >=? c_nextChange c)%Z then
      let '(r, rng) := mulberry32 rng in
      let '(ty, a, b, rng) :=
        if r <? 0.33 then
          let '(a, rng) := randRange rng 100 150 in
          let '(b, rng) := randRange rng 0.5 1.0 in (linear, a, b, rng)
        else if r <? 0.66 then
          let '(a, rng) := randRange rng 80 120 in
          let '(b, rng) := randRange rng 5 10 in (log, a, b, rng)
        else
          let '(a, rng) := randRange rng 90 120 in
          let '(b, rng) := randRange rng 0.1 0.3 in (exp, a, b, rng) in
      let '(x, rng) := randRange rng 0 70 in
      (mkConsumer (c_id c) ty a b (c_Ti c) (c_nextUpdateAt c) (c_lastUpdate c)
                  (t + 30 + Math_floor x)%Z, rng)
    else (c, rng) in
  (* scheduled update: full resample or small drift, and a rare shock *)
  let '(c, rng) :=
    if (t >=? c_nextUpdateAt c)%Z then
      let '(r, rng) := mulberry32 rng in
      let '(a, b, rng) :=
        if r <? 0.15 then sample_ab rng
        else
          let '(u1, rng) := mulberry32 rng in
          let a := c_a c * (1 + (u1 - 0.5) * 0.08) in
          let '(u2, rng) := mulberry32 rng in
          let b := c_b c * (1 + (u2 - 0.5) * 0.04) in
          (a, b, rng) in
      let '(u3, rng) := mulberry32 rng in
      let '(a, rng) :=
        if u3 <? 0.01 then let '(x, rng) := randRange rng 1.5 3.0 in (a * x, rng)
        else (a, rng) in
      let '(y, rng) :=
        randRange rng (fst DEFAULT.consumerUpdateRange) (snd DEFAULT.consumerUpdateRange) in
      (mkConsumer (c_id c) (c_type c) a b (c_Ti c) (t + Math_round y)%Z t (c_nextChange c),
       rng)
    else (c, rng) in
  (* small variations *)
  let '(u, rng) := mulberry32 rng in
  let a := c_a c + (u - 0.5) * 0.01 * c_a c in
  let '(u, rng) := mulberry32 rng in
  let b := c_b c + (u - 0.5) * 0.01 * c_b c in
  (* experimental feedback *)
  let phase := EXPERIMENT_PHASES (phaseIdx inp) in
  let a :=
    if truthy (feedbackStrength phase) then a + feedbackStrength phase * (prevPrice - price)
    else a in
  let c := mkConsumer (c_id c) (c_type c) a b (c_Ti c) (c_nextUpdateAt c) (c_lastUpdate c)
                      (c_nextChange c) in
  let '(baseQ, rng) := computeConsumerDemand c price rng in
  let '(reactFactor, rng) := consumerReact prevPrice price rng in
  (c, baseQ * reactFactor, rng).

Fixpoint updateConsumers (inp : Inputs) (t : Z) (prevPrice price : float)
  (cs : list Consumer) (Qagg : float) (rng : RngState)
  : list Consumer * float * RngState :=
  match cs with
  | [] => ([], Qagg, rng)
  | c :: rest =>
      let '(c, baseQ, rng) := updateConsumer inp t prevPrice price c rng in
      let '(rest, Qagg, rng) := updateConsumers inp t prevPrice price rest (Qagg + baseQ) rng in
      (c :: rest, Qagg, rng)
  end.

(** [perceivedFn(p)]: the planner's function when there is one, otherwise
    a noisy multiple of the aggregate demand of the tick.  [None] is an
    exception thrown by the planner's function. *)
Definition perceivedFn (inp : Inputs) (Qagg : float) (p : float) (rng : RngState)
  : option (float * RngState) :=
  match userDemandFn inp with
  | Some fn => match fn p with Some v => Some (v, rng) | None => None end
  | None => let '(u, rng) := mulberry32 rng in Some (Qagg * (0.85 + 0.3 * u), rng)
  end.

Definition sumA (pbc : list Firm) : float :=
  Math_max 1e-6 (fold_left (fun acc f => acc + f_A f * or_else (f_capacity f) 1) pbc 0).

(** PBC planning.  The last component is [true] when [perceivedFn] threw:
    the firms and orders are then as the loop had left them. *)
Fixpoint planPBC (inp : Inputs) (t : Z) (price Qagg sumA : float) (pfps : list Firm)
  (pbc : list Firm) (orders : list Order) (rng : RngState)
  : list Firm * list Order * RngState * bool :=
  match pbc with
  | [] => ([], orders, rng, false)
  | f :: rest =>
      let share := f_A f * or_else (f_capacity f) 1 / sumA in
      match perceivedFn inp Qagg price rng with
      | None => (f :: rest, orders, rng, true)
      | Some (v, rng) =>
          let plan := Math_max 0 v * share in
          let f := set_planned plan f in
          let '(orders, rng) :=
            if gtb plan (f_inventory f) then
              let needed := plan - f_inventory f in
              let '(u, rng) := mulberry32 rng in
              match index pfps (Math_floor (u * of_nat (List.length pfps))) with
              | Some pfp =>
                  let '(x, rng) :=
                    randRange rng (fst DEFAULT.delays_pbcToPfp) (snd DEFAULT.delays_pbcToPfp) in
                  (orders ++ [mkOrder PBC_PFP (f_id f) (f_id pfp) needed
                                      (t + Math_round x)%Z false None], rng)
              | None => (orders, rng)
              end
            else (orders, rng) in
          let '(rest, orders, rng, thrown) :=
            planPBC inp t price Qagg sumA pfps rest orders rng in
          (f :: rest, orders, rng, thrown)
      end
  end.

(** Base production of a PMP or PFP firm. *)
Definition produce (t : Z) (f : Firm) (rng : RngState) : Firm * RngState :=
  let '(u, rng) := mulberry32 rng in
  let produced := or_else (f_capacity f) 10 * (0.4 + u * 0.6) in
  (push_history (t, produced) (set_inventory (or_else (f_inventory f) 0 + produced) f), rng).

Fixpoint produceAll (t : Z) (fs : list Firm) (rng : RngState) : list Firm * RngState :=
  match fs with
  | [] => ([], rng)
  | f :: rest =>
      let '(f, rng) := produce t f rng in
      let '(rest, rng) := produceAll t rest rng in
      (f :: rest, rng)
  end.

(** An order is processed in a tick when it is unfilled and due. *)
Definition is_due (t : Z) (o : Order) : bool := negb (o_filled o) && (o_due o <=? t)%Z.

(** The processing of the order at position [k] of the ledger. *)
Definition processOrder (k : nat) (s : Sim) : Sim :=
  match nth_error (s_orders s) k with
  | None => s
  | Some ord =>
      let amount := o_amount ord in
      match o_level ord with
      | PBC_PFP =>
          match find_firm (o_to ord) (s_PFP s), find_firm (o_from ord) (s_PBC s) with
          | Some pfp, Some pbc =>
              if geb (or_else (f_inventory pfp) 0) amount then
                let s := set_firms PFP
                  (update_firm (o_to ord)
                     (fun f => set_inventory (f_inventory f - amount) f) (s_PFP s)) s in
                let s := set_firms PBC
                  (update_firm (o_from ord)
                     (fun f => set_inventory (or_else (f_inventory f) 0 + amount) f) (s_PBC s)) s in
                let s := set_orders (update_nth k set_filled (s_orders s)) s in
                set_logs (s_logs s ++ [order_filled (s_t s) k]) s
              else
                (* the PFP asks a PMP *)
                let need := Math_max 0 (amount - or_else (f_inventory pfp) 0) in
                let '(u, rng) := mulberry32 (s_rng s) in
                let s := set_rng rng s in
                match index (s_PMP s) (Math_floor (u * of_nat (List.length (s_PMP s)))) with
                | Some pmp =>
                    let '(x, rng) :=
                      randRange rng (fst DEFAULT.delays_pfpToPmp) (snd DEFAULT.delays_pfpToPmp) in
                    let s := set_rng rng s in
                    set_orders
                      (s_orders s ++ [mkOrder PFP_PMP (f_id pfp) (f_id pmp) need
                                              (s_t s + Math_round x)%Z false (Some k)]) s
                | None => s
                end
          | _, _ => set_orders (update_nth k set_filled (s_orders s)) s
          end
      | PFP_PMP =>
          match find_firm (o_to ord) (s_PMP s), find_firm (o_from ord) (s_PFP s) with
          | Some pmp, Some pfp =>
              if geb (or_else (f_inventory pmp) 0) amount then
                let s := set_firms PMP
                  (update_firm (o_to ord)
                     (fun f => set_inventory (f_inventory f - amount) f) (s_PMP s)) s in
                let pfp_inventory := or_else (f_inventory pfp) 0 + amount in
                let s := set_firms PFP
                  (update_firm (o_from ord) (set_inventory pfp_inventory) (s_PFP s)) s in
                let s := set_orders (update_nth k set_filled (s_orders s)) s in
                let s := set_logs (s_logs s ++ [order_filled (s_t s) k]) s in
                match o_orig ord with
                | Some ko =>
                    match nth_error (s_orders s) ko with
                    | Some orig =>
                        match find_firm (o_from orig) (s_PBC s) with
                        | Some pbc =>
                            if geb pfp_inventory (o_amount orig) then
                              let s := set_firms PFP
                                (update_firm (o_from ord)
                                   (fun f => set_inventory (f_inventory f - o_amount orig) f)
                                   (s_PFP s)) s in
                              let s := set_firms PBC
                                (update_firm (o_from orig)
                                   (fun f => set_inventory
                                               (or_else (f_inventory f) 0 + o_amount orig) f)
                                   (s_PBC s)) s in
                              set_orders (update_nth ko set_filled (s_orders s)) s
                            else s
                        | None => s
                        end
                    | None => s
                    end
                | None => s
                end
              else s
          | _, _ => set_orders (update_nth k set_filled (s_orders s)) s
          end
      end
  end.

(** The orders due at the start of the loop are processed in ledger
    order; orders appended meanwhile wait for a later tick. *)
Definition processOrders (s : Sim) : Sim :=
  fold_left (fun s k => processOrder k s) (positions (is_due (s_t s)) 0 (s_orders s)) s.

(** A PBC firm serves its customers. *)
Definition serve (t : Z) (f : Firm) : Firm * float :=
  let possible :=
    Math_min3 (or_else (f_planned f) 0) (or_else (f_inventory f) 0)
              (or_else (f_capacity f) 9999) in
  let produced := Math_max 0 possible in
  (push_history (t, produced) (set_inventory (or_else (f_inventory f) 0 - produced) f),
   produced).

Fixpoint serveAll (t : Z) (fs : list Firm) (Qserved : float) : list Firm * float :=
  match fs with
  | [] => ([], Qserved)
  | f :: rest =>
      let '(f, produced) := serve t f in
      let '(rest, Qserved) := serveAll t rest (Qserved + produced) in
      (f :: rest, Qserved)
  end.

(** Automatic adjustment of the price. *)
Definition priceGap (Qagg Qserved : float) : float :=
  if Qagg =? 0 then 0 else (Qagg - Qserved) / Math_max 1 Qagg.

Definition adjustPrice (price Qagg Qserved : float) : float :=
  let adjustGain := DEFAULT.pPriceAdjustGain in
  let delta := priceGap Qagg Qserved in
  Math_max DEFAULT.pMin (price * (1 + adjustGain * delta)).

(** Random scheduling of an innovation. *)
Definition scheduleInnovation (s : Sim) : Sim :=
  let '(u, rng) := mulberry32 (s_rng s) in
  let s := set_rng rng s in
  if u <? DEFAULT.innovation_probPerTick then
    let levels := [PBC; PFP; PMP] in
    let '(u, rng) := mulberry32 rng in
    let s := set_rng rng s in
    match index levels (Math_floor (u * of_nat (List.length levels))) with
    | Some level =>
        match firms s level with
        | [] => s
        | fs =>
            let '(u, rng) := mulberry32 rng in
            let s := set_rng rng s in
            match index fs (Math_floor (u * of_nat (List.length fs))) with
            | Some f =>
                let '(costMul, rng) :=
                  randRange rng (fst DEFAULT.innovation_costMultRange)
                                (snd DEFAULT.innovation_costMultRange) in
                let '(tfpMul, rng) :=
                  randRange rng (fst DEFAULT.innovation_tfpMultRange)
                                (snd DEFAULT.innovation_tfpMultRange) in
                let '(x, rng) :=
                  randRange rng (fst DEFAULT.innovation_adoptionRange)
                                (snd DEFAULT.innovation_adoptionRange) in
                let adopt := Math_round x in
                let innov :=
                  mkInnovation (f_id f) level costMul tfpMul (s_t s) (s_t s + adopt)%Z false in
                set_innovations (s_innovations s ++ [innov]) (s_scheduled s + 1)%Z (s_adopted s)
                                (set_rng rng s)
            | None => s
            end
        end
    | None => s
    end
  else s.

(** An innovation is adopted in a tick when it is pending and its
    adoption tick has come. *)
Definition is_adoptable (t : Z) (x : Innovation) : bool :=
  negb (i_adopted x) && (i_adoptAt x <=? t)%Z.

Definition adopt (firm : Firm) (innov : Innovation) : Firm :=
  set_cost_A (Math_max 0.01 (f_marginalCost firm * i_costMul innov))
             (or_else (f_A firm) 1 * i_tfpMul innov) firm.

Definition adoptInnovation (k : nat) (s : Sim) : Sim :=
  match nth_error (s_innovations s) k with
  | None => s
  | Some innov =>
      let lvl := i_level innov in
      match find_firm (i_firm innov) (firms s lvl) with
      | Some firm =>
          let s := set_firms lvl
            (update_firm (i_firm innov) (fun f => adopt f innov) (firms s lvl)) s in
          let s := set_innovations (update_nth k set_adopted (s_innovations s))
                                   (s_scheduled s) (s_adopted s + 1)%Z s in
          set_logs (s_logs s ++ [innovation_adopted (s_t s) (f_id firm) k]) s
      | None => s
      end
  end.

Definition adoptInnovations (s : Sim) : Sim :=
  fold_left (fun s k => adoptInnovation k s)
            (positions (is_adoptable (s_t s)) 0 (s_innovations s)) s.

(** The point recorded for the tick. *)
Definition recordPoint (t : Z) (price Qagg Qserved : float) : MetricsPoint :=
  mkPoint t (toFixed 4 price) (toFixed 3 Qagg) (toFixed 3 Qserved)
          (toFixed 3 (Qserved / Math_max 1 Qagg)).

Definition trimLogs (s : Sim) : Sim :=
  if (5000 <? List.length (s_logs s))%nat
  then set_logs (skipn (List.length (s_logs s) - 2000) (s_logs s)) s
  else s.

(** The outcome of a tick: it completes with the new state, the
    aggregate demand and served quantity of the tick and the recorded
    point, or an exception leaves the state as mutated so far. *)
Inductive TickOutcome :=
  | Completed (s : Sim) (Qagg Qserved : float) (point : MetricsPoint)
  | Thrown (s : Sim).

(** The first part of [simTick]: the tick counter, the manual price, the
    consumers, the planning of the PBC firms, the base production and the
    due orders.  It gives the state in which the PBC firms then serve, the
    aggregate demand [Qagg] and whether the planner's function threw. *)
Definition tickOrders (inp : Inputs) (s : Sim) : Sim * float * bool :=
  let s := set_t (s_t s + 1)%Z s in
  let prevPrice := s_price s in
  (* manual price override *)
  let s :=
    match priceMode inp with
    | manual => set_price (Math_max DEFAULT.pMin (manualPrice inp)) s
    | auto => s
    end in
  (* consumers update *)
  let '(cs, Qagg, rng) :=
    updateConsumers inp (s_t s) prevPrice (s_price s) (s_consumers s) 0 (s_rng s) in
  let s := set_rng rng (set_consumers cs s) in
  (* PBC planning *)
  let '(pbc, orders, rng, thrown) :=
    planPBC inp (s_t s) (s_price s) Qagg (sumA (s_PBC s)) (s_PFP s) (s_PBC s) (s_orders s)
            (s_rng s) in
  let s := set_rng rng (set_orders orders (set_firms PBC pbc s)) in
  if thrown then (s, Qagg, true)
  else
    (* PMP and PFP base production *)
    let '(pmp, rng) := produceAll (s_t s) (s_PMP s) (s_rng s) in
    let '(pfp, rng) := produceAll (s_t s) (s_PFP s) rng in
    let s := set_rng rng (set_firms PFP pfp (set_firms PMP pmp s)) in
    (* due orders *)
    (processOrders s, Qagg, false).

Definition simTick (inp : Inputs) (s : Sim) : TickOutcome :=
  let '(s, Qagg, thrown) := tickOrders inp s in
  if thrown then Thrown s
  else
    (* PBC serve their customers *)
    let '(pbc, Qserved) := serveAll (s_t s) (s_PBC s) 0 in
    let s := set_firms PBC pbc s in
    (* automatic adjustment of the price *)
    let s :=
      match priceMode inp with
      | auto => set_price (adjustPrice (s_price s) Qagg Qserved) s
      | manual => s
      end in
    (* innovations *)
    let s := adoptInnovations (scheduleInnovation s) in
    let point := recordPoint (s_t s) (s_price s) Qagg Qserved in
    Completed (trimLogs s) Qagg Qserved point.

(** [setSeriesData]: the series keeps the last [historyLen] points. *)
Definition appendPoint (historyLen : nat) (prev : list MetricsPoint) (point : MetricsPoint)
  : list MetricsPoint :=
  let next := prev ++ [point] in
  if (historyLen <? List.length next)%nat
  then skipn (List.length next - historyLen) next
  else next.

(** One turn of the interval: [try { simTick() } catch (err) { ... }]. *)
Definition tickDriver (inp : Inputs) (app : Sim * list MetricsPoint)
  : Sim * list MetricsPoint :=
  match simTick inp (fst app) with
  | Completed s _ _ point => (s, appendPoint (historyLen inp) (snd app) point)
  | Thrown s => (s, snd app)
  end.

(** The points recorded by a run: one tick per element of [inps]. *)
Fixpoint runPoints (inps : list Inputs) (s : Sim) : list MetricsPoint :=
  match inps with
  | [] => []
  | inp :: rest =>
      match simTick inp s with
      | Completed s _ _ point => point :: runPoints rest s
      | Thrown s => runPoints rest s
      end
  end.

Fixpoint runSim (inps : list Inputs) (s : Sim) : Sim :=
  match inps with
  | [] => s
  | inp :: rest =>
      match simTick inp s with
      | Completed s _ _ _ => runSim rest s
      | Thrown s => runSim rest s
      end
  end.

(** ** Oracle demand and the survey *)

(** [oracleDemandAt(p)]: the hidden demand without noise. *)
Definition oracleDemandAt (s : Sim) (p : float) : float :=
  fold_left
    (fun Q c =>
       let q :=
         match c_type c with
         | linear => Math_max 0 (c_a c - c_b c * p)
         | log => Math_max 0 (c_a c - c_b c * Math_log (1 + Math_max 0 p))
         | exp => Math_max 0 (c_a c * Math_exp (- c_b c * p))
         | poly =>
             let cc := Math_max 0.001 (c_b c * 0.01) in
             Math_max 0 (c_a c - c_b c * p - cc * p * p)
         end in
       Q + q)
    (s_consumers s) 0.



End Engine.

(* ================================================================== *)
(** * Display, statistics and utilities                                 *)
(* ================================================================== *)

(** ** Utilities *)

Module Utilities.

(** [last(arr, fallback)]; [None] is an absent array. *)
Definition last {A : Type} (arr : option (list A)) (fallback : A) : A :=
  match arr with
  | None => fallback
  | Some l =>
      match l with
      | [] => fallback
      | _ => nth (List.length l - 1) l fallback
      end
  end.

End Utilities.

(** [isFinite(x)]. *)
Definition isFinite (x : float) : bool := negb (is_nan x || is_infinity x).

(** [Math.max(...l)]: [-Infinity] for no argument. *)
Definition Math_max_list (l : list float) : float := fold_left Math_max l neg_infinity.

(** ** The preview of the demand editor *)

(** The point that [DemandPreviewSVG] computes for step [i]: a function
    that throws, or whose value is not finite, counts as [0]. *)
Definition previewPoint (fn : option (float -> option float)) (maxP : float) (i : nat)
  : float * float :=
  let p := (of_nat i / 60 * maxP)%float in
  let q :=
    match fn with
    | Some f =>
        match f p with
        | Some q => if isFinite q then q else 0%float
        | None => 0%float
        end
    | None => 0%float
    end in
  (p, Math_max 0 q).

Definition previewPoints (fn : option (float -> option float)) (maxP : float)
  : list (float * float) :=
  map (previewPoint fn maxP) (seq 0 61).

(** [maxQ] and [maxPX], the scales of the plot. *)
Definition previewMaxQ (pts : list (float * float)) : float :=
  Math_max_list (map snd pts ++ [1%float]).

Definition previewMaxPX (pts : list (float * float)) : float :=
  Math_max_list (map fst pts ++ [1%float]).

(** ** Live indicators *)

Record Kpis := mkKpis {
  avgEff : float; priceVar : float; demandVar : float; utilization : float
}.

(** [kpis]: the indicators of the last 40 points of the series. *)
Definition kpis (seriesData : list MetricsPoint) : Kpis :=
  let w := skipn (List.length seriesData - 40) seriesData in
  let avgEff :=
    match w with
    | [] => 0%float
    | _ => (fold_left (fun a b => a + or_else (p_efficiency b) 0) w 0
            / of_nat (List.length w))%float
    end in
  let priceVar := variance (map p_price w) in
  let demandVar := variance (map p_qDemand w) in
  let utilization :=
    match w with
    | [] => 0%float
    | _ => (fold_left (fun a b => a + or_else (p_qServed b) 0) w 0
            / or_else (fold_left (fun a b => a + or_else (p_qDemand b) 0) w 0) 1)%float
    end in
  mkKpis avgEff priceVar demandVar utilization.

(** [tips]: the recommendations shown for the indicators and the
    innovation counters. *)
Definition tips (k : Kpis) (scheduled adopted : Z) : list string :=
  let arr := [] in
  let arr :=
    if (avgEff k <? 0.7)%float
    then arr ++ ["Eficiencia baja: considera bajar el precio o aumentar capacidad PBC."%string]
    else arr in
  let arr :=
    if gtb (priceVar k) 0.15
    then arr ++ ["Precio muy volátil: fija precio manual temporalmente para estabilizar."%string]
    else arr in
  let arr :=
    if (utilization k <? 0.8)%float
    then arr ++ ["Subutilización: tal vez tu demanda percibida es muy baja. Aumenta A o baja B."%string]
    else arr in
  let arr :=
    if (adopted <? scheduled)%Z
    then arr ++ ["Hay innovaciones pendientes: espera adopción o acelera pedidos para aprovechar."%string]
    else arr in
  match arr with
  | [] => ["Todo estable. Explora Fase C para estresar el sistema."%string]
  | _ => arr
  end.

(** ** Closing a session *)

Section Welfare.
Variables Math_exp Math_log : float -> float.

(** [aggregateWillingnessToPay(pricePoint)]: the area under the oracle
    demand by the trapezoid rule over 100 steps, less the expenditure at
    the price. *)
Definition aggregateWillingnessToPay (s : Sim) (pricePoint : float) : float :=
  let avgA :=
    (fold_left (fun a b => a + c_a b) (s_consumers s) 0
     / Math_max 1 (or_else (of_nat (List.length (s_consumers s))) 1))%float in
  let Pmax := Math_max 10 (avgA / Math_max 0.1 1 * 0.5)%float in
  let area :=
    fold_left
      (fun area i =>
         let p1 := (of_nat i / 100 * Pmax)%float in
         let p2 := ((of_nat i + 1) / 100 * Pmax)%float in
         let q1 := oracleDemandAt Math_exp Math_log s p1 in
         let q2 := oracleDemandAt Math_exp Math_log s p2 in
         (area + 0.5 * (q1 + q2) * (p2 - p1))%float)
      (seq 0 100) 0%float in
  (area - pricePoint * oracleDemandAt Math_exp Math_log s pricePoint)%float.

Record FinalStats := mkStats {
  st_ticks : nat;
  st_avgPrice : float;
  st_avgDemand : float;
  st_avgServed : float;
  st_effMean : float;
  st_demandVol : float;
  st_priceVol : float;
  st_cumulativeRegret : float;
  st_welfareProxy : float;
  st_innovationCounts : Z * Z;
  st_seed : float
}.

(** The statistics that [finalizeSession] computes from the series shown. *)
Definition finalizeSession (s : Sim) (seriesData : list MetricsPoint) : FinalStats :=
  let data := seriesData in
  let n := Math_max 1 (of_nat (List.length data)) in
  let avgPrice := (fold_left (fun a b => a + p_price b) data 0 / n)%float in
  let avgDemand := (fold_left (fun a b => a + p_qDemand b) data 0 / n)%float in
  let avgServed := (fold_left (fun a b => a + p_qServed b) data 0 / n)%float in
  let effMean := (fold_left (fun a b => a + or_else (p_efficiency b) 0) data 0 / n)%float in
  let demandVol := variance (map p_qDemand data) in
  let priceVol := variance (map p_price data) in
  let regretSeries :=
    map (fun pt => Math_abs (p_qServed pt - oracleDemandAt Math_exp Math_log s (p_price pt)))
        data in
  let cumulativeRegret := fold_left (fun a b => (a + b)%float) regretSeries 0%float in
  let welfareProxy :=
    fold_left
      (fun w pt =>
         let wtp := aggregateWillingnessToPay s (p_price pt) in
         let expenditure := (p_price pt * p_qServed pt)%float in
         (w + (wtp - expenditure))%float)
      data 0%float in
  mkStats (List.length data) avgPrice avgDemand avgServed effMean demandVol priceVol
          cumulativeRegret welfareProxy (s_scheduled s, s_adopted s) (s_seed s).

End Welfare.

(** ** The events of a session *)

Section Survey.
Variables Math_exp Math_log : float -> float.




End Survey.

(** ** The older variant of the engine *)

Module Older.

(** [pickWeighted(rng, arr)]: the loop returns the first item at which the
    running remainder is [<= 0]. *)
Fixpoint pickLoop {A : Type} (r : float) (arr : list (float * A)) : option A :=
  match arr with
  | [] => None
  | (weight, value) :: rest =>
      let r := (r - weight)%float in
      if (r <=? 0)%float then Some value else pickLoop r rest
  end.

(** [None] is the [TypeError] of [arr[arr.length - 1].value] on an empty
    array. *)
Definition pickWeighted {A : Type} (rng : RngState) (arr : list (float * A))
  : option A * RngState :=
  let total := fold_left (fun s x => (s + fst x)%float) arr 0%float in
  let '(u, rng) := mulberry32 rng in
  let r := (u * total)%float in
  match pickLoop r arr with
  | Some v => (Some v, rng)
  | None => (option_map snd (nth_error arr (List.length arr - 1)), rng)
  end.

(** The production step of a PBC firm: what it produces, what it takes
    from its inventory, and the inventory left. *)
Definition pbcProduce (planned inventory capacity : float) : float * float * float :=
  let possible := Math_min planned (inventory + capacity) in
  let produced := Math_max 0 possible in
  let consumed := Math_min inventory produced in
  (produced, consumed, (inventory - consumed)%float).

(** The price step, with [cfg.pPriceAdjustGain = 0.08] and [cfg.pMin = 0.01]:
    the gap is taken relative to the demand itself. *)
Definition adjustPrice (price Qd Qserved : float) : float :=
  let adjustGain := 0.08%float in
  let delta := if (Qd =? 0)%float then 0%float else ((Qd - Qserved) / Qd)%float in
  Math_max 0.01 (price * (1 + adjustGain * delta))%float.

(** The plan of a PBC firm: the perceived demand times the firm's share. *)
Definition planOf (perceivedTotal share : float) : float := (perceivedTotal * share)%float.

(** An innovation of a firm, kept in [f.innovations]. *)
Record Innov := mkInnov {
  n_t0 : Z; n_adopted : bool; n_adoptAt : Z; n_costMul : float; n_tfpMul : float
}.

Definition due (t : Z) (x : Innov) : bool := negb (n_adopted x) && (n_adoptAt x <=? t)%Z.

(** The adoption loop of a firm, also that of [src/src/App.jsx]: every
    innovation that is due multiplies the firm's [marginalCost] and [A] and
    is flagged adopted. *)
Fixpoint adoptDue (t : Z) (marginalCost A : float) (innovations : list Innov)
  : float * float * list Innov :=
  match innovations with
  | [] => (marginalCost, A, [])
  | x :: rest =>
      if due t x then
        let '(mc, a, rest) :=
          adoptDue t (marginalCost * n_costMul x) (A * n_tfpMul x) rest in
        (mc, a, mkInnov (n_t0 x) true (n_adoptAt x) (n_costMul x) (n_tfpMul x) :: rest)
      else
        let '(mc, a, rest) := adoptDue t marginalCost A rest in
        (mc, a, x :: rest)
  end.

End Older.

(* ================================================================== *)
(** * Vocabulary of the statements and example states                   *)
(* ================================================================== *)

(** Sign view of a specification float. *)
Definition SFnonneg (x : spec_float) : bool :=
  match x with
  | S754_nan => false
  | S754_zero _ => true
  | S754_infinity s => negb s
  | S754_finite s _ _ => negb s
  end.

Definition SFnotneg (x : spec_float) : bool :=
  match x with
  | S754_nan => true
  | _ => SFnonneg x
  end.

Definition nonneg (x : float) : Prop := (0 <=? x)%float = true.
Definition notneg (x : float) : Prop := (x <? 0)%float = false.

Definition SFsign_is (sx : bool) (r : spec_float) : Prop :=
  match r with
  | S754_nan => False
  | S754_zero s | S754_infinity s | S754_finite s _ _ => s = sx
  end.

Definition SFpos (x : spec_float) : bool :=
  match x with
  | S754_finite false _ _ | S754_infinity false => true
  | _ => false
  end.

Definition fle (a b : float) : Prop := (a <=? b)%float = true.
Definition flt (a b : float) : Prop := (a <? b)%float = true.
Definition feq (a b : float) : Prop := (a =? b)%float = true.
Definition is_num (a : float) : Prop := is_nan a = false.

(** A simulation without consumers: one firm per tier, price 1. *)
Definition quiet_sim : Sim :=
  mkSim 0 1%float 1%float 1 []
        [mkFirm "PBC0" 1 20 0.5 0 0 []] [mkFirm "PFP0" 1 20 0.5 0 0 []]
        [mkFirm "PMP0" 1 20 0.5 0 0 []] [] [] [] 0 0.

Definition auto_inputs : Inputs := mkInputs auto 1 phaseA None 200.

Definition manual_inputs (v : float) : Inputs := mkInputs manual v phaseA None 200.

(** The mean of the quantities and the denominator that [olsLinear]
    computes for a sample. *)
Definition ols_meanX (x : list float) : float := (sum_floats x / of_nat (List.length x))%float.
Definition ols_meanY (x y : list float) : float := (sum_floats y / of_nat (List.length x))%float.
Definition ols_den (x y : list float) : float :=
  snd (ols_sums (ols_meanX x) (ols_meanY x y) x y 0 0).
Definition ols_num (x y : list float) : float :=
  fst (ols_sums (ols_meanX x) (ols_meanY x y) x y 0 0).

(** [+Infinity] or NaN. *)
Definition SFinfnan (x : spec_float) : bool :=
  match x with
  | S754_infinity false | S754_nan => true
  | _ => false
  end.

Definition SFfinite (x : spec_float) : bool :=
  match x with
  | S754_zero _ | S754_finite _ _ _ => true
  | _ => false
  end.

(** 350 linear consumers with [a = 120], [b = 6] and a single PBC firm of
    capacity 1000. *)
Definition scenarioA_consumers : list Consumer :=
  map (fun i => mkConsumer (firm_id "C" i) linear 120 6 60 60 0 50) (seq 0 350).

Definition scenarioA_PBC : list Firm := [mkFirm "PBC0" 1 1000 0.5 0 0 []].

Definition scenarioA_sim (p : float) : Sim :=
  mkSim 0 12345%float 12345%float p scenarioA_consumers scenarioA_PBC [] [] [] [] [] 0 0.

(** The supply the calibration compares the demand with. *)
Definition oferta (pbc : list Firm) : float :=
  Math_max 1 (fold_left (fun acc f => acc + or_else (f_capacity f) 0)%float pbc 0%float).

(** The price after the steps [l], each a factor [1.05] or [0.95]. *)
Definition apply_steps (p0 : float) (l : list float) : float :=
  fold_left (fun p f => (p * f)%float) l p0.

Definition SFfin_nonneg (x : spec_float) : bool :=
  match x with
  | S754_zero _ | S754_finite false _ _ => true
  | _ => false
  end.

(** A positive finite number. *)
Definition positive_finite (c : float) : Prop :=
  exists m e, Prim2SF c = S754_finite false m e.

(** The quantity a PBC firm serves in a tick. *)
Definition served (t : Z) (f : Firm) : float := snd (serve t f).

(** What a firm holds, as opposed to its technology [A] and
    [marginalCost]. *)
Definition stock (f : Firm) : string * float * float * float * list (Z * float) :=
  (f_id f, f_capacity f, f_inventory f, f_planned f, f_history f).

(** The technology of a firm. *)
Definition tech (f : Firm) : string * float * float :=
  (f_id f, f_marginalCost f, f_A f).

(** A simulation with three linear consumers and a PBC firm that holds
    an inventory of 30 with a capacity of 20. *)
Definition busy_sim : Sim :=
  mkSim 0 1%float 1%float 1
        (map (fun i => mkConsumer (firm_id "C" i) linear 120 6 60 60 0 50) (seq 0 3))
        [mkFirm "PBC0" 1 20 0.5 30 0 []] [mkFirm "PFP0" 1 20 0.5 0 0 []]
        [mkFirm "PMP0" 1 20 0.5 0 0 []] [] [] [] 0 0.

(** The same with a PBC firm whose capacity is 0. *)
Definition zero_capacity_sim : Sim :=
  mkSim 0 1%float 1%float 1
        (map (fun i => mkConsumer (firm_id "C" i) linear 120 6 60 60 0 50) (seq 0 3))
        [mkFirm "PBC0" 1 0 0.5 30 0 []] [mkFirm "PFP0" 1 20 0.5 0 0 []]
        [mkFirm "PMP0" 1 20 0.5 0 0 []] [] [] [] 0 0.

(** A number that is falsy: zero or NaN. *)
Definition SFfalsy (x : spec_float) : bool :=
  match x with
  | S754_zero _ | S754_nan => true
  | _ => false
  end.

(** The price at which the planner's function is evaluated in a tick. *)
Definition planning_price (inp : Inputs) (s : Sim) : float :=
  match priceMode inp with
  | auto => s_price s
  | manual => Math_max DEFAULT.pMin (manualPrice inp)
  end.

(** A planner function that throws, one that returns NaN and one that
    returns [+Infinity]. *)
Definition throwing_inputs : Inputs := mkInputs auto 1 phaseA (Some (fun _ => None)) 200.
Definition nan_inputs : Inputs := mkInputs auto 1 phaseA (Some (fun _ => Some nan)) 200.
Definition infinity_inputs : Inputs :=
  mkInputs auto 1 phaseA (Some (fun _ => Some infinity)) 200.

(** The child orders of the order at position [k] of the ledger. *)
Definition children (k : nat) (orders : list Order) : list Order :=
  filter (fun o => match o_orig o with Some j => Nat.eqb j k | None => false end) orders.

(** Scenario B: a Final firm with capacity 0 and inventory 0, an
    Intermediate and a Raw firm with inventory 0, and ten linear consumers. *)
Definition shortage_sim : Sim :=
  mkSim 0 1%float 1%float 1
        (map (fun i => mkConsumer (firm_id "C" i) linear 120 6 60 60 0 50) (seq 0 10))
        [mkFirm "PBC0" 1 0 0.5 0 0 []] [mkFirm "PFP0" 1 20 0.5 0 0 []]
        [mkFirm "PMP0" 1 20 0.5 0 0 []] [] [] [] 0 0.

(** A ledger with one due order of 100 units that the Intermediate firm,
    holding 10 units, cannot cover. *)
Definition short_order : Order := mkOrder PBC_PFP "PBC0" "PFP0" 100 13 false None.

Definition short_sim : Sim :=
  mkSim 13 1%float 1%float 1 []
        [mkFirm "PBC0" 1 0 0.5 0 0 []] [mkFirm "PFP0" 1 20 0.5 10 0 []]
        [mkFirm "PMP0" 1 20 0.5 0 0 []] [short_order] [] [] 0 0.

(** Two planner functions agree when both are absent or when they give the
    same result at every price. *)
Inductive override_agree
  : option (float -> option float) -> option (float -> option float) -> Prop :=
| agree_none : override_agree None None
| agree_some f g : (forall p, f p = g p) -> override_agree (Some f) (Some g).

(** External inputs that a tick cannot tell apart: the same mode, the same
    manual price when the mode is manual, the same phase and planner
    functions that agree.  The length of the displayed series is not read by
    the tick. *)
Definition inputs_agree (i1 i2 : Inputs) : Prop :=
  priceMode i1 = priceMode i2 /\
  (priceMode i1 = manual -> manualPrice i1 = manualPrice i2) /\
  phaseIdx i1 = phaseIdx i2 /\
  override_agree (userDemandFn i1) (userDemandFn i2).

(** What an innovation is, apart from its [adopted] flag. *)
Definition core (x : Innovation) : string * Tier * float * float * Z * Z :=
  (i_firm x, i_level x, i_costMul x, i_tfpMul x, i_scheduleAt x, i_adoptAt x).

Definition Tier_eqb (a b : Tier) : bool :=
  match a, b with
  | PBC, PBC | PFP, PFP | PMP, PMP => true
  | _, _ => false
  end.

(** The effect of the adoption of [x] on the firms of tier [lvl]. *)
Definition adoptStep (lvl : Tier) (fs : list Firm) (x : Innovation) : list Firm :=
  if Tier_eqb (i_level x) lvl then update_firm (i_firm x) (fun f => adopt f x) fs else fs.

Definition stepAt (inn : list Innovation) (lvl : Tier) (fs : list Firm) (k : nat)
  : list Firm :=
  match nth_error inn k with Some x => adoptStep lvl fs x | None => fs end.

(** A state with one firm per tier, no consumers, and one pending
    innovation for the PBC firm, due for adoption at tick 1. *)
Definition pending_innovation : Innovation := mkInnovation "PBC0" PBC 0.9 1.1 0 1 false.

Definition innovation_sim : Sim :=
  mkSim 0 1%float 1%float 1 []
        [mkFirm "PBC0" 1 20 0.5 0 0 []] [mkFirm "PFP0" 1 20 0.5 0 0 []]
        [mkFirm "PMP0" 1 20 0.5 0 0 []] [] [] [pending_innovation] 0 0.

(** The same with a marginal cost close to the floor. *)
Definition cheap_sim : Sim :=
  mkSim 0 1%float 1%float 1 []
        [mkFirm "PBC0" 1 20 0.0105 0 0 []] [mkFirm "PFP0" 1 20 0.5 0 0 []]
        [mkFirm "PMP0" 1 20 0.5 0 0 []] [] []
        [mkInnovation "PBC0" PBC 0.92 1.1 0 1 false] 0 0.

(** What the invariant asks of a firm and of an order. *)
Definition firm_ok (f : Firm) : Prop := notneg (f_inventory f) /\ notneg (f_capacity f).

Definition order_ok (o : Order) : Prop := notneg (o_amount o).

(** A state is well formed when no inventory, capacity or ordered amount is
    negative. *)
Definition WF (s : Sim) : Prop :=
  (forall lvl, Forall firm_ok (firms s lvl)) /\ Forall order_ok (s_orders s).

(** A consumer with a negative slope, as [sample_ab] draws one time in
    twenty, and one firm per tier. *)
Definition overflow_sim : Sim :=
  mkSim 0 1%float 1%float 1
        [mkConsumer "C0" linear 150 (-4) 60 60 0 50]
        [mkFirm "PBC0" 1 20 0.5 30 0 []] [mkFirm "PFP0" 1 20 0.5 0 0 []]
        [mkFirm "PMP0" 1 20 0.5 0 0 []] [] [] [] 0 0.

(** ** Ledgers, identities and counters *)

(** What an order is, apart from its [filled] flag. *)
Definition order_core (o : Order) : OrderLevel * string * string * float * Z * option nat :=
  (o_level o, o_from o, o_to o, o_amount o, o_due o, o_orig o).

(** [l'] holds every order of [l] at its position, with the same data; a
    filled order is still filled. *)
Definition ledger_grows (l l' : list Order) : Prop :=
  forall k o, nth_error l k = Some o ->
    exists o', nth_error l' k = Some o' /\ order_core o' = order_core o /\
               (o_filled o = true -> o_filled o' = true).

(** What identifies a firm: its id and its capacity. *)
Definition firm_identity (f : Firm) : string * float := (f_id f, f_capacity f).

(** The planner's function, when there is one, returns at every price. *)
Definition never_throws (inp : Inputs) : Prop :=
  match userDemandFn inp with
  | None => True
  | Some fn => forall p, fn p <> None
  end.

(** The integer that [mulberry32] divides by [2^32]. *)
Definition mulberry32_bits (a : RngState) : Z :=
  let a := (a + 1831565813)%float in
  let t := ToUint32 a in
  let t := Math_imul (Z.lxor t (Z.shiftr t 15)) (Z.lor t 1) in
  let t := Z.lxor t (Z.land (t + Math_imul (Z.lxor t (Z.shiftr t 7)) (Z.lor t 61)) 4294967295) in
  Z.lxor t (Z.shiftr t 14).

(** The number of innovations flagged adopted. *)
Definition adopted_count (l : list Innovation) : nat := List.length (filter i_adopted l).

(** The counters of [innovationCounterRef] agree with the ledger of
    innovations. *)
Definition counters_ok (s : Sim) : Prop :=
  s_scheduled s = Z.of_nat (List.length (s_innovations s)) /\
  s_adopted s = Z.of_nat (adopted_count (s_innovations s)).

(** The share of the perceived demand that a PBC firm plans for. *)
Definition planShare (pbc : list Firm) (f : Firm) : float :=
  (f_A f * or_else (f_capacity f) 1 / sumA pbc)%float.



(** The effect of the older adoption loop on the cost and productivity. *)
Definition olderEffect (acc : float * float) (x : Older.Innov) : float * float :=
  (fst acc * Older.n_costMul x, snd acc * Older.n_tfpMul x)%float.

(* ================================================================== *)
(** * Facts about numbers                                               *)
(* ================================================================== *)

(** The specification of the binary64 operations ([Prim2SF] and the
    [_spec] statements of the standard library) gives the order and sign
    facts the engine's guards rely on. *)

Lemma Prim2SF_zero : Prim2SF 0 = S754_zero false.
Proof. reflexivity. Qed.

Lemma nonneg_SF x : nonneg x <-> SFnonneg (Prim2SF x) = true.
Proof.
  unfold nonneg. rewrite FloatAxioms.leb_spec, Prim2SF_zero.
  destruct (Prim2SF x) as [s|s| |s m e]; try destruct s; cbn; intuition congruence.
Qed.

Lemma notneg_SF x : notneg x <-> SFnotneg (Prim2SF x) = true.
Proof.
  unfold notneg. rewrite FloatAxioms.ltb_spec, Prim2SF_zero.
  destruct (Prim2SF x) as [s|s| |s m e]; try destruct s; cbn; intuition congruence.
Qed.

Lemma SFcompare_refl x : x <> S754_nan -> SFcompare x x = Some Eq.
Proof.
  destruct x as [s|s| |s m e]; simpl; intros H; try congruence.
  - destruct s; reflexivity.
  - destruct s; rewrite Z.compare_refl; change (Pos.compare_cont Eq m m) with (Pos.compare m m);
      rewrite Pos.compare_refl; reflexivity.
Qed.

Lemma is_nan_SF x : is_nan x = true <-> Prim2SF x = S754_nan.
Proof.
  unfold is_nan. rewrite FloatAxioms.eqb_spec. unfold SFeqb.
  destruct (Prim2SF x) as [s|s| |s m e] eqn:E.
  all: try (rewrite SFcompare_refl by congruence; simpl; intuition congruence).
  simpl. intuition congruence.
Qed.

Lemma nonneg_notneg x : nonneg x -> notneg x.
Proof. rewrite nonneg_SF, notneg_SF. destruct (Prim2SF x); simpl; auto. Qed.

Lemma notneg_cases x : notneg x <-> is_nan x = true \/ nonneg x.
Proof.
  rewrite notneg_SF, nonneg_SF, is_nan_SF.
  destruct (Prim2SF x); simpl; intuition congruence.
Qed.

(** ** Rounding keeps the sign *)

Lemma shr_1_nonneg mrs : 0 <= shr_m mrs -> 0 <= shr_m (shr_1 mrs).
Proof.
  destruct mrs as [m r s]; destruct m as [|p|p]; try destruct p; simpl; lia.
Qed.

Lemma iter_pos_inv {A} (P : A -> Prop) (f : A -> A) :
  (forall x, P x -> P (f x)) -> forall p x, P x -> P (iter_pos f p x).
Proof.
  intros Hf p; induction p; intros x Hx; simpl; auto.
Qed.

Lemma shr_nonneg mrs e n : 0 <= shr_m mrs -> 0 <= shr_m (fst (shr mrs e n)).
Proof.
  intros H. unfold shr. destruct n; simpl; auto.
  apply (iter_pos_inv (fun r => 0 <= shr_m r)); auto using shr_1_nonneg.
Qed.

Lemma shr_record_of_loc_m m l : shr_m (shr_record_of_loc m l) = m.
Proof. destruct l as [|[]]; reflexivity. Qed.

Lemma shr_fexp_nonneg m e l : 0 <= m -> 0 <= shr_m (fst (shr_fexp prec emax m e l)).
Proof.
  intros H. unfold shr_fexp. apply shr_nonneg. now rewrite shr_record_of_loc_m.
Qed.

Lemma round_nearest_even_nonneg m l : 0 <= m -> 0 <= round_nearest_even m l.
Proof.
  intros H. destruct l as [|[]]; simpl; try destruct (Z.even m); lia.
Qed.

Lemma binary_round_aux_sign sx mx ex lx :
  0 <= mx -> SFsign_is sx (binary_round_aux prec emax sx mx ex lx).
Proof.
  intros H. unfold binary_round_aux.
  pose proof (shr_fexp_nonneg mx ex lx H) as H1.
  destruct (shr_fexp prec emax mx ex lx) as [mrs' e']. simpl in H1.
  pose proof (shr_fexp_nonneg _ e' loc_Exact
                (round_nearest_even_nonneg _ (loc_of_shr_record mrs') H1)) as H2.
  destruct (shr_fexp prec emax _ e' loc_Exact) as [mrs'' e'']. simpl in H2.
  destruct (shr_m mrs'') as [|p|p]; [reflexivity| |lia].
  destruct (e'' <=? emax - prec); reflexivity.
Qed.

Lemma binary_round_sign sx mx ex : SFsign_is sx (binary_round prec emax sx mx ex).
Proof.
  unfold binary_round. destruct (shl_align mx ex _) as [mz ez].
  apply binary_round_aux_sign. lia.
Qed.

Lemma SFsign_is_nonneg r : SFsign_is false r -> SFnonneg r = true.
Proof. destruct r; simpl; intros; subst; auto; contradiction. Qed.

(** ** Sums, products and quotients of non-negative numbers *)

Lemma SFadd_nonneg x y :
  SFnonneg x = true -> SFnonneg y = true -> SFnonneg (SF64add x y) = true.
Proof.
  destruct x as [sx|sx| |sx mx ex], y as [sy|sy| |sy my ey]; simpl;
    try destruct sx; try destruct sy; simpl; try congruence; intros _ _.
  apply SFsign_is_nonneg.
  unfold binary_normalize.
  destruct (Z.pos (fst (shl_align mx ex (Z.min ex ey))) +
            Z.pos (fst (shl_align my ey (Z.min ex ey)))) eqn:E; try lia.
  apply binary_round_sign.
Qed.

Lemma SFsign_is_notneg r : SFsign_is false r -> SFnotneg r = true.
Proof. destruct r; simpl; intros; subst; auto. Qed.

Lemma SFmul_notneg x y :
  SFnotneg x = true -> SFnotneg y = true -> SFnotneg (SF64mul x y) = true.
Proof.
  destruct x as [sx|sx| |sx mx ex], y as [sy|sy| |sy my ey]; simpl;
    try destruct sx; try destruct sy; simpl; try congruence; intros _ _;
    try reflexivity.
  apply SFsign_is_notneg, binary_round_aux_sign. lia.
Qed.

Lemma SFdiv_notneg x y :
  SFnotneg x = true -> SFpos y = true -> SFnotneg (SF64div x y) = true.
Proof.
  destruct x as [sx|sx| |sx mx ex], y as [sy|sy| |sy my ey]; simpl;
    try destruct sx; try destruct sy; simpl; try congruence; intros _ _;
    try reflexivity.
  unfold SF64div, SFdiv.
  destruct (SFdiv_core_binary prec emax (Z.pos mx) ex (Z.pos my) ey) as [[mz ez] lz].
  unfold binary_round_aux.
  destruct (shr_fexp prec emax mz ez lz) as [mrs' e'].
  destruct (shr_fexp prec emax _ e' loc_Exact) as [mrs'' e''].
  destruct (shr_m mrs''); simpl; auto.
  destruct (e'' <=? 971); reflexivity.
Qed.

(** ** Guarded subtraction *)

Lemma digits2_pos_bounds m :
  2 ^ (Z.pos (digits2_pos m) - 1) <= Z.pos m < 2 ^ Z.pos (digits2_pos m).
Proof.
  induction m as [m IH|m IH|]; simpl digits2_pos.
  - rewrite Pos2Z.inj_succ.
    replace (Z.succ (Z.pos (digits2_pos m)) - 1) with (Z.succ (Z.pos (digits2_pos m) - 1)) by lia.
    rewrite !Z.pow_succ_r by lia. lia.
  - rewrite Pos2Z.inj_succ.
    replace (Z.succ (Z.pos (digits2_pos m)) - 1) with (Z.succ (Z.pos (digits2_pos m) - 1)) by lia.
    rewrite !Z.pow_succ_r by lia. lia.
  - simpl. lia.
Qed.

Lemma iter_xO_pow m d : Z.pos (Pos.iter xO m d) = Z.pos m * 2 ^ Z.pos d.
Proof.
  revert m. induction d using Pos.peano_ind; intros m.
  - simpl. lia.
  - rewrite Pos.iter_succ, Pos2Z.inj_succ, Z.pow_succ_r by lia.
    change (Z.pos (Pos.iter xO m d)~0) with (2 * Z.pos (Pos.iter xO m d)).
    rewrite IHd. lia.
Qed.

Lemma SFsub_notneg x y :
  valid_binary x = true -> valid_binary y = true ->
  SFnonneg y = true -> SFleb y x = true -> SFnotneg (SF64sub x y) = true.
Proof.
  destruct x as [sx|sx| |sx mx ex], y as [sy|sy| |sy my ey]; simpl;
    try destruct sx; try destruct sy; cbn; try congruence; intros Vx Vy _ Hle;
    try reflexivity.
  apply SFsign_is_notneg.
  unfold SFleb, SFcompare in Hle.
  assert (Hm : Z.pos (fst (shl_align my ey (Z.min ex ey))) <=
               Z.pos (fst (shl_align mx ex (Z.min ex ey)))).
  { unfold bounded, canonical_mantissa, fexp in Vx, Vy.
    apply andb_prop in Vx, Vy. destruct Vx as [Cx _], Vy as [Cy _].
    apply Z.eqb_eq in Cx, Cy.
    pose proof (digits2_pos_bounds mx) as Bx. pose proof (digits2_pos_bounds my) as By.
    unfold shl_align.
    destruct (Z.compare_spec ey ex) as [E|E|E]; try discriminate.
    - subst ey. rewrite Z.min_id, Z.sub_diag. simpl.
      change (Pos.compare_cont Eq my mx) with (Pos.compare my mx) in Hle.
      destruct (Pos.compare_spec my mx); try discriminate; subst; lia.
    - rewrite Z.min_r by lia. rewrite Z.sub_diag. simpl fst at 1.
      destruct (ey - ex) as [|d|d] eqn:Ed; try lia. simpl fst.
      rewrite iter_xO_pow.
      assert (Z.pos (digits2_pos mx) = prec) by (unfold FloatOps.emin, SpecFloat.emin in *; cbv [prec emax] in *; lia).
      assert (Z.pos (digits2_pos my) <= prec) by (unfold FloatOps.emin, SpecFloat.emin in *; cbv [prec emax] in *; lia).
      assert (1 <= Z.pos d) by lia.
      assert (2 ^ 1 <= 2 ^ Z.pos d) by (apply Z.pow_le_mono_r; lia).
      assert (2 ^ Z.pos (digits2_pos my) <= 2 ^ prec) by (apply Z.pow_le_mono_r; lia).
      rewrite H in Bx. change (2 ^ (prec - 1)) with 4503599627370496 in Bx.
      change (2 ^ prec) with 9007199254740992 in *. nia. }
  match goal with
  | |- context [IntDef.Z.pos_sub ?a ?b] =>
      change (IntDef.Z.pos_sub a b) with (Z.pos a - Z.pos b)
  end.
  destruct (Z.pos (fst (shl_align mx ex (Z.min ex ey))) -
            Z.pos (fst (shl_align my ey (Z.min ex ey)))) eqn:E; try lia.
  - exact eq_refl.
  - apply binary_round_sign.
Qed.

(** ** The order on numbers *)

Lemma SFcompare_antisym x y :
  SFcompare y x = option_map CompOpp (SFcompare x y).
Proof.
  destruct x as [sx|sx| |sx mx ex], y as [sy|sy| |sy my ey]; simpl;
    try destruct sx; try destruct sy; simpl; try reflexivity.
  all: rewrite (Z.compare_antisym ex ey);
    change (Pos.compare_cont Eq my mx) with (Pos.compare my mx);
    change (Pos.compare_cont Eq mx my) with (Pos.compare mx my);
    rewrite (Pos.compare_antisym my mx);
    destruct (ex ?= ey); simpl; try reflexivity;
    destruct (my ?= mx)%positive; reflexivity.
Qed.

Ltac cmp_cases :=
  repeat match goal with
  | H : context [Z.compare ?a ?b] |- _ => destruct (Z.compare_spec a b); simpl in H
  | H : context [Pos.compare ?a ?b] |- _ => destruct (Pos.compare_spec a b); simpl in H
  | |- context [Z.compare ?a ?b] => destruct (Z.compare_spec a b); simpl
  | |- context [Pos.compare ?a ?b] => destruct (Pos.compare_spec a b); simpl
  end.

Lemma SFleb_trans x y z :
  SFleb x y = true -> SFleb y z = true -> SFleb x z = true.
Proof.
  unfold SFleb.
  destruct x as [sx|sx| |sx mx ex], y as [sy|sy| |sy my ey], z as [sz|sz| |sz mz ez]; simpl;
    try destruct sx; try destruct sy; try destruct sz; simpl; try congruence;
    change (Pos.compare_cont Eq) with Pos.compare; intros H1 H2;
    cmp_cases; try congruence; try lia.
Qed.

(** ** Lifting to numbers *)

Lemma is_num_SF x : is_num x <-> Prim2SF x <> S754_nan.
Proof.
  unfold is_num. pose proof (is_nan_SF x). destruct (is_nan x); intuition congruence.
Qed.

Lemma add_nonneg a b : nonneg a -> nonneg b -> nonneg (a + b).
Proof. rewrite !nonneg_SF, add_spec. apply SFadd_nonneg. Qed.

Lemma SFadd_notneg x y :
  SFnotneg x = true -> SFnotneg y = true -> SFnotneg (SF64add x y) = true.
Proof.
  intros Hx Hy.
  destruct x as [sx|sx| |sx mx ex] eqn:Ex; try reflexivity;
    (destruct y as [sy|sy| |sy my ey] eqn:Ey; try reflexivity; [| |]);
    rewrite <- Ex, <- Ey in *;
    (assert (H : SFnonneg (SF64add x y) = true)
       by (apply SFadd_nonneg; subst; assumption));
    destruct (SF64add x y); simpl in *; congruence.
Qed.

Lemma add_notneg a b : notneg a -> notneg b -> notneg (a + b).
Proof. rewrite !notneg_SF, add_spec. apply SFadd_notneg. Qed.

Lemma mul_notneg a b : notneg a -> notneg b -> notneg (a * b).
Proof. rewrite !notneg_SF, mul_spec. apply SFmul_notneg. Qed.

Lemma fle_SF a b : fle a b <-> SFleb (Prim2SF a) (Prim2SF b) = true.
Proof. unfold fle. now rewrite FloatAxioms.leb_spec. Qed.

Lemma sub_notneg a b : notneg b -> fle b a -> notneg (a - b).
Proof.
  rewrite !notneg_SF, sub_spec, fle_SF. intros Hb Hle.
  apply SFsub_notneg; auto using Prim2SF_valid.
  destruct (Prim2SF b); simpl in *; auto; discriminate Hle.
Qed.

Lemma fle_trans a b c : fle a b -> fle b c -> fle a c.
Proof. rewrite !fle_SF. apply SFleb_trans. Qed.

Lemma fle_is_num a b : fle a b -> is_num a /\ is_num b.
Proof.
  rewrite fle_SF, !is_num_SF. unfold SFleb.
  destruct (Prim2SF a), (Prim2SF b); simpl; intuition congruence.
Qed.

Lemma flt_fle a b : flt a b -> fle a b.
Proof.
  unfold flt, fle. rewrite FloatAxioms.ltb_spec, FloatAxioms.leb_spec.
  unfold SFltb, SFleb. destruct (SFcompare _ _) as [[]|]; congruence.
Qed.

Lemma SFcompare_some x y :
  x <> S754_nan -> y <> S754_nan -> SFcompare x y <> None.
Proof. destruct x, y; simpl; congruence. Qed.

Lemma not_flt_fle a b : is_num a -> is_num b -> (a <? b)%float = false -> fle b a.
Proof.
  rewrite !is_num_SF. unfold fle. rewrite FloatAxioms.ltb_spec, FloatAxioms.leb_spec.
  unfold SFltb, SFleb. rewrite (SFcompare_antisym (Prim2SF a) (Prim2SF b)).
  intros Ha Hb. pose proof (SFcompare_some _ _ Ha Hb).
  destruct (SFcompare _ _) as [[]|]; simpl; congruence.
Qed.

Lemma fle_refl a : is_num a -> fle a a.
Proof.
  rewrite is_num_SF, fle_SF. intros H. unfold SFleb. now rewrite SFcompare_refl.
Qed.

Lemma flt_irrefl_le a b : fle a b -> (b <? a)%float = false.
Proof.
  unfold fle. rewrite FloatAxioms.ltb_spec, FloatAxioms.leb_spec.
  unfold SFltb, SFleb. rewrite (SFcompare_antisym (Prim2SF a) (Prim2SF b)).
  destruct (SFcompare _ _) as [[]|]; simpl; congruence.
Qed.

Lemma feq_fle a b : feq a b <-> fle a b /\ fle b a.
Proof.
  unfold feq, fle. rewrite FloatAxioms.eqb_spec, !FloatAxioms.leb_spec.
  unfold SFeqb, SFleb. rewrite (SFcompare_antisym (Prim2SF a) (Prim2SF b)).
  destruct (SFcompare _ _) as [[]|]; simpl; intuition congruence.
Qed.

(* ================================================================== *)
(** * Properties of the engine                                          *)
(* ================================================================== *)

(** ** What the phases of a tick leave alone *)

Ltac break_match :=
  match goal with
  | |- context [match ?x with _ => _ end] => destruct x eqn:?
  | |- context [if ?x then _ else _] => destruct x eqn:?
  end.

Lemma fold_left_inv {A B} (P : A -> Prop) (f : A -> B -> A) :
  (forall a b, P a -> P (f a b)) -> forall l a, P a -> P (fold_left f l a).
Proof. intros Hf l; induction l; simpl; auto. Qed.

Section Frames.
Variables Math_exp Math_log : float -> float.

Lemma processOrder_price_t k s :
  s_price (processOrder k s) = s_price s /\ s_t (processOrder k s) = s_t s.
Proof.
  unfold processOrder. repeat break_match; simpl; auto.
Qed.

Lemma processOrders_price_t s :
  s_price (processOrders s) = s_price s /\ s_t (processOrders s) = s_t s.
Proof.
  unfold processOrders.
  apply (fold_left_inv (fun x => s_price x = s_price s /\ s_t x = s_t s)); auto.
  intros a k [H1 H2]. destruct (processOrder_price_t k a). split; congruence.
Qed.

Lemma scheduleInnovation_price_t s :
  s_price (scheduleInnovation s) = s_price s /\ s_t (scheduleInnovation s) = s_t s.
Proof.
  unfold scheduleInnovation. repeat break_match; simpl; auto.
Qed.

Lemma adoptInnovation_price_t k s :
  s_price (adoptInnovation k s) = s_price s /\ s_t (adoptInnovation k s) = s_t s.
Proof.
  unfold adoptInnovation, set_firms. repeat break_match; simpl; auto.
Qed.

Lemma adoptInnovations_price_t s :
  s_price (adoptInnovations s) = s_price s /\ s_t (adoptInnovations s) = s_t s.
Proof.
  unfold adoptInnovations.
  apply (fold_left_inv (fun x => s_price x = s_price s /\ s_t x = s_t s)); auto.
  intros a k [H1 H2]. destruct (adoptInnovation_price_t k a). split; congruence.
Qed.

Lemma trimLogs_price_t s :
  s_price (trimLogs s) = s_price s /\ s_t (trimLogs s) = s_t s.
Proof. unfold trimLogs. break_match; simpl; auto. Qed.

Lemma tickOrders_price_t inp s s1 Qagg thrown :
  tickOrders Math_exp Math_log inp s = (s1, Qagg, thrown) ->
  s_price s1 =
    match priceMode inp with
    | auto => s_price s
    | manual => Math_max DEFAULT.pMin (manualPrice inp)
    end /\
  s_t s1 = (s_t s + 1)%Z.
Proof.
  unfold tickOrders. intros H.
  repeat match type of H with
  | context [match ?x with _ => _ end] => destruct x eqn:?; cbv beta iota in H
  end; inversion H; subst; clear H;
  repeat match goal with
  | |- context [processOrders ?x] => destruct (processOrders_price_t x) as [-> ->]
  end; simpl; auto.
Qed.

(** The price and the point of a completed tick. *)
Lemma simTick_price inp s s' Qagg Qserved pt :
  simTick Math_exp Math_log inp s = Completed s' Qagg Qserved pt ->
  s_price s' =
    match priceMode inp with
    | auto => adjustPrice (s_price s) Qagg Qserved
    | manual => Math_max DEFAULT.pMin (manualPrice inp)
    end /\
  s_t s' = (s_t s + 1)%Z /\
  pt = recordPoint (s_t s') (s_price s') Qagg Qserved.
Proof.
  unfold simTick. intros H.
  destruct (tickOrders Math_exp Math_log inp s) as [[s1 Q] thrown] eqn:E.
  destruct (tickOrders_price_t _ _ _ _ _ E) as [Hp Ht].
  destruct thrown; [discriminate|].
  destruct (serveAll (s_t s1) (s_PBC s1) 0%float) as [pbc Qs].
  inversion H; subst; clear H.
  repeat match goal with
  | |- context [trimLogs ?x] => destruct (trimLogs_price_t x) as [-> ->]
  | |- context [adoptInnovations ?x] => destruct (adoptInnovations_price_t x) as [-> ->]
  | |- context [scheduleInnovation ?x] => destruct (scheduleInnovation_price_t x) as [-> ->]
  end.
  destruct (priceMode inp); simpl; rewrite ?Hp, ?Ht; auto.
Qed.

End Frames.

(** ** Multiplication by one *)

Lemma SFmul_one x :
  valid_binary x = true -> SF64mul x (Prim2SF 1) = x.
Proof.
  change (Prim2SF 1) with (S754_finite false 4503599627370496 (-52)).
  destruct x as [s|s| |s m e]; intros V; try (destruct s; reflexivity); try reflexivity.
  unfold SF64mul, SFmul. rewrite xorb_false_r. simpl valid_binary in V. unfold bounded in V.
  apply andb_prop in V. destruct V as [C B].
  unfold canonical_mantissa in C. apply Z.eqb_eq in C.
  rewrite Pos.mul_comm.
  assert (D : Zdigits2 (Z.pos (4503599627370496 * m)) = Z.pos (digits2_pos m) + 52).
  { cbn [Zdigits2 Pos.mul digits2_pos]. rewrite !Pos2Z.inj_succ. lia. }
  assert (S : forall r, iter_pos shr_1 52
                 {| shr_m := Z.pos (4503599627370496 * m); shr_r := false; shr_s := r |}
              = {| shr_m := Z.pos m; shr_r := false; shr_s := r |}).
  { intros r. cbn [Pos.mul]. destruct r; reflexivity. }
  set (M := (4503599627370496 * m)%positive) in *.
  unfold binary_round_aux, shr_fexp.
  rewrite D.
  replace (Z.pos (digits2_pos m) + 52 + (e + -52)) with (Z.pos (digits2_pos m) + e) by lia.
  rewrite C. replace (e - (e + -52)) with 52 by lia.
  cbn [shr_record_of_loc shr]. rewrite S.
  replace (e + -52 + 52) with e by lia.
  cbn [loc_of_shr_record round_nearest_even shr_m Zdigits2].
  rewrite C, Z.sub_diag. cbn [shr shr_m].
  rewrite B. reflexivity.
Qed.

Lemma mul_one (x : float) : (x * 1)%float = x.
Proof.
  apply Prim2SF_inj. rewrite mul_spec. apply SFmul_one, Prim2SF_valid.
Qed.

(** ** The floor of the price *)

Lemma SFcompare_Eq_eq x y :
  SFcompare x y = Some Eq -> (forall s, x <> S754_zero s) -> x = y.
Proof.
  destruct x as [sx|sx| |sx mx ex], y as [sy|sy| |sy my ey]; simpl;
    try destruct sx; try destruct sy; simpl; try congruence; intros H Hz;
    try (exfalso; eapply Hz; reflexivity).
  all: destruct (Z.compare_spec ex ey); try discriminate;
    change (Pos.compare_cont Eq mx my) with (Pos.compare mx my) in H;
    destruct (Pos.compare_spec mx my); try discriminate; congruence.
Qed.

Lemma Math_max_r a b : fle a b -> is_zero a = false -> Math_max a b = b.
Proof.
  intros Hle Hz. unfold Math_max.
  destruct (fle_is_num _ _ Hle) as [Ha Hb]. unfold is_num in *. rewrite Ha, Hb. simpl.
  destruct (a <? b)%float eqn:L; auto.
  rewrite (flt_irrefl_le _ _ Hle).
  assert (E : a = b).
  { apply Prim2SF_inj. apply SFcompare_Eq_eq.
    - unfold fle in Hle. rewrite FloatAxioms.leb_spec in Hle.
      rewrite FloatAxioms.ltb_spec in L. unfold SFleb, SFltb in *.
      destruct (SFcompare _ _) as [[]|]; congruence.
    - intros s E. unfold is_zero in Hz. rewrite FloatAxioms.eqb_spec, E in Hz.
      destruct s; discriminate. }
  subst. now destruct (get_sign b).
Qed.

Lemma Math_max_not_below a b : is_num a -> (Math_max a b <? a)%float = false.
Proof.
  intros Ha. unfold Math_max. unfold is_num in Ha. rewrite Ha. simpl.
  destruct (is_nan b) eqn:Hb.
  { rewrite FloatAxioms.ltb_spec. reflexivity. }
  destruct (a <? b)%float eqn:L.
  - apply flt_irrefl_le, flt_fle. exact L.
  - assert (R : (a <? a)%float = false) by (apply flt_irrefl_le, fle_refl; exact Ha).
    destruct (b <? a)%float eqn:L'; [exact R|].
    destruct (get_sign a); [|exact R].
    apply flt_irrefl_le. apply not_flt_fle; assumption.
Qed.

(** ** The price controller *)


(** ** The manual price *)

Section Manual.
Variables Math_exp Math_log : float -> float.

Lemma simTick_thrown_price inp s s' :
  simTick Math_exp Math_log inp s = Thrown s' ->
  s_price s' =
    match priceMode inp with
    | auto => s_price s
    | manual => Math_max DEFAULT.pMin (manualPrice inp)
    end.
Proof.
  unfold simTick. intros H.
  destruct (tickOrders Math_exp Math_log inp s) as [[s1 Q] thrown] eqn:E.
  destruct (tickOrders_price_t _ _ _ _ _ _ _ E) as [Hp Ht].
  destruct thrown.
  - inversion H; subst. exact Hp.
  - destruct (serveAll (s_t s1) (s_PBC s1) 0%float). discriminate.
Qed.

Lemma runPoints_manual v inps : forall s,
  Forall (fun inp => priceMode inp = manual /\ manualPrice inp = v) inps ->
  Forall (fun pt => p_price pt = toFixed 4 (Math_max DEFAULT.pMin v))
         (runPoints Math_exp Math_log inps s).
Proof.
  induction inps as [|inp rest IH]; intros s HF; simpl; [constructor|].
  inversion HF as [|? ? [Hm Hv] HF']; subst.
  destruct (simTick Math_exp Math_log inp s) as [s' Qagg Qserved pt|s'] eqn:E; auto.
  constructor; auto.
  destruct (simTick_price _ _ _ _ _ _ _ _ E) as [Hp [_ Hpt]].
  rewrite Hm in Hp. subst pt. simpl. now rewrite Hp.
Qed.

Lemma runSim_manual v inps : forall s,
  inps <> [] ->
  Forall (fun inp => priceMode inp = manual /\ manualPrice inp = v) inps ->
  s_price (runSim Math_exp Math_log inps s) = Math_max DEFAULT.pMin v.
Proof.
  induction inps as [|inp rest IH]; intros s Hne HF; [congruence|].
  inversion HF as [|? ? [Hm Hv] HF']; subst. simpl.
  destruct rest as [|inp' rest'].
  - simpl. destruct (simTick Math_exp Math_log inp s) as [s' Qagg Qserved pt|s'] eqn:E.
    + destruct (simTick_price _ _ _ _ _ _ _ _ E) as [Hp _]. now rewrite Hm in Hp.
    + pose proof (simTick_thrown_price _ _ _ E) as Hp. now rewrite Hm in Hp.
  - destruct (simTick Math_exp Math_log inp s); apply IH; auto; discriminate.
Qed.

End Manual.

(** C4 (amended).  While the price mode is manual with manual price [v],
    the auto adjustment is not applied: after each tick the price of the
    state is exactly [max(pMin, v)], and every recorded point carries that
    price rounded to four decimals, whatever the demand and served
    quantities are.  For [v = 2.5] the rounding changes nothing. *)
Theorem manual_price_pin Math_exp Math_log (v : float) (inps : list Inputs) (s : Sim) :
  inps <> [] ->
  Forall (fun inp => priceMode inp = manual /\ manualPrice inp = v) inps ->
  s_price (runSim Math_exp Math_log inps s) = Math_max DEFAULT.pMin v /\
  Forall (fun pt => p_price pt = toFixed 4 (Math_max DEFAULT.pMin v))
         (runPoints Math_exp Math_log inps s) /\
  toFixed 4 (Math_max DEFAULT.pMin 2.5) = Math_max DEFAULT.pMin 2.5.
Proof.
  intros Hne HF. split; [|split].
  - now apply runSim_manual.
  - now apply runPoints_manual.
  - vm_compute. reflexivity.
Qed.

Lemma manual_price_pin_witness :
  repeat (manual_inputs 2.5) 3 <> [] /\
  Forall (fun inp => priceMode inp = manual /\ manualPrice inp = 2.5%float)
         (repeat (manual_inputs 2.5) 3) /\
  s_price (runSim (fun x => x) (fun x => x) (repeat (manual_inputs 2.5) 3) quiet_sim)
  = 2.5%float /\
  map p_price (runPoints (fun x => x) (fun x => x) (repeat (manual_inputs 2.5) 3) quiet_sim)
  = [2.5; 2.5; 2.5]%float.
Proof.
  assert (Hne : repeat (manual_inputs 2.5) 3 <> []) by discriminate.
  assert (HF : Forall (fun inp => priceMode inp = manual /\ manualPrice inp = 2.5%float)
                      (repeat (manual_inputs 2.5) 3))
    by (repeat constructor).
  split; [exact Hne|]. split; [exact HF|].
  destruct (manual_price_pin (fun x => x) (fun x => x) 2.5 _ quiet_sim Hne HF) as [Hs _].
  split; [exact Hs|]. vm_compute. reflexivity.
Defined.

(** C4 (as stated) fails: with the manual price [1.23456] the price of
    the state is [1.23456], but the recorded price is [1.2346]. *)
Lemma manual_price_recorded_counterexample :
  exists s' Qagg Qserved pt,
    simTick (fun x => x) (fun x => x) (manual_inputs 1.23456) quiet_sim
    = Completed s' Qagg Qserved pt /\
    Math_max DEFAULT.pMin 1.23456 = 1.23456%float /\
    s_price s' = 1.23456%float /\
    p_price pt = 1.2346%float /\
    (p_price pt =? Math_max DEFAULT.pMin 1.23456)%float = false.
Proof.
  destruct (simTick (fun x => x) (fun x => x) (manual_inputs 1.23456) quiet_sim)
    as [s' Qagg Qserved pt|] eqn:E; [|vm_compute in E; discriminate E].
  exists s', Qagg, Qserved, pt. split; [reflexivity|].
  vm_compute in E. inversion E; subst. repeat split; vm_compute; reflexivity.
Qed.

(** ** The survey regression *)

Lemma SFadd_infnan acc t :
  SFinfnan acc = true -> SFnotneg t = true -> SFinfnan (SF64add acc t) = true.
Proof.
  destruct acc as [s|s| |s m e], t as [s'|s'| |s' m' e']; simpl;
    try destruct s; try destruct s'; simpl; congruence.
Qed.

Lemma SFsq_notneg x : SFnotneg (SF64mul x x) = true.
Proof.
  destruct x as [s|s| |s m e]; simpl; try destruct s; simpl; try reflexivity.
  all: apply SFsign_is_notneg, binary_round_aux_sign; lia.
Qed.

Lemma SFsq_sub_infnan x m :
  SFfinite m = false -> SFinfnan (SF64mul (SF64sub x m) (SF64sub x m)) = true.
Proof.
  destruct x as [s|s| |s mx e], m as [s'|s'| |s' m' e']; simpl;
    try destruct s; try destruct s'; simpl; congruence.
Qed.

Lemma sq_notneg x : notneg (sq x).
Proof. unfold sq. rewrite notneg_SF, mul_spec. apply SFsq_notneg. Qed.

Lemma ols_sums_den_infnan mX mY x : forall y num den,
  SFinfnan (Prim2SF den) = true ->
  SFinfnan (Prim2SF (snd (ols_sums mX mY x y num den))) = true.
Proof.
  induction x as [|xi x IH]; intros y num den H; simpl; auto.
  apply IH. rewrite add_spec. apply SFadd_infnan; auto.
  apply notneg_SF, sq_notneg.
Qed.

Lemma ols_den_zero_meanX_finite x y :
  x <> [] -> (ols_den x y =? 0)%float = true -> SFfinite (Prim2SF (ols_meanX x)) = true.
Proof.
  intros Hx Hd.
  destruct (SFfinite (Prim2SF (ols_meanX x))) eqn:F; auto.
  exfalso. unfold ols_den in Hd.
  destruct x as [|xi x]; [congruence|]. simpl ols_sums in Hd.
  assert (H : SFinfnan (Prim2SF (snd (ols_sums (ols_meanX (xi :: x)) (ols_meanY (xi :: x) y) x
                (tl y) (0 + (xi - ols_meanX (xi :: x)) * (hd nan y - ols_meanY (xi :: x) y))%float
                (0 + sq (xi - ols_meanX (xi :: x)))%float))) = true).
  { apply ols_sums_den_infnan. rewrite add_spec. unfold sq. rewrite mul_spec, sub_spec.
    pose proof (SFsq_sub_infnan (Prim2SF xi) _ F) as H.
    destruct (SF64mul _ _) as [s|s| |s m e]; simpl in H; try destruct s; try discriminate;
      reflexivity. }
  rewrite FloatAxioms.eqb_spec in Hd. unfold SFeqb in Hd.
  destruct (Prim2SF (snd _)) as [s|s| |s m e]; simpl in H; try destruct s; discriminate.
Qed.

Lemma SFmul_zero_finite m :
  SFfinite m = true -> exists s, SF64mul (S754_zero false) m = S754_zero s.
Proof. destruct m; simpl; try discriminate; eauto. Qed.

Lemma SFsub_zero_r x s : x <> S754_nan -> SFeqb (SF64sub x (S754_zero s)) x = true.
Proof.
  intros H. unfold SFeqb.
  destruct x as [sx|sx| |sx mx ex]; try congruence; simpl SF64sub.
  - destruct sx, s; reflexivity.
  - rewrite SFcompare_refl; congruence.
  - rewrite SFcompare_refl; congruence.
Qed.

Lemma sub_self c : isFinite c = true -> (c - c)%float = 0%float.
Proof.
  intros H. apply Prim2SF_inj. rewrite sub_spec.
  unfold isFinite, is_nan, is_infinity in H.
  rewrite !FloatAxioms.eqb_spec, abs_spec in H.
  destruct (Prim2SF c) as [s|s| |s m e].
  - destruct s; reflexivity.
  - destruct s; vm_compute in H; discriminate H.
  - vm_compute in H. discriminate H.
  - unfold SF64sub, SFsub. destruct s; cbn [cond_Zopp negb];
      rewrite ?Z.sub_diag, ?Z.add_opp_diag_r, ?Z.add_opp_diag_l; reflexivity.
Qed.

Lemma ols_sums_equal mX mY x : forall y num,
  isFinite mX = true -> (forall p, In p x -> p = mX) ->
  snd (ols_sums mX mY x y num 0) = 0%float.
Proof.
  induction x as [|xi x IH]; intros y num Hf Hx; cbn [ols_sums snd]; [reflexivity|].
  rewrite (Hx xi (or_introl eq_refl)), (sub_self mX Hf).
  change (0 + sq 0)%float with 0%float.
  apply IH; [exact Hf|]. intros p Hp. apply Hx. now right.
Qed.

(** C10 (amended).  [olsLinear] returns [a = 0, b = 0] on an empty
    sample; on a non-empty sample whose denominator [sum (x - mean x)^2]
    evaluates to zero it does not divide: the slope is [0] and the intercept
    equals the mean of the quantities (as numbers, when that mean is one).
    The denominator is zero when every price equals the computed mean of
    the prices and that mean is finite. *)
Theorem olsLinear_zero_denominator (x y : list float) :
  x <> [] ->
  olsLinear [] y = mkOls 0 0 /\
  ((ols_den x y =? 0)%float = true ->
   ols_b (olsLinear x y) = 0%float /\
   (is_num (ols_meanY x y) -> feq (ols_a (olsLinear x y)) (ols_meanY x y))) /\
  (isFinite (ols_meanX x) = true -> (forall p, In p x -> p = ols_meanX x) ->
   (ols_den x y =? 0)%float = true).
Proof.
  intros Hx. split; [reflexivity|]. split.
  - intros Hd.
    pose proof (ols_den_zero_meanX_finite x y Hx Hd) as HF.
    unfold olsLinear. destruct x as [|xi x]; [congruence|].
    fold (ols_meanX (xi :: x)). fold (ols_meanY (xi :: x) y).
    unfold ols_den in Hd.
    destruct (ols_sums (ols_meanX (xi :: x)) (ols_meanY (xi :: x) y) (xi :: x) y 0 0)
      as [num den] eqn:E.
    simpl snd in Hd. rewrite Hd. simpl. split; [reflexivity|].
    intros Hn. unfold feq. rewrite FloatAxioms.eqb_spec, sub_spec, mul_spec.
    destruct (SFmul_zero_finite _ HF) as [s Hs]. change (Prim2SF 0) with (S754_zero false).
    rewrite Hs. apply SFsub_zero_r. now apply is_num_SF.
  - intros Hf Heq. unfold ols_den.
    rewrite (ols_sums_equal (ols_meanX x) (ols_meanY x y) x y 0 Hf Heq). reflexivity.
Qed.

Lemma olsLinear_zero_denominator_witness :
  (ols_den [2.5; 2.5; 2.5]%float [1; 2; 4]%float =? 0)%float = true /\
  ols_b (olsLinear [2.5; 2.5; 2.5]%float [1; 2; 4]%float) = 0%float /\
  feq (ols_a (olsLinear [2.5; 2.5; 2.5]%float [1; 2; 4]%float))
      (ols_meanY [2.5; 2.5; 2.5]%float [1; 2; 4]%float).
Proof.
  assert (Hx : [2.5; 2.5; 2.5]%float <> []) by discriminate.
  destruct (olsLinear_zero_denominator [2.5; 2.5; 2.5]%float [1; 2; 4]%float Hx)
    as (_ & Hzero & Hden).
  assert (Hd : (ols_den [2.5; 2.5; 2.5]%float [1; 2; 4]%float =? 0)%float = true).
  { apply Hden; [reflexivity|].
    intros p [H|[H|[H|[]]]]; subst p; vm_compute; reflexivity. }
  destruct (Hzero Hd) as [Hb Ha].
  split; [exact Hd|]. split; [exact Hb|]. apply Ha. vm_compute. reflexivity.
Defined.

(** C10 (as stated) fails: three equal prices [0.1] do not make the
    denominator zero, because the computed mean is [0.10000000000000002];
    the fit then has slope [10.666...] and an intercept away from the mean
    [2.333...] of the quantities. *)
Lemma olsLinear_equal_prices_counterexample :
  (forall p, In p [0.1; 0.1; 0.1]%float -> p = 0.1%float) /\
  (ols_den [0.1; 0.1; 0.1]%float [1; 2; 4]%float =? 0)%float = false /\
  olsLinear [0.1; 0.1; 0.1]%float [1; 2; 4]%float
  = mkOls 1.2666666666666666 10.666666666666666 /\
  ols_meanY [0.1; 0.1; 0.1]%float [1; 2; 4]%float = 2.3333333333333335%float.
Proof.
  split; [|split; [|split]].
  - intros p [H|[H|[H|[]]]]; now subst.
  - vm_compute. reflexivity.
  - vm_compute. reflexivity.
  - vm_compute. reflexivity.
Qed.

(** ** Scenario A: the calibration of the initial price *)

Section Calibration.
Variables Math_exp Math_log : float -> float.

Lemma calibrate_steps iters : forall cs pbc p0 rng,
  exists l rng0,
    (List.length l <= iters)%nat /\
    Forall (fun f => f = 1.05%float \/ f = 0.95%float) l /\
    fst (fst (calibrate Math_exp Math_log iters cs pbc p0 rng)) = apply_steps p0 l /\
    (snd (calibrate Math_exp Math_log iters cs pbc p0 rng) = false -> List.length l = iters) /\
    (snd (calibrate Math_exp Math_log iters cs pbc p0 rng) = true ->
     let Qagg := fst (aggregateDemand Math_exp Math_log cs (apply_steps p0 l) 0 rng0) in
     (Math_abs (Qagg - oferta pbc) <? 1e-2 * Math_max 1 (oferta pbc))%float = true).
Proof.
  induction iters as [|n IH]; intros cs pbc p0 rng.
  - exists [], rng. simpl. repeat split; auto. discriminate.
  - simpl calibrate.
    destruct (aggregateDemand Math_exp Math_log cs p0 0 rng) as [Qagg rng1] eqn:EQ.
    fold (oferta pbc).
    destruct (Math_abs (Qagg - oferta pbc) <? 1e-2 * Math_max 1 (oferta pbc))%float eqn:Tol.
    + exists [], rng. simpl. rewrite EQ. simpl. repeat split; auto; try lia; discriminate.
    + destruct (gtb Qagg (oferta pbc)).
      * destruct (IH cs pbc (p0 * 1.05)%float rng1) as (l & rng0 & Hl & Hf & Hp & Hn & Hb).
        exists (1.05%float :: l), rng0. simpl. repeat split; auto; try lia;
          try (intros H; specialize (Hn H); lia).
      * destruct (IH cs pbc (p0 * 0.95)%float rng1) as (l & rng0 & Hl & Hf & Hp & Hn & Hb).
        exists (0.95%float :: l), rng0. simpl. repeat split; auto; try lia;
          try (intros H; specialize (Hn H); lia).
Qed.

End Calibration.

(** C9 (amended).  The calibration loop of [initSimulation] always
    returns, after at most 40 rounds that each multiply the price by 1.05 or
    by 0.95; it leaves the loop early only on a round whose sampled aggregate
    demand is within 1% of the supply.  In Scenario A every round raises the
    price: the loop uses its 40 rounds and ends at [1.05^40 = 7.0399887...],
    where the sampled and the noise-free demand still exceed the capacity
    1000 by far. *)
Theorem calibration_bounded_steps :
  (forall Math_exp Math_log cs pbc p0 rng,
     exists l rng0,
       (List.length l <= 40)%nat /\
       Forall (fun f => f = 1.05%float \/ f = 0.95%float) l /\
       fst (fst (calibrate Math_exp Math_log 40 cs pbc p0 rng)) = apply_steps p0 l /\
       (snd (calibrate Math_exp Math_log 40 cs pbc p0 rng) = false -> List.length l = 40%nat) /\
       (snd (calibrate Math_exp Math_log 40 cs pbc p0 rng) = true ->
        let Qagg := fst (aggregateDemand Math_exp Math_log cs (apply_steps p0 l) 0 rng0) in
        (Math_abs (Qagg - oferta pbc) <? 1e-2 * Math_max 1 (oferta pbc))%float = true)) /\
  (forall Math_exp Math_log,
     calibrate Math_exp Math_log 40 scenarioA_consumers scenarioA_PBC DEFAULT.p0 DEFAULT.seed
     = (7.0399887121246598%float, 25641921394345%float, false) /\
     apply_steps DEFAULT.p0 (repeat 1.05%float 40) = 7.0399887121246598%float /\
     oracleDemandAt Math_exp Math_log (scenarioA_sim 7.0399887121246598) 7.0399887121246598
     = 27216.023704538278%float).
Proof.
  split.
  - intros. apply calibrate_steps.
  - intros. split; [|split]; vm_compute; reflexivity.
Qed.

(** C9 (as stated) fails: in Scenario A the calibrated price is
    [7.0399887...]; the aggregate demand there is [27216.02...], at a
    distance of more than 26000 from the capacity 1000, not below 1% of
    it. *)
Lemma scenarioA_calibration_counterexample :
  (forall Math_exp Math_log,
     fst (fst (calibrate Math_exp Math_log 40 scenarioA_consumers scenarioA_PBC
                         DEFAULT.p0 DEFAULT.seed)) = 7.0399887121246598%float) /\
  (forall Math_exp Math_log,
     (Math_abs (oracleDemandAt Math_exp Math_log (scenarioA_sim 7.0399887121246598)
                               7.0399887121246598 - 1000)
      <? 0.01 * 1000)%float = false) /\
  (forall Math_exp Math_log,
     (Math_abs (fst (aggregateDemand Math_exp Math_log scenarioA_consumers 7.0399887121246598
                                     0 25641921394345) - 1000)
      <? 0.01 * 1000)%float = false).
Proof.
  split; [|split]; intros; vm_compute; reflexivity.
Qed.

(** ** Adding a non-negative number does not decrease a number *)

Lemma shr_1_div2 mrs : 0 <= shr_m mrs -> shr_m (shr_1 mrs) = shr_m mrs / 2.
Proof.
  destruct mrs as [m r s]; destruct m as [|p|p]; try destruct p; simpl; intros H;
    try lia; try reflexivity.
  - rewrite Pos2Z.inj_xI. apply Z.div_unique with 1; lia.
  - rewrite Pos2Z.inj_xO. apply Z.div_unique with 0; lia.
Qed.

Lemma iter_pos_nat {A} (f : A -> A) p : forall x,
  iter_pos f p x = Nat.iter (Pos.to_nat p) f x.
Proof.
  assert (Hswap : forall n x, Nat.iter n f (f x) = f (Nat.iter n f x)).
  { induction n; intros; simpl; congruence. }
  induction p as [p IH|p IH|]; intros x; simpl iter_pos.
  - rewrite !IH, Pos2Nat.inj_xI. simpl. rewrite Nat.add_0_r, Nat.iter_add.
    now rewrite !Hswap.
  - rewrite !IH, Pos2Nat.inj_xO. simpl. now rewrite Nat.add_0_r, Nat.iter_add.
  - reflexivity.
Qed.

Lemma nat_iter_shr_1 n : forall mrs,
  0 <= shr_m mrs ->
  0 <= shr_m (Nat.iter n shr_1 mrs) /\
  shr_m (Nat.iter n shr_1 mrs) = shr_m mrs / 2 ^ Z.of_nat n.
Proof.
  induction n as [|n IH]; intros mrs H.
  - simpl. split; [lia|]. now rewrite Z.div_1_r.
  - destruct (IH mrs H) as [Hn He]. simpl Nat.iter. split.
    + now apply shr_1_nonneg.
    + rewrite shr_1_div2, He by assumption.
      rewrite Z.div_div by lia. f_equal.
      rewrite Nat2Z.inj_succ, Z.pow_succ_r by lia. lia.
Qed.

Lemma shr_div mrs e (k : Z) :
  0 <= shr_m mrs -> 0 <= k ->
  shr_m (fst (shr mrs e k)) = shr_m mrs / 2 ^ k /\ snd (shr mrs e k) = e + k.
Proof.
  intros H Hk. unfold shr. destruct k as [|p|p]; try lia; simpl fst; simpl snd.
  - split; [now rewrite Z.div_1_r | lia].
  - split; [|reflexivity].
    rewrite iter_pos_nat. destruct (nat_iter_shr_1 (Pos.to_nat p) mrs H) as [_ ->].
    now rewrite positive_nat_Z.
Qed.

Lemma shr_neg mrs e (k : Z) : k <= 0 -> shr mrs e k = (mrs, e).
Proof. intros Hk. unfold shr. destruct k; try reflexivity. lia. Qed.

Lemma digits2_pos_mono a b : (a <= b)%positive -> (digits2_pos a <= digits2_pos b)%positive.
Proof.
  intros H. pose proof (digits2_pos_bounds a) as [Ha _].
  pose proof (digits2_pos_bounds b) as [_ Hb].
  assert (2 ^ (Z.pos (digits2_pos a) - 1) < 2 ^ Z.pos (digits2_pos b)) by lia.
  apply Z.pow_lt_mono_r_iff in H0; lia.
Qed.

Lemma digits2_pos_iter_xO m d :
  Z.pos (digits2_pos (Pos.iter xO m d)) = Z.pos (digits2_pos m) + Z.pos d.
Proof.
  induction d using Pos.peano_ind.
  - simpl. lia.
  - rewrite Pos.iter_succ. simpl digits2_pos. rewrite Pos2Z.inj_succ, IHd. lia.
Qed.

Lemma shl_align_value mx ex ez :
  ez <= ex ->
  Z.pos (fst (shl_align mx ex ez)) = Z.pos mx * 2 ^ (ex - ez) /\
  Z.pos (digits2_pos (fst (shl_align mx ex ez))) = Z.pos (digits2_pos mx) + (ex - ez).
Proof.
  intros H. unfold shl_align. destruct (ez - ex) as [|d|d] eqn:E; try lia; simpl fst.
  - replace (ex - ez) with 0 by lia. simpl. lia.
  - rewrite iter_xO_pow, digits2_pos_iter_xO. replace (ex - ez) with (Z.pos d) by lia. lia.
Qed.

Lemma fexp_eq x : fexp prec emax x = Z.max (x - 53) (-1074).
Proof. reflexivity. Qed.

Lemma round_nearest_even_ge m l : m <= round_nearest_even m l.
Proof. destruct l as [|[]]; simpl; try destruct (Z.even m); lia. Qed.

Lemma div_pow2_pos (m k d : Z) :
  0 <= k -> k <= d - 1 -> 2 ^ (d - 1) <= m -> 1 <= m / 2 ^ k.
Proof.
  intros Hk Hd Hm. apply Z.div_le_lower_bound; [apply Z.pow_pos_nonneg; lia|].
  assert (2 ^ k <= 2 ^ (d - 1)) by (apply Z.pow_le_mono_r; lia). lia.
Qed.

(** Rounding a positive integer [S * 2^ez] that is at least the canonical
    number [ma * 2^ea] gives a number that is at least [ma * 2^ea]. *)
Lemma binary_round_ge ma ea S ez :
  fexp prec emax (Z.pos (digits2_pos ma) + ea) = ea ->
  -1074 <= ez -> ez <= ea ->
  Z.pos ma * 2 ^ (ea - ez) <= Z.pos S ->
  SFleb (S754_finite false ma ea) (binary_round prec emax false S ez) = true.
Proof.
  intros Ca Hez Hea HS.
  pose proof (digits2_pos_bounds ma) as [Bma _].
  pose proof (digits2_pos_bounds S) as [BS1 BS2].
  set (d := Z.pos (digits2_pos S)) in *.
  set (da := Z.pos (digits2_pos ma)) in *.
  assert (Hd : da + (ea - ez) <= d).
  { assert (2 ^ (da - 1 + (ea - ez)) < 2 ^ d).
    { rewrite Z.pow_add_r by lia.
      assert (0 < 2 ^ (ea - ez)) by (apply Z.pow_pos_nonneg; lia). nia. }
    apply Z.pow_lt_mono_r_iff in H; lia. }
  rewrite fexp_eq in Ca.
  unfold binary_round. fold d. rewrite fexp_eq.
  set (E1 := Z.max (d + ez - 53) (-1074)).
  assert (HE1 : ea <= E1) by (unfold E1; lia).
  assert (Hal : shl_align S ez E1 = (S, ez)).
  { unfold shl_align. destruct (E1 - ez) eqn:E; try reflexivity. lia. }
  rewrite Hal. unfold binary_round_aux, shr_fexp. cbn [Zdigits2 shr_record_of_loc].
  fold d. rewrite fexp_eq. fold E1.
  pose proof (shr_div {| shr_m := Z.pos S; shr_r := false; shr_s := false |} ez (E1 - ez))
    as Hs1. cbn [shr_m] in Hs1.
  destruct (shr _ ez (E1 - ez)) as [mrs' e'] eqn:Es1. cbn [fst snd] in Hs1.
  destruct Hs1 as [Hm1 He']; try lia.
  assert (Hm1pos : 1 <= shr_m mrs').
  { rewrite Hm1. apply (div_pow2_pos _ _ d); unfold E1; lia. }
  set (m2 := round_nearest_even (shr_m mrs') (loc_of_shr_record mrs')).
  pose proof (round_nearest_even_ge (shr_m mrs') (loc_of_shr_record mrs')) as Hm2.
  fold m2 in Hm2.
  destruct m2 as [|p2|p2] eqn:Em2; try lia.
  cbn [Zdigits2]. rewrite fexp_eq.
  pose proof (digits2_pos_bounds p2) as [Bp2 _].
  set (d2 := Z.pos (digits2_pos p2)) in *.
  set (n2 := Z.max (d2 + e' - 53) (-1074) - e').
  assert (He'E : e' = E1) by lia.
  destruct (Z_le_gt_dec n2 0) as [Hn|Hn].
  - rewrite shr_neg by exact Hn. cbn [shr_m].
    destruct (e' <=? emax - prec); unfold SFleb, SFcompare.
    + destruct (Z.compare_spec ea e'); try reflexivity; try lia.
      change (Pos.compare_cont Eq ma p2) with (Pos.compare ma p2).
      destruct (Pos.compare_spec ma p2); try reflexivity.
      exfalso. assert (Z.pos ma <= shr_m mrs'); [|lia].
      rewrite Hm1. apply Z.div_le_lower_bound; [apply Z.pow_pos_nonneg; lia|].
      replace (E1 - ez) with (ea - ez) by lia. lia.
    + reflexivity.
  - pose proof (shr_div {| shr_m := Z.pos p2; shr_r := false; shr_s := false |} e' n2)
      as Hs2. cbn [shr_m] in Hs2.
    destruct (shr _ e' n2) as [mrs'' e''] eqn:Es2. cbn [fst snd] in Hs2.
    destruct Hs2 as [Hm3 He'']; try lia.
    assert (Hm3pos : 1 <= shr_m mrs'').
    { rewrite Hm3. apply (div_pow2_pos _ _ d2); unfold n2; lia. }
    destruct (shr_m mrs'') as [|p3|p3]; try lia.
    destruct (e'' <=? emax - prec); unfold SFleb, SFcompare.
    + destruct (Z.compare_spec ea e''); try reflexivity; lia.
    + reflexivity.
Qed.

Lemma SFleb_zero_l s x : SFnonneg x = true -> SFleb (S754_zero s) x = true.
Proof. destruct x as [sx|sx| |sx m e]; try destruct sx; simpl; try discriminate; reflexivity. Qed.

Lemma valid_exponent m e : bounded prec emax m e = true ->
  fexp prec emax (Z.pos (digits2_pos m) + e) = e /\ -1074 <= e.
Proof.
  unfold bounded, canonical_mantissa. intros H. apply andb_prop in H. destruct H as [C _].
  apply Z.eqb_eq in C. split; [exact C|]. rewrite fexp_eq in C. lia.
Qed.

Lemma SFadd_le_l a y :
  valid_binary a = true -> valid_binary y = true ->
  SFnonneg a = true -> SFnonneg y = true ->
  SFleb a (SF64add a y) = true.
Proof.
  intros Va Vy Ha Hy.
  destruct a as [sa|sa| |sa ma ea]; try discriminate.
  - apply SFleb_zero_l. apply SFadd_nonneg; assumption.
  - destruct sa; try discriminate.
    destruct y as [sy|sy| |sy my ey]; try destruct sy; try discriminate; reflexivity.
  - destruct sa; try discriminate.
    destruct y as [sy|sy| |sy my ey]; try destruct sy; try discriminate.
    + unfold SF64add, SFadd, SFleb. now rewrite SFcompare_refl.
    + unfold SF64add, SFadd, SFleb. now rewrite SFcompare_refl.
    + reflexivity.
    + simpl in Va, Vy.
      destruct (valid_exponent _ _ Va) as [Ca Ea]. destruct (valid_exponent _ _ Vy) as [Cy Ey].
      unfold SF64add, SFadd. cbn [cond_Zopp]. unfold binary_normalize.
      destruct (shl_align_value ma ea (Z.min ea ey)) as [HA _]; [lia|].
      rewrite <- Pos2Z.inj_add.
      apply binary_round_ge; try assumption; try lia.
Qed.

Lemma add_le_l a y : nonneg a -> nonneg y -> fle a (a + y).
Proof.
  rewrite !nonneg_SF, fle_SF, add_spec. intros Ha Hy.
  apply SFadd_le_l; auto using Prim2SF_valid.
Qed.

(** ** The uniform draw and [randRange] *)

Lemma of_int_nonneg k : nonneg (of_int k).
Proof.
  unfold of_int. rewrite nonneg_SF, of_uint63_spec.
  pose proof (Uint63.to_Z_bounded (Uint63.of_Z k)) as [H _].
  unfold binary_normalize.
  destruct (Uint63Axioms.to_Z _) eqn:E; try reflexivity.
  - apply SFsign_is_nonneg, binary_round_sign.
  - exfalso. lia.
Qed.

Lemma SFdiv_nonneg x my ey :
  SFnonneg x = true -> SFnonneg (SF64div x (S754_finite false my ey)) = true.
Proof.
  destruct x as [sx|sx| |sx mx ex]; try destruct sx; try discriminate; intros _;
    try reflexivity.
  unfold SF64div, SFdiv, SFdiv_core_binary. cbn [xorb].
  set (m' := match _ - _ - _ with Z.pos _ => _ | _ => _ end).
  assert (Hm' : 0 <= m').
  { unfold m'. destruct (_ - _ - _); try lia. apply Z.shiftl_nonneg. lia. }
  pose proof (Z.div_pos m' (Z.pos my) Hm' eq_refl) as Hq.
  unfold Z.div in Hq. destruct (Z.div_eucl m' (Z.pos my)) as [q r].
  apply SFsign_is_nonneg, binary_round_aux_sign. exact Hq.
Qed.

Lemma mulberry32_nonneg g : nonneg (fst (mulberry32 g)).
Proof.
  unfold mulberry32. cbn [fst]. rewrite nonneg_SF, div_spec.
  change (Prim2SF 4294967296) with (S754_finite false 4503599627370496 (-20)).
  apply SFdiv_nonneg. apply nonneg_SF, of_int_nonneg.
Qed.

Lemma SFmul_pos_nonneg mc ec u :
  SFnonneg u = true -> SFnonneg (SF64mul (S754_finite false mc ec) u) = true.
Proof.
  destruct u as [s|s| |s m e]; try destruct s; try discriminate; intros _; try reflexivity.
  apply SFsign_is_nonneg. unfold SF64mul, SFmul. apply binary_round_aux_sign. lia.
Qed.

Lemma mul_pos_nonneg c u : positive_finite c -> nonneg u -> nonneg (c * u).
Proof.
  intros (m & e & Hc). rewrite !nonneg_SF, mul_spec, Hc. apply SFmul_pos_nonneg.
Qed.

Lemma randRange_lower g a b :
  nonneg a -> positive_finite (b - a) -> fle a (fst (randRange g a b)).
Proof.
  intros Ha Hc. unfold randRange.
  pose proof (mulberry32_nonneg g) as Hu.
  destruct (mulberry32 g) as [u g']. cbn [fst] in *.
  apply add_le_l; auto using mul_pos_nonneg.
Qed.

Lemma randRange_nonneg g a b :
  nonneg a -> positive_finite (b - a) -> nonneg (fst (randRange g a b)).
Proof.
  intros Ha Hc. unfold randRange.
  pose proof (mulberry32_nonneg g) as Hu.
  destruct (mulberry32 g) as [u g']. cbn [fst] in *.
  apply add_nonneg; auto using mul_pos_nonneg.
Qed.

Lemma Math_round_nonneg x : notneg x -> 0 <= Math_round x.
Proof.
  rewrite notneg_SF. unfold Math_round.
  destruct (Prim2SF x) as [s|s| |s m e]; try lia.
  destruct s; try discriminate. intros _.
  destruct (0 <=? e).
  - apply Z.shiftl_nonneg. lia.
  - apply Z.shiftr_nonneg.
    assert (0 <= Z.shiftl 1 (- e)) by (apply Z.shiftl_nonneg; lia). lia.
Qed.

(** ** Equality of numbers, minimum and maximum *)

Lemma feq_refl a : is_num a -> feq a a.
Proof. intros H. apply feq_fle. split; now apply fle_refl. Qed.

Lemma feq_sym a b : feq a b -> feq b a.
Proof. rewrite !feq_fle. tauto. Qed.

Lemma feq_trans a b c : feq a b -> feq b c -> feq a c.
Proof. rewrite !feq_fle. intros [H1 H2] [H3 H4]. split; eauto using fle_trans. Qed.

Lemma nonneg_is_num a : nonneg a -> is_num a.
Proof. intros H. apply (fle_is_num _ _ H). Qed.

Lemma or_else_falsy x d : truthy x = false -> or_else x d = d.
Proof. unfold or_else. now intros ->. Qed.

Lemma truthy_or_else x d : truthy x = true -> or_else x d = x.
Proof. unfold or_else. now intros ->. Qed.

Lemma or_else_is_num x d : is_num d -> is_num (or_else x d).
Proof.
  unfold or_else, truthy, is_num. intros Hd.
  destruct (is_nan x) eqn:E; simpl; auto. now destruct (is_zero x).
Qed.

Lemma or_else_zero_nonneg x : notneg x -> nonneg (or_else x 0).
Proof.
  intros H. unfold or_else, truthy. apply notneg_cases in H.
  destruct (is_nan x) eqn:E; simpl.
  - reflexivity.
  - destruct H as [H|H]; [congruence|]. now destruct (is_zero x).
Qed.

Lemma or_else_zero_feq x : is_num x -> feq (or_else x 0) x.
Proof.
  intros H. unfold or_else, truthy. unfold is_num in H. rewrite H. simpl.
  destruct (is_zero x) eqn:Z; simpl.
  - apply feq_sym. exact Z.
  - now apply feq_refl.
Qed.

Lemma flt_truthy x : flt 0 x -> truthy x = true.
Proof.
  intros H. pose proof (flt_fle _ _ H) as Hle. destruct (fle_is_num _ _ Hle) as [_ Hn].
  unfold truthy. unfold is_num in Hn. rewrite Hn. simpl.
  unfold is_zero. change zero with 0%float.
  destruct (x =? 0)%float eqn:E; [exfalso|reflexivity].
  apply feq_fle in E. destruct E as [E _].
  pose proof (flt_irrefl_le _ _ E). unfold flt in H. congruence.
Qed.

Lemma Math_min_cases a b : is_num a -> is_num b -> Math_min a b = a \/ Math_min a b = b.
Proof.
  unfold Math_min, is_num. intros -> ->. simpl.
  destruct (a <? b)%float; auto. destruct (b <? a)%float; auto. destruct (get_sign a); auto.
Qed.

Lemma Math_min_le_l a b : is_num a -> is_num b -> fle (Math_min a b) a.
Proof.
  intros Ha Hb. unfold Math_min. unfold is_num in *. rewrite Ha, Hb. simpl.
  destruct (a <? b)%float eqn:L; [now apply fle_refl|].
  destruct (b <? a)%float eqn:L'; [now apply flt_fle|].
  destruct (get_sign a); [now apply fle_refl|]. now apply not_flt_fle.
Qed.

Lemma Math_min_le_r a b : is_num a -> is_num b -> fle (Math_min a b) b.
Proof.
  intros Ha Hb. unfold Math_min. unfold is_num in *. rewrite Ha, Hb. simpl.
  destruct (a <? b)%float eqn:L; [now apply flt_fle|].
  destruct (b <? a)%float eqn:L'; [now apply fle_refl|].
  destruct (get_sign a); [now apply not_flt_fle|]. now apply fle_refl.
Qed.

Lemma Math_min_is_num a b : is_num a -> is_num b -> is_num (Math_min a b).
Proof. intros Ha Hb. destruct (Math_min_cases a b Ha Hb) as [-> | ->]; assumption. Qed.

Lemma Math_min_glb c a b : is_num a -> is_num b -> fle c a -> fle c b -> fle c (Math_min a b).
Proof. intros Ha Hb H1 H2. destruct (Math_min_cases a b Ha Hb) as [-> | ->]; assumption. Qed.

Lemma Math_max_zero_feq m : nonneg m -> feq (Math_max 0 m) m.
Proof.
  intros H. pose proof (nonneg_is_num _ H) as Hn. unfold Math_max.
  unfold is_num in Hn. rewrite Hn. simpl.
  destruct (0 <? m)%float eqn:L; [now apply feq_refl|].
  rewrite (flt_irrefl_le _ _ H). simpl. apply feq_fle. split; [exact H|].
  apply not_flt_fle; auto. reflexivity.
Qed.

Lemma Math_max_zero_nonneg m : is_num m -> nonneg (Math_max 0 m).
Proof.
  intros Hn. unfold Math_max. unfold is_num in Hn. rewrite Hn. simpl.
  destruct (0 <? m)%float eqn:L; [now apply flt_fle|].
  destruct (m <? 0)%float; reflexivity.
Qed.

Lemma Math_max_zero_notneg m : notneg (Math_max 0 m).
Proof.
  destruct (is_nan m) eqn:E.
  - unfold Math_max. rewrite E. simpl. apply notneg_cases. left. reflexivity.
  - apply nonneg_notneg, Math_max_zero_nonneg. exact E.
Qed.

Lemma SFsub_fin_not_nan x y :
  x <> S754_nan -> SFfin_nonneg y = true -> SF64sub x y <> S754_nan.
Proof.
  intros Hx Hy.
  destruct y as [sy|sy| |sy my ey]; try discriminate.
  - destruct x as [sx|sx| |sx mx ex]; try congruence; cbn;
      try destruct sx; try destruct sy; discriminate.
  - destruct sy; try discriminate.
    destruct x as [sx|sx| |sx mx ex]; try congruence; try (cbn; discriminate).
    unfold SF64sub, SFsub, binary_normalize.
    destruct (_ - _) as [|p|p]; try discriminate; intros H;
      match type of H with
      | binary_round _ _ ?s ?m ?e = _ =>
          pose proof (binary_round_sign s m e) as B; rewrite H in B; exact B
      end.
Qed.

Lemma SFsub_feq x x' y :
  SFeqb x x' = true -> SFfin_nonneg y = true ->
  SFeqb (SF64sub x y) (SF64sub x' y) = true.
Proof.
  intros He Hy. unfold SFeqb in He.
  destruct (SFcompare x x') as [[]|] eqn:C; try discriminate. clear He.
  assert (Hx : x <> S754_nan) by (intros ->; discriminate).
  destruct x as [sx|sx| |sx mx ex].
  - destruct x' as [sx'|sx'| |sx' mx' ex']; try (simpl in C; destruct sx'; discriminate).
    + destruct y as [sy|sy| |sy my ey]; try destruct sy; try discriminate;
        destruct sx, sx'; cbv [SF64sub SFsub negb];
        first [reflexivity
              | unfold SFeqb; rewrite SFcompare_refl by discriminate; reflexivity].
    + discriminate.
  - apply SFcompare_Eq_eq in C; [|discriminate]. subst x'.
    unfold SFeqb. rewrite SFcompare_refl; auto. now apply SFsub_fin_not_nan.
  - congruence.
  - apply SFcompare_Eq_eq in C; [|discriminate]. subst x'.
    unfold SFeqb. rewrite SFcompare_refl; auto. now apply SFsub_fin_not_nan.
Qed.

Lemma fin_nonneg_SF b : nonneg b -> flt b infinity -> SFfin_nonneg (Prim2SF b) = true.
Proof.
  rewrite nonneg_SF. unfold flt. rewrite FloatAxioms.ltb_spec.
  change (Prim2SF infinity) with (S754_infinity false).
  destruct (Prim2SF b) as [s|s| |s m e]; try destruct s; try discriminate; reflexivity.
Qed.

Lemma sub_feq a a' b : feq a a' -> nonneg b -> flt b infinity -> feq (a - b) (a' - b).
Proof.
  unfold feq. rewrite !FloatAxioms.eqb_spec, !sub_spec. intros H Hb Hf.
  apply SFsub_feq; auto using fin_nonneg_SF.
Qed.

(** ** The PBC firms serve *)

Lemma serve_min t f :
  nonneg (f_planned f) -> nonneg (f_inventory f) ->
  flt 0 (f_capacity f) -> flt (f_capacity f) infinity ->
  feq (served t f) (Math_min3 (f_planned f) (f_inventory f) (f_capacity f)) /\
  fle (served t f) (f_capacity f) /\
  fle (served t f) (f_inventory f) /\
  nonneg (served t f) /\
  feq (f_inventory (fst (serve t f))) (f_inventory f - served t f).
Proof.
  intros Hp Hi Hc Hfin. unfold served, serve. cbn [fst snd set_inventory push_history f_inventory].
  set (p := f_planned f) in *. set (i := f_inventory f) in *. set (c := f_capacity f) in *.
  rewrite (truthy_or_else c) by now apply flt_truthy.
  pose proof (nonneg_is_num _ Hp) as Np. pose proof (nonneg_is_num _ Hi) as Ni.
  pose proof (flt_fle _ _ Hc) as Hc0. pose proof (nonneg_is_num _ Hc0) as Nc.
  pose proof (or_else_zero_nonneg p (nonneg_notneg _ Hp)) as Hp'.
  pose proof (or_else_zero_nonneg i (nonneg_notneg _ Hi)) as Hi'.
  pose proof (or_else_zero_feq p Np) as Ep. pose proof (or_else_zero_feq i Ni) as Ei.
  set (p' := or_else p 0) in *. set (i' := or_else i 0) in *.
  pose proof (nonneg_is_num _ Hp') as Np'. pose proof (nonneg_is_num _ Hi') as Ni'.
  unfold Math_min3.
  pose proof (Math_min_is_num p' i' Np' Ni') as N1.
  pose proof (Math_min_is_num p i Np Ni) as N1'.
  set (m := Math_min (Math_min p' i') c).
  assert (Hm : nonneg m).
  { unfold m. destruct (Math_min_cases (Math_min p' i') c N1 Nc) as [-> | ->]; auto.
    destruct (Math_min_cases p' i' Np' Ni') as [-> | ->]; auto. }
  pose proof (Math_max_zero_feq m Hm) as Em.
  set (q := Math_max 0 m) in *.
  apply feq_fle in Em. destruct Em as [Eq1 Eq2].
  apply feq_fle in Ep. destruct Ep as [Ep1 Ep2].
  apply feq_fle in Ei. destruct Ei as [Ei1 Ei2].
  assert (Hmc : fle m c) by (apply Math_min_le_r; auto).
  assert (Hm1 : fle m (Math_min p' i')) by (apply Math_min_le_l; auto).
  assert (Hmp : fle m p) by (eapply fle_trans; [exact Hm1|]; eapply fle_trans;
                             [apply Math_min_le_l; auto|exact Ep1]).
  assert (Hmi : fle m i) by (eapply fle_trans; [exact Hm1|]; eapply fle_trans;
                             [apply Math_min_le_r; auto|exact Ei1]).
  assert (Hqc : fle q c) by exact (fle_trans _ _ _ Eq1 Hmc).
  assert (Hqi : fle q i) by exact (fle_trans _ _ _ Eq1 Hmi).
  assert (Hqp : fle q p) by exact (fle_trans _ _ _ Eq1 Hmp).
  assert (Hq0 : nonneg q) by exact (fle_trans _ _ _ Hm Eq2).
  split; [|split; [|split; [|split]]]; auto.
  - apply feq_fle. split.
    + apply Math_min_glb; auto. apply Math_min_glb; auto.
    + eapply fle_trans; [|exact Eq2].
      assert (L1 : fle (Math_min (Math_min p i) c) c) by (apply Math_min_le_r; auto).
      assert (L0 : fle (Math_min (Math_min p i) c) (Math_min p i))
        by (apply Math_min_le_l; auto).
      assert (L2 : fle (Math_min (Math_min p i) c) p)
        by (eapply fle_trans; [exact L0|apply Math_min_le_l; auto]).
      assert (L3 : fle (Math_min (Math_min p i) c) i)
        by (eapply fle_trans; [exact L0|apply Math_min_le_r; auto]).
      unfold m. destruct (Math_min_cases (Math_min p' i') c N1 Nc) as [-> | ->]; auto.
      destruct (Math_min_cases p' i' Np' Ni') as [-> | ->]; eauto using fle_trans.
  - apply sub_feq; auto.
    + apply feq_fle. split; assumption.
    + unfold flt in *. 
      assert (Hci : fle c infinity) by now apply flt_fle.
      destruct (q <? infinity)%float eqn:E; auto.
      exfalso. assert (fle infinity q).
      { apply not_flt_fle; [apply (nonneg_is_num _ Hq0) | reflexivity | exact E]. }
      pose proof (fle_trans _ _ _ H Hqc) as Hic.
      pose proof (flt_irrefl_le _ _ Hic) as Hx. rewrite Hfin in Hx. discriminate Hx.
Qed.

Lemma update_firm_map {B} (h : Firm -> B) id g l :
  (forall f, h (g f) = h f) -> map h (update_firm id g l) = map h l.
Proof.
  intros Hg. induction l as [|x r IH]; simpl; auto.
  destruct (String.eqb (f_id x) id); simpl; now rewrite ?Hg, ?IH.
Qed.

Lemma serveAll_spec t fs : forall Q,
  fst (serveAll t fs Q) = map (fun f => fst (serve t f)) fs /\
  snd (serveAll t fs Q) = fold_left (fun q f => (q + served t f)%float) fs Q.
Proof.
  induction fs as [|f rest IH]; intros Q; [split; reflexivity|].
  cbn [serveAll map fold_left]. unfold served at 2.
  destruct (serve t f) as [f' produced]. cbn [fst snd].
  destruct (IH (Q + produced)%float) as [H1 H2].
  destruct (serveAll t rest (Q + produced)%float) as [rest' Q']. cbn [fst snd] in *.
  now rewrite H1, H2.
Qed.

Section AfterServing.
Variables Math_exp Math_log : float -> float.

Lemma adoptInnovation_stock k s lvl :
  map stock (firms (adoptInnovation k s) lvl) = map stock (firms s lvl).
Proof.
  unfold adoptInnovation.
  destruct (nth_error (s_innovations s) k) as [innov|]; auto.
  destruct (find_firm (i_firm innov) (firms s (i_level innov))); auto.
  destruct (i_level innov), lvl; simpl; auto; apply update_firm_map; reflexivity.
Qed.

Lemma adoptInnovations_stock s lvl :
  map stock (firms (adoptInnovations s) lvl) = map stock (firms s lvl).
Proof.
  unfold adoptInnovations.
  apply (fold_left_inv (fun x => map stock (firms x lvl) = map stock (firms s lvl))); auto.
  intros a k H. now rewrite adoptInnovation_stock.
Qed.

Lemma scheduleInnovation_firms s lvl :
  firms (scheduleInnovation s) lvl = firms s lvl.
Proof.
  unfold scheduleInnovation. repeat break_match; destruct lvl; simpl; auto.
Qed.

Lemma trimLogs_firms s lvl : firms (trimLogs s) lvl = firms s lvl.
Proof. unfold trimLogs. break_match; destruct lvl; reflexivity. Qed.

(** A completed tick factors through [tickOrders]; the PBC firms of the
    new state hold what [serve] left them. *)
Lemma simTick_serve inp s s' Qagg Qserved pt :
  simTick Math_exp Math_log inp s = Completed s' Qagg Qserved pt ->
  exists s1,
    tickOrders Math_exp Math_log inp s = (s1, Qagg, false) /\
    s_t s1 = (s_t s + 1)%Z /\
    map stock (s_PBC s') = map stock (map (fun f => fst (serve (s_t s1) f)) (s_PBC s1)) /\
    map stock (s_PFP s') = map stock (s_PFP s1) /\
    map stock (s_PMP s') = map stock (s_PMP s1) /\
    Qserved = fold_left (fun q f => (q + served (s_t s1) f)%float) (s_PBC s1) 0%float.
Proof.
  unfold simTick. intros H.
  destruct (tickOrders Math_exp Math_log inp s) as [[s1 Q] thrown] eqn:E.
  destruct (tickOrders_price_t _ _ _ _ _ _ _ E) as [_ Ht].
  destruct thrown; [discriminate|].
  destruct (serveAll_spec (s_t s1) (s_PBC s1) 0%float) as [H1 H2].
  destruct (serveAll (s_t s1) (s_PBC s1) 0%float) as [pbc Qs]. simpl in H1, H2.
  inversion H; subst. clear H.
  exists s1. split; [reflexivity|]. split; [exact Ht|].
  change (s_PBC ?x) with (firms x PBC). change (s_PFP ?x) with (firms x PFP).
  change (s_PMP ?x) with (firms x PMP).
  rewrite !trimLogs_firms, !adoptInnovations_stock, !scheduleInnovation_firms.
  destruct (priceMode inp); simpl; auto.
Qed.

End AfterServing.

Lemma serve_min_eff t f c :
  or_else (f_capacity f) 9999 = c ->
  nonneg (f_planned f) -> nonneg (f_inventory f) ->
  flt 0 c -> flt c infinity ->
  feq (served t f) (Math_min3 (f_planned f) (f_inventory f) c) /\
  fle (served t f) c /\
  fle (served t f) (f_inventory f) /\
  nonneg (served t f) /\
  feq (f_inventory (fst (serve t f))) (f_inventory f - served t f).
Proof.
  intros Heff Hp Hi Hc Hfin. unfold served, serve.
  cbn [fst snd set_inventory push_history f_inventory].
  rewrite Heff.
  set (p := f_planned f) in *. set (i := f_inventory f) in *.
  pose proof (nonneg_is_num _ Hp) as Np. pose proof (nonneg_is_num _ Hi) as Ni.
  pose proof (flt_fle _ _ Hc) as Hc0. pose proof (nonneg_is_num _ Hc0) as Nc.
  pose proof (or_else_zero_nonneg p (nonneg_notneg _ Hp)) as Hp'.
  pose proof (or_else_zero_nonneg i (nonneg_notneg _ Hi)) as Hi'.
  pose proof (or_else_zero_feq p Np) as Ep. pose proof (or_else_zero_feq i Ni) as Ei.
  set (p' := or_else p 0) in *. set (i' := or_else i 0) in *.
  pose proof (nonneg_is_num _ Hp') as Np'. pose proof (nonneg_is_num _ Hi') as Ni'.
  unfold Math_min3.
  pose proof (Math_min_is_num p' i' Np' Ni') as N1.
  pose proof (Math_min_is_num p i Np Ni) as N1'.
  set (m := Math_min (Math_min p' i') c).
  assert (Hm : nonneg m).
  { unfold m. destruct (Math_min_cases (Math_min p' i') c N1 Nc) as [-> | ->]; auto.
    destruct (Math_min_cases p' i' Np' Ni') as [-> | ->]; auto. }
  pose proof (Math_max_zero_feq m Hm) as Em.
  set (q := Math_max 0 m) in *.
  apply feq_fle in Em. destruct Em as [Eq1 Eq2].
  apply feq_fle in Ep. destruct Ep as [Ep1 Ep2].
  apply feq_fle in Ei. destruct Ei as [Ei1 Ei2].
  assert (Hmc : fle m c) by (apply Math_min_le_r; auto).
  assert (Hm1 : fle m (Math_min p' i')) by (apply Math_min_le_l; auto).
  assert (Hmp : fle m p) by (eapply fle_trans; [exact Hm1|]; eapply fle_trans;
                             [apply Math_min_le_l; auto|exact Ep1]).
  assert (Hmi : fle m i) by (eapply fle_trans; [exact Hm1|]; eapply fle_trans;
                             [apply Math_min_le_r; auto|exact Ei1]).
  assert (Hqc : fle q c) by exact (fle_trans _ _ _ Eq1 Hmc).
  assert (Hqi : fle q i) by exact (fle_trans _ _ _ Eq1 Hmi).
  assert (Hq0 : nonneg q) by exact (fle_trans _ _ _ Hm Eq2).
  split; [|split; [|split; [|split]]]; auto.
  - apply feq_fle. split.
    + apply Math_min_glb; auto. apply Math_min_glb; auto.
      eapply fle_trans; [exact Eq1|exact Hmp].
    + eapply fle_trans; [|exact Eq2].
      assert (L1 : fle (Math_min (Math_min p i) c) c) by (apply Math_min_le_r; auto).
      assert (L0 : fle (Math_min (Math_min p i) c) (Math_min p i))
        by (apply Math_min_le_l; auto).
      assert (L2 : fle (Math_min (Math_min p i) c) p)
        by (eapply fle_trans; [exact L0|apply Math_min_le_l; auto]).
      assert (L3 : fle (Math_min (Math_min p i) c) i)
        by (eapply fle_trans; [exact L0|apply Math_min_le_r; auto]).
      unfold m. destruct (Math_min_cases (Math_min p' i') c N1 Nc) as [-> | ->]; auto.
      destruct (Math_min_cases p' i' Np' Ni') as [-> | ->]; eauto using fle_trans.
  - apply sub_feq; auto.
    + apply feq_fle. split; assumption.
    + unfold flt in *.
      destruct (q <? infinity)%float eqn:E; auto.
      exfalso. assert (fle infinity q).
      { apply not_flt_fle; [apply (nonneg_is_num _ Hq0) | reflexivity | exact E]. }
      pose proof (fle_trans _ _ _ H Hqc) as Hic.
      pose proof (flt_irrefl_le _ _ Hic) as Hx. rewrite Hfin in Hx. discriminate Hx.
Qed.

(** The production step of the older variant, for numbers. *)
Lemma pbcProduce_numbers planned inventory capacity :
  nonneg planned -> nonneg inventory -> nonneg capacity ->
  feq (fst (fst (Older.pbcProduce planned inventory capacity)))
      (Math_min planned (inventory + capacity)) /\
  snd (fst (Older.pbcProduce planned inventory capacity))
  = Math_min inventory (fst (fst (Older.pbcProduce planned inventory capacity))) /\
  fle (snd (fst (Older.pbcProduce planned inventory capacity))) inventory /\
  snd (Older.pbcProduce planned inventory capacity)
  = (inventory - snd (fst (Older.pbcProduce planned inventory capacity)))%float.
Proof.
  intros Hp Hi Hc. unfold Older.pbcProduce. cbn [fst snd].
  pose proof (add_nonneg _ _ Hi Hc) as Hs.
  pose proof (nonneg_is_num _ Hp) as Np. pose proof (nonneg_is_num _ Hs) as Ns.
  pose proof (nonneg_is_num _ Hi) as Ni.
  assert (Hm : nonneg (Math_min planned (inventory + capacity)))
    by (destruct (Math_min_cases _ _ Np Ns) as [-> | ->]; assumption).
  split; [now apply Math_max_zero_feq|]. split; [reflexivity|]. split; [|reflexivity].
  apply Math_min_le_l; [exact Ni|].
  apply nonneg_is_num, Math_max_zero_nonneg, nonneg_is_num, Hm.
Qed.

(** The serving step of a completed tick of the current engine. *)
Lemma pbc_serves_min_tick Math_exp Math_log inp s s' Qagg Qserved pt :
  simTick Math_exp Math_log inp s = Completed s' Qagg Qserved pt ->
  exists s1,
    tickOrders Math_exp Math_log inp s = (s1, Qagg, false) /\
    Qserved = fold_left (fun q f => (q + served (s_t s1) f)%float) (s_PBC s1) 0%float /\
    forall j f,
      nth_error (s_PBC s1) j = Some f ->
      exists f',
        nth_error (s_PBC s') j = Some f' /\
        f_history f' = f_history f ++ [(s_t s1, served (s_t s1) f)] /\
        (nonneg (f_planned f) -> nonneg (f_inventory f) ->
         flt 0 (f_capacity f) -> flt (f_capacity f) infinity ->
         feq (served (s_t s1) f)
             (Math_min3 (f_planned f) (f_inventory f) (f_capacity f)) /\
         fle (served (s_t s1) f) (f_capacity f) /\
         fle (served (s_t s1) f) (f_inventory f) /\
         feq (f_inventory f') (f_inventory f - served (s_t s1) f)) /\
        (nonneg (f_planned f) -> nonneg (f_inventory f) ->
         truthy (f_capacity f) = false ->
         feq (served (s_t s1) f) (Math_min3 (f_planned f) (f_inventory f) 9999) /\
         fle (served (s_t s1) f) 9999 /\
         fle (served (s_t s1) f) (f_inventory f) /\
         feq (f_inventory f') (f_inventory f - served (s_t s1) f)).
Proof.
  intros H. destruct (simTick_serve _ _ _ _ _ _ _ _ H) as (s1 & E & Ht & Hs & _ & _ & HQ).
  exists s1. split; [exact E|]. split; [exact HQ|].
  intros j f Hj.
  assert (Hn : nth_error (map stock (s_PBC s')) j
               = Some (stock (fst (serve (s_t s1) f)))).
  { rewrite Hs, !nth_error_map, Hj. reflexivity. }
  rewrite nth_error_map in Hn.
  destruct (nth_error (s_PBC s') j) as [f'|]; [|discriminate].
  exists f'. split; [reflexivity|].
  injection Hn as Hid Hcap Hinv Hpl Hh.
  split; [exact Hh|]. split.
  - intros Hp Hi Hc Hf.
    destruct (serve_min_eff (s_t s1) f (f_capacity f)
                (truthy_or_else _ _ (flt_truthy _ Hc)) Hp Hi Hc Hf)
      as (M1 & M2 & M3 & _ & M5).
    repeat split; auto. rewrite Hinv. exact M5.
  - intros Hp Hi Hc.
    destruct (serve_min_eff (s_t s1) f 9999 (or_else_falsy _ _ Hc) Hp Hi
                eq_refl eq_refl)
      as (M1 & M2 & M3 & _ & M5).
    repeat split; auto. rewrite Hinv. exact M5.
Qed.

(** C2 (amended).  In [part_000], in every completed tick, each PBC firm
    serves, from the state [s1] that order processing leaves, the quantity
    recorded in its history.  For a firm whose planned quantity and
    inventory are non-negative numbers and whose capacity is positive and
    finite, that quantity equals [min(planned, inventory, capacity)], so it
    exceeds neither the capacity nor the inventory before serving, and the
    inventory decreases by exactly the served amount.  A capacity of 0 (or
    NaN) is read as 9999: such a firm serves [min(planned, inventory,
    9999)].  [Qserved] is the sum over the firms.

    In [part_001] a PBC firm with a non-negative plan, inventory and
    capacity produces [min(planned, inventory + capacity)], which may exceed
    both its capacity and its inventory; it takes [min(inventory,
    produced)] from the inventory. *)
Theorem pbc_serves_min Math_exp Math_log inp s s' Qagg Qserved pt :
  (simTick Math_exp Math_log inp s = Completed s' Qagg Qserved pt ->
   exists s1,
     tickOrders Math_exp Math_log inp s = (s1, Qagg, false) /\
     Qserved = fold_left (fun q f => (q + served (s_t s1) f)%float) (s_PBC s1) 0%float /\
     forall j f,
       nth_error (s_PBC s1) j = Some f ->
       exists f',
         nth_error (s_PBC s') j = Some f' /\
         f_history f' = f_history f ++ [(s_t s1, served (s_t s1) f)] /\
         (nonneg (f_planned f) -> nonneg (f_inventory f) ->
          flt 0 (f_capacity f) -> flt (f_capacity f) infinity ->
          feq (served (s_t s1) f)
              (Math_min3 (f_planned f) (f_inventory f) (f_capacity f)) /\
          fle (served (s_t s1) f) (f_capacity f) /\
          fle (served (s_t s1) f) (f_inventory f) /\
          feq (f_inventory f') (f_inventory f - served (s_t s1) f)) /\
         (nonneg (f_planned f) -> nonneg (f_inventory f) ->
          truthy (f_capacity f) = false ->
          feq (served (s_t s1) f) (Math_min3 (f_planned f) (f_inventory f) 9999) /\
          fle (served (s_t s1) f) 9999 /\
          fle (served (s_t s1) f) (f_inventory f) /\
          feq (f_inventory f') (f_inventory f - served (s_t s1) f))) /\
  (forall planned inventory capacity,
     nonneg planned -> nonneg inventory -> nonneg capacity ->
     feq (fst (fst (Older.pbcProduce planned inventory capacity)))
         (Math_min planned (inventory + capacity)) /\
     snd (fst (Older.pbcProduce planned inventory capacity))
     = Math_min inventory (fst (fst (Older.pbcProduce planned inventory capacity))) /\
     fle (snd (fst (Older.pbcProduce planned inventory capacity))) inventory /\
     snd (Older.pbcProduce planned inventory capacity)
     = (inventory - snd (fst (Older.pbcProduce planned inventory capacity)))%float).
Proof.
  split; [apply pbc_serves_min_tick|apply pbcProduce_numbers].
Qed.

Lemma pbc_serves_min_witness :
  (exists s' Qagg Qserved pt,
     simTick (fun x => x) (fun x => x) auto_inputs zero_capacity_sim
     = Completed s' Qagg Qserved pt /\
     exists f', nth_error (s_PBC s') 0 = Some f' /\
                feq (f_inventory f') (30 - 30) /\
                f_history f' = [(1%Z, 30%float)]) /\
  feq (fst (fst (Older.pbcProduce 100 5 20))) (Math_min 100 (5 + 20)).
Proof.
  split.
  - destruct (simTick (fun x => x) (fun x => x) auto_inputs zero_capacity_sim)
      as [s' Qagg Qserved pt|] eqn:E; [|vm_compute in E; discriminate E].
    exists s', Qagg, Qserved, pt. split; [reflexivity|].
    destruct (proj1 (pbc_serves_min (fun x => x) (fun x => x) _ _ _ _ _ _) E)
      as (s1 & E1 & _ & Hf).
    vm_compute in E1. inversion E1; subst s1. clear E1.
    match type of Hf with
    | forall j f, nth_error (s_PBC ?s1) j = Some f -> _ =>
        destruct (nth_error (s_PBC s1) 0) as [f|] eqn:Ef; [|vm_compute in Ef; discriminate Ef];
        destruct (Hf 0%nat f Ef) as (f' & Hn & Hh & _ & Hz)
    end.
    vm_compute in Ef. inversion Ef; subst f. clear Ef.
    destruct Hz as (M1 & _ & _ & M4); try (vm_compute; reflexivity).
    exists f'. split; [exact Hn|]. split.
    + exact M4.
    + exact Hh.
  - apply (proj2 (pbc_serves_min (fun x => x) (fun x => x) auto_inputs
                    zero_capacity_sim zero_capacity_sim 0 0 (mkPoint 0 0 0 0 0)));
      reflexivity.
Defined.

(** C2 fails as stated.  In [part_000] a firm with capacity 0 is read as
    having capacity 9999 ([f.capacity || 9999]): holding 30 units and
    planning more, it serves all 30, which exceeds its capacity and is not
    [min(planned, inventory, capacity) = 0].  In [part_001] a firm that
    plans 100 with an inventory of 5 and a capacity of 20 produces 25, more
    than its capacity and more than its inventory. *)
Lemma served_beyond_capacity_counterexample :
  map (fun f => (f_capacity f, f_inventory f)) (s_PBC zero_capacity_sim) = [(0, 30)%float] /\
  (forall Math_exp Math_log,
     exists s' Qagg pt,
       simTick Math_exp Math_log auto_inputs zero_capacity_sim = Completed s' Qagg 30 pt /\
       map f_history (s_PBC s') = [[(1%Z, 30%float)]] /\
       map (fun f => (f_capacity f, f_inventory f)) (s_PBC s') = [(0, 0)%float] /\
       map (fun f => (30 <=? f_capacity f)%float) (s_PBC s') = [false] /\
       map (fun f => (Math_min3 (f_planned f) 30 (f_capacity f) =? 30)%float) (s_PBC s')
       = [false]) /\
  Older.pbcProduce 100 5 20 = (25, 5, 0)%float /\
  (25 <=? 20)%float = false /\ (25 <=? 5)%float = false /\
  (25 =? Math_min3 100 5 20)%float = false.
Proof.
  split; [reflexivity|]. split.
  - intros Math_exp Math_log.
    destruct (simTick Math_exp Math_log auto_inputs zero_capacity_sim)
      as [s' Qagg Qserved pt|] eqn:E; [|vm_compute in E; discriminate E].
    vm_compute in E. inversion E; subst.
    do 3 eexists. split; [reflexivity|]. repeat split.
  - repeat split; vm_compute; reflexivity.
Qed.

(** ** A planner function that misbehaves *)

Lemma mul_nan_l x : (nan * x)%float = nan.
Proof. apply Prim2SF_inj. rewrite mul_spec. reflexivity. Qed.

Lemma not_nan_lt x : (x <? nan)%float = false.
Proof. rewrite FloatAxioms.ltb_spec. unfold SFltb. now destruct (Prim2SF x). Qed.

Lemma Math_max_zero_neg v : flt v 0 -> Math_max 0 v = 0%float.
Proof.
  intros H. pose proof (flt_fle _ _ H) as Hle. destruct (fle_is_num _ _ Hle) as [Hn _].
  unfold Math_max. unfold is_num in Hn. rewrite Hn. simpl.
  rewrite (flt_irrefl_le _ _ Hle). unfold flt in H. now rewrite H.
Qed.

Lemma truthy_SF x : truthy x = negb (SFfalsy (Prim2SF x)).
Proof.
  unfold truthy, is_nan, is_zero. rewrite !FloatAxioms.eqb_spec.
  change (Prim2SF zero) with (S754_zero false). unfold SFeqb.
  destruct (Prim2SF x) as [s|s| |s m e] eqn:E; try reflexivity;
    try (destruct s; reflexivity);
    rewrite SFcompare_refl by discriminate; destruct s; reflexivity.
Qed.

Lemma mul_zero_falsy x : truthy (0 * x)%float = false.
Proof.
  rewrite truthy_SF, mul_spec. change (Prim2SF 0) with (S754_zero false).
  now destruct (Prim2SF x).
Qed.

Lemma falsy_not_gt p inv : truthy p = false -> notneg inv -> gtb p inv = false.
Proof.
  rewrite truthy_SF, notneg_SF. unfold gtb. rewrite FloatAxioms.ltb_spec. unfold SFltb.
  destruct (Prim2SF p) as [s|s| |s m e]; try discriminate; intros _;
    destruct (Prim2SF inv) as [s'|s'| |s' m' e']; try destruct s'; try discriminate;
    reflexivity.
Qed.

(** The plan made from a value that is NaN or negative is falsy. *)
Lemma bad_value_plan v share :
  is_nan v = true \/ flt v 0 -> truthy (Math_max 0 v * share)%float = false.
Proof.
  intros [H|H].
  - unfold Math_max. rewrite H. simpl. now rewrite mul_nan_l.
  - rewrite Math_max_zero_neg by exact H. apply mul_zero_falsy.
Qed.

Lemma Math_max_zero_nonpos m : fle m 0 -> Math_max 0 m = 0%float.
Proof.
  intros H. destruct (fle_is_num _ _ H) as [Hn _].
  unfold Math_max. unfold is_num in Hn. rewrite Hn. simpl.
  rewrite (flt_irrefl_le _ _ H). now destruct (m <? 0)%float.
Qed.

(** A firm whose plan is falsy serves nothing. *)
Lemma served_falsy_plan t f : truthy (f_planned f) = false -> served t f = 0%float.
Proof.
  intros H. unfold served, serve. cbn [snd]. unfold or_else at 1. rewrite H.
  apply Math_max_zero_nonpos. unfold Math_min3.
  assert (N0 : is_num 0) by reflexivity.
  assert (Ni : is_num (or_else (f_inventory f) 0)) by now apply or_else_is_num.
  assert (Nc : is_num (or_else (f_capacity f) 9999)) by now apply or_else_is_num.
  pose proof (Math_min_is_num _ _ N0 Ni) as N1.
  eapply fle_trans; [apply Math_min_le_l; auto|]. apply Math_min_le_l; auto.
Qed.

Lemma processOrder_firms_map {B} (h : Firm -> B) k s lvl :
  (forall v f, h (set_inventory v f) = h f) ->
  map h (firms (processOrder k s) lvl) = map h (firms s lvl).
Proof.
  intros Hh. unfold processOrder.
  repeat break_match; destruct lvl; simpl; auto;
    repeat (rewrite update_firm_map by (intros; apply Hh)); auto.
Qed.

Lemma processOrders_firms_map {B} (h : Firm -> B) s lvl :
  (forall v f, h (set_inventory v f) = h f) ->
  map h (firms (processOrders s) lvl) = map h (firms s lvl).
Proof.
  intros Hh. unfold processOrders.
  apply (fold_left_inv (fun x => map h (firms x lvl) = map h (firms s lvl))); auto.
  intros a k H. now rewrite processOrder_firms_map.
Qed.

Lemma processOrder_consumers k s : s_consumers (processOrder k s) = s_consumers s.
Proof. unfold processOrder. repeat break_match; simpl; auto. Qed.

Lemma processOrders_consumers s : s_consumers (processOrders s) = s_consumers s.
Proof.
  unfold processOrders.
  apply (fold_left_inv (fun x => s_consumers x = s_consumers s)); auto.
  intros a k H. now rewrite processOrder_consumers.
Qed.

Section Planner.
Variables Math_exp Math_log : float -> float.

(** [tickOrders] in terms of its planning step. *)
Lemma tickOrders_planning inp s s1 Qagg thrown :
  tickOrders Math_exp Math_log inp s = (s1, Qagg, thrown) ->
  exists cs rng0 pbc orders rng,
    updateConsumers Math_exp Math_log inp (s_t s + 1) (s_price s) (planning_price inp s)
                    (s_consumers s) 0%float (s_rng s) = (cs, Qagg, rng0) /\
    planPBC inp (s_t s + 1) (planning_price inp s) Qagg (sumA (s_PBC s)) (s_PFP s)
            (s_PBC s) (s_orders s) rng0 = (pbc, orders, rng, thrown) /\
    map f_planned (s_PBC s1) = map f_planned pbc /\
    s_consumers s1 = cs /\
    (thrown = true ->
     s1 = set_rng rng (set_orders orders (set_firms PBC pbc
            (set_rng rng0 (set_consumers cs
               (set_price (planning_price inp s) (set_t (s_t s + 1) s))))))).
Proof.
  unfold tickOrders, planning_price. intros H.
  destruct (priceMode inp) eqn:Em; cbn [s_t s_price s_consumers s_rng set_t set_price] in H;
  match type of H with
  | context [updateConsumers ?a ?b ?c ?d ?e ?f ?g ?h ?i] =>
      destruct (updateConsumers a b c d e f g h i) as [[cs Q] rng0] eqn:Eu
  end;
  cbn [s_t s_price s_PBC s_PFP s_orders s_rng set_rng set_consumers set_t set_price] in H;
  match type of H with
  | context [planPBC ?a ?b ?c ?d ?e ?f ?g ?h ?i] =>
      destruct (planPBC a b c d e f g h i) as [[[pbc orders] rng] thr] eqn:Ep
  end;
  destruct thr.
  all: try (inversion H; subst; clear H;
            exists cs, rng0, pbc, orders, rng; repeat split; auto;
            destruct s; reflexivity).
  all: repeat match type of H with
       | context [match ?x with _ => _ end] => destruct x eqn:?; cbv beta iota in H
       end; inversion H; subst; clear H;
       exists cs, rng0, pbc, orders, rng; repeat split; auto; try discriminate.
  all: try (rewrite processOrders_consumers; reflexivity).
  all: change (s_PBC ?x) with (firms x PBC);
       rewrite processOrders_firms_map by reflexivity; reflexivity.
Qed.

End Planner.

Section PlannerFaults.
Variables Math_exp Math_log : float -> float.

Lemma planPBC_throws inp t price Qagg sA pfps pbc orders rng fn :
  userDemandFn inp = Some fn -> fn price = None -> pbc <> [] ->
  planPBC inp t price Qagg sA pfps pbc orders rng = (pbc, orders, rng, true).
Proof.
  intros Hfn Hthrow Hne. destruct pbc as [|f rest]; [congruence|].
  simpl. unfold perceivedFn. now rewrite Hfn, Hthrow.
Qed.

Lemma planPBC_bad_value inp t price Qagg sA pfps fn v orders rng :
  userDemandFn inp = Some fn -> fn price = Some v ->
  is_nan v = true \/ flt v 0 ->
  forall pbc,
  exists pbc' orders' rng',
    planPBC inp t price Qagg sA pfps pbc orders rng = (pbc', orders', rng', false) /\
    Forall (fun f => truthy (f_planned f) = false) pbc' /\
    (Forall (fun f => notneg (f_inventory f)) pbc -> orders' = orders /\ rng' = rng).
Proof.
  intros Hfn Hv Hbad pbc. revert orders rng.
  induction pbc as [|f rest IH]; intros orders rng.
  - exists [], orders, rng. simpl. auto.
  - simpl. unfold perceivedFn. rewrite Hfn, Hv.
    set (plan := (Math_max 0 v * (f_A f * or_else (f_capacity f) 1 / sA))%float).
    assert (Hplan : truthy plan = false) by (apply bad_value_plan; exact Hbad).
    cbn [f_inventory set_planned f_id].
    destruct (gtb plan (f_inventory f)) eqn:G.
    + (* only possible when the inventory is negative *)
      match goal with
      | |- context [let '(o, r) := ?x in _] => destruct x as [orders1 rng1] eqn:E1
      end.
      destruct (IH orders1 rng1) as (pbc' & orders' & rng' & Hp & HF & _).
      rewrite Hp. exists (set_planned plan f :: pbc'), orders', rng'.
      split; [reflexivity|]. split; [constructor; auto|].
      intros HW. inversion HW; subst.
      rewrite (falsy_not_gt plan (f_inventory f)) in G by assumption. discriminate.
    + destruct (IH orders rng) as (pbc' & orders' & rng' & Hp & HF & Ho).
      rewrite Hp. exists (set_planned plan f :: pbc'), orders', rng'.
      split; [reflexivity|]. split; [constructor; auto|].
      intros HW. inversion HW; subst. auto.
Qed.

Lemma fold_served_zero t fs :
  Forall (fun f => truthy (f_planned f) = false) fs ->
  fold_left (fun q f => (q + served t f)%float) fs 0%float = 0%float.
Proof.
  induction 1 as [|f rest Hf HF IH]; simpl; auto.
  rewrite served_falsy_plan by exact Hf. exact IH.
Qed.

Lemma simTick_of_tickOrders inp s s1 Qagg :
  tickOrders Math_exp Math_log inp s = (s1, Qagg, false) ->
  exists s' Qserved pt, simTick Math_exp Math_log inp s = Completed s' Qagg Qserved pt.
Proof.
  intros E. unfold simTick. rewrite E.
  destruct (serveAll (s_t s1) (s_PBC s1) 0%float) as [pbc Qs]. eauto.
Qed.

End PlannerFaults.

Lemma mul_inf_pos x : flt 0 x -> (infinity * x)%float = infinity.
Proof.
  intros H. apply Prim2SF_inj. rewrite mul_spec.
  unfold flt in H. rewrite FloatAxioms.ltb_spec in H.
  change (Prim2SF 0) with (S754_zero false) in H.
  destruct (Prim2SF x) as [s|s| |s m e]; try destruct s; cbn in H;
    try discriminate H; reflexivity.
Qed.

Lemma mul_inf_zero x : feq x 0 -> (infinity * x)%float = nan.
Proof.
  intros H. apply Prim2SF_inj. rewrite mul_spec.
  unfold feq in H. rewrite FloatAxioms.eqb_spec in H.
  change (Prim2SF 0) with (S754_zero false) in H.
  destruct (Prim2SF x) as [s|s| |s m e]; try destruct s; cbn in H;
    try discriminate H; reflexivity.
Qed.

Lemma sub_nan_r x : (x - nan)%float = nan.
Proof. apply Prim2SF_inj. rewrite sub_spec. now destruct (Prim2SF x). Qed.

Lemma Math_min_nan_r a : Math_min a nan = nan.
Proof. unfold Math_min. now destruct (is_nan a). Qed.

Lemma Math_max_nan_r a : Math_max a nan = nan.
Proof. unfold Math_max. now destruct (is_nan a). Qed.

(** With a planner function that returns [v], every PBC firm plans
    [max(0, v)] times its share. *)
Lemma planPBC_planned inp t price Qagg sA pfps fn v :
  userDemandFn inp = Some fn -> fn price = Some v ->
  forall pbc orders rng,
    snd (planPBC inp t price Qagg sA pfps pbc orders rng) = false /\
    map f_planned (fst (fst (fst (planPBC inp t price Qagg sA pfps pbc orders rng))))
    = map (fun f => (Math_max 0 v * (f_A f * or_else (f_capacity f) 1 / sA))%float) pbc.
Proof.
  intros Hfn Hv. induction pbc as [|f rest IH]; intros orders rng;
    cbn [planPBC fst snd map]; [auto|].
  unfold perceivedFn. rewrite Hfn, Hv.
  match goal with
  | |- context [let '(o, r) := ?x in _] => destruct x as [orders1 rng1]
  end.
  specialize (IH orders1 rng1).
  destruct (planPBC inp t price Qagg sA pfps rest orders1 rng1) as [[[rest' orders'] rng'] thr].
  cbn [fst snd map] in *. destruct IH as [-> ->]. split; reflexivity.
Qed.

Section PlannerValues.
Variables Math_exp Math_log : float -> float.

Lemma simTick_planned inp s fn v :
  userDemandFn inp = Some fn -> fn (planning_price inp s) = Some v ->
  exists s' Qagg Qserved pt,
    simTick Math_exp Math_log inp s = Completed s' Qagg Qserved pt /\
    map f_planned (s_PBC s')
    = map (fun f => (Math_max 0 v * planShare (s_PBC s) f)%float) (s_PBC s).
Proof.
  intros Hfn Hv.
  destruct (tickOrders Math_exp Math_log inp s) as [[s1 Qagg] thr] eqn:E.
  destruct (tickOrders_planning _ _ _ _ _ _ _ E)
    as (cs & rng0 & pbc & orders & rng & Hu & Hp & Hpl & _ & _).
  destruct (planPBC_planned inp (s_t s + 1) (planning_price inp s) Qagg
              (sumA (s_PBC s)) (s_PFP s) fn v Hfn Hv (s_PBC s) (s_orders s) rng0)
    as [Hthr Hplan].
  rewrite Hp in Hthr, Hplan. cbn [fst snd] in Hthr, Hplan. subst thr.
  destruct (simTick_of_tickOrders _ _ _ _ _ _ E) as (s' & Qserved & pt & Hs).
  destruct (simTick_serve _ _ _ _ _ _ _ _ Hs) as (s1' & E' & _ & Hst & _ & _ & _).
  rewrite E in E'. inversion E'; subst s1'. clear E'.
  exists s', Qagg, Qserved, pt. split; [exact Hs|].
  assert (Hq : map f_planned (s_PBC s') = map f_planned (s_PBC s1)).
  { transitivity (map (fun x : string * float * float * float * list (Z * float) =>
                         snd (fst x)) (map stock (s_PBC s'))).
    - rewrite map_map. reflexivity.
    - rewrite Hst, !map_map. reflexivity. }
  rewrite Hq, Hpl, Hplan. reflexivity.
Qed.

End PlannerValues.

(** The older variant has no guard on the value: a NaN makes the plan,
    the production and the inventory of the firm NaN. *)
Lemma older_nan_plan share inventory capacity :
  Older.pbcProduce (Older.planOf nan share) inventory capacity = (nan, nan, nan).
Proof.
  unfold Older.pbcProduce, Older.planOf. rewrite mul_nan_l.
  change (Math_min nan (inventory + capacity)) with nan.
  change (Math_max 0 nan) with nan.
  rewrite Math_min_nan_r, sub_nan_r. reflexivity.
Qed.

(** The faults of the planner's function in the current engine. *)
Lemma planner_misbehaviour_tick Math_exp Math_log inp s fn :
  userDemandFn inp = Some fn ->
  (forall v, fn (planning_price inp s) = Some v -> is_nan v = true \/ flt v 0 ->
     exists s' Qagg pt,
       simTick Math_exp Math_log inp s = Completed s' Qagg 0 pt /\
       (Forall (fun f => notneg (f_inventory f)) (s_PBC s) ->
        exists cs rng0 pbc,
          planPBC inp (s_t s + 1) (planning_price inp s) Qagg (sumA (s_PBC s)) (s_PFP s)
                  (s_PBC s) (s_orders s) rng0 = (pbc, s_orders s, rng0, false) /\
          updateConsumers Math_exp Math_log inp (s_t s + 1) (s_price s)
                          (planning_price inp s) (s_consumers s) 0%float (s_rng s)
          = (cs, Qagg, rng0))) /\
  (fn (planning_price inp s) = None -> s_PBC s <> [] ->
     exists s1,
       simTick Math_exp Math_log inp s = Thrown s1 /\
       s_t s1 = (s_t s + 1)%Z /\ s_price s1 = planning_price inp s /\
       s_PBC s1 = s_PBC s /\ s_PFP s1 = s_PFP s /\ s_PMP s1 = s_PMP s /\
       s_orders s1 = s_orders s /\ s_innovations s1 = s_innovations s /\
       forall series,
         snd (tickDriver Math_exp Math_log inp (s, series)) = series).
Proof.
  intros Hfn. split.
  - intros v Hv Hbad.
    destruct (tickOrders Math_exp Math_log inp s) as [[s1 Qagg] thr] eqn:E.
    destruct (tickOrders_planning _ _ _ _ _ _ _ E)
      as (cs & rng0 & pbc & orders & rng & Hu & Hp & Hpl & _ & _).
    destruct (planPBC_bad_value inp (s_t s + 1) (planning_price inp s) Qagg
                (sumA (s_PBC s)) (s_PFP s) fn v (s_orders s) rng0 Hfn Hv Hbad (s_PBC s))
      as (pbc' & orders' & rng' & Hp' & HF & Ho).
    rewrite Hp in Hp'. inversion Hp'; subst pbc' orders' rng' thr. clear Hp'.
    destruct (simTick_of_tickOrders _ _ _ _ _ _ E) as (s' & Qserved & pt & Hs).
    destruct (simTick_serve _ _ _ _ _ _ _ _ Hs) as (s1' & E' & _ & _ & _ & _ & HQ).
    rewrite E in E'. inversion E'; subst s1'. clear E'.
    assert (HF1 : Forall (fun f => truthy (f_planned f) = false) (s_PBC s1)).
    { apply Forall_forall. intros f Hin.
      apply (in_map f_planned) in Hin. rewrite Hpl in Hin.
      apply in_map_iff in Hin. destruct Hin as (f0 & Heq & Hin0).
      rewrite <- Heq. rewrite Forall_forall in HF. now apply HF. }
    rewrite fold_served_zero in HQ by exact HF1. subst Qserved.
    exists s', Qagg, pt. split; [exact Hs|].
    intros HW. destruct (Ho HW) as [-> ->]. exists cs, rng0, pbc. split; assumption.
  - intros Hthrow Hne.
    destruct (tickOrders Math_exp Math_log inp s) as [[s1 Qagg] thr] eqn:E.
    destruct (tickOrders_planning _ _ _ _ _ _ _ E)
      as (cs & rng0 & pbc & orders & rng & Hu & Hp & Hpl & _ & Hs1).
    rewrite (planPBC_throws inp _ _ _ _ _ _ _ _ fn Hfn Hthrow Hne) in Hp.
    inversion Hp; subst pbc orders rng thr. clear Hp.
    specialize (Hs1 eq_refl).
    assert (Hs : simTick Math_exp Math_log inp s = Thrown s1)
      by (unfold simTick; now rewrite E).
    assert (Hd : forall series,
               snd (tickDriver Math_exp Math_log inp (s, series)) = series)
      by (intros series; unfold tickDriver; cbn [fst snd]; now rewrite Hs).
    exists s1. split; [exact Hs|]. subst s1.
    repeat split; try exact Hd; destruct s; reflexivity.
Qed.

(** C8 (amended).  In [part_000] the value of the planner's function is
    used as [max(0, value)] times the share of each PBC firm, with no test
    that it is finite.  When the function returns NaN or a negative value at
    the price of the tick, the tick completes and every PBC firm serves
    nothing, so [Qserved = 0]; with non-negative inventories the planning
    places no order.  When it returns [+Infinity] the tick completes and a
    firm plans an infinite quantity if its share is positive, and NaN if its
    share is zero.  When the function throws (and there is a PBC firm to
    plan for), the exception leaves [simTick] during planning: the tick
    counter, the price and the consumers have been updated, the firms and
    the ledger are untouched, and the driver records no point.

    In [part_001] the plan is the value times the share, unguarded: a NaN
    value makes the production and the inventory of the firm NaN. *)
Theorem planner_misbehaviour Math_exp Math_log inp s fn :
  (userDemandFn inp = Some fn ->
   (forall v, fn (planning_price inp s) = Some v -> is_nan v = true \/ flt v 0 ->
      exists s' Qagg pt,
        simTick Math_exp Math_log inp s = Completed s' Qagg 0 pt /\
        (Forall (fun f => notneg (f_inventory f)) (s_PBC s) ->
         exists cs rng0 pbc,
           planPBC inp (s_t s + 1) (planning_price inp s) Qagg (sumA (s_PBC s)) (s_PFP s)
                   (s_PBC s) (s_orders s) rng0 = (pbc, s_orders s, rng0, false) /\
           updateConsumers Math_exp Math_log inp (s_t s + 1) (s_price s)
                           (planning_price inp s) (s_consumers s) 0%float (s_rng s)
           = (cs, Qagg, rng0))) /\
   (forall v, fn (planning_price inp s) = Some v ->
      exists s' Qagg Qserved pt,
        simTick Math_exp Math_log inp s = Completed s' Qagg Qserved pt /\
        map f_planned (s_PBC s')
        = map (fun f => (Math_max 0 v * planShare (s_PBC s) f)%float) (s_PBC s) /\
        (v = infinity ->
         forall j f,
           nth_error (s_PBC s) j = Some f ->
           exists f',
             nth_error (s_PBC s') j = Some f' /\
             (flt 0 (planShare (s_PBC s) f) -> f_planned f' = infinity) /\
             (feq (planShare (s_PBC s) f) 0 -> is_nan (f_planned f') = true))) /\
   (fn (planning_price inp s) = None -> s_PBC s <> [] ->
      exists s1,
        simTick Math_exp Math_log inp s = Thrown s1 /\
        s_t s1 = (s_t s + 1)%Z /\ s_price s1 = planning_price inp s /\
        s_PBC s1 = s_PBC s /\ s_PFP s1 = s_PFP s /\ s_PMP s1 = s_PMP s /\
        s_orders s1 = s_orders s /\ s_innovations s1 = s_innovations s /\
        forall series,
          snd (tickDriver Math_exp Math_log inp (s, series)) = series)) /\
  (forall share inventory capacity,
     Older.pbcProduce (Older.planOf nan share) inventory capacity = (nan, nan, nan)).
Proof.
  split; [|apply older_nan_plan].
  intros Hfn.
  destruct (planner_misbehaviour_tick Math_exp Math_log inp s fn Hfn) as [Hbad Hthrow].
  split; [exact Hbad|]. split; [|exact Hthrow].
  intros v Hv.
  destruct (simTick_planned Math_exp Math_log inp s fn v Hfn Hv)
    as (s' & Qagg & Qserved & pt & Hs & Hpl).
  exists s', Qagg, Qserved, pt. split; [exact Hs|]. split; [exact Hpl|].
  intros -> j f Hj.
  assert (Hn : nth_error (map f_planned (s_PBC s')) j
               = Some (Math_max 0 infinity * planShare (s_PBC s) f)%float)
    by (rewrite Hpl, nth_error_map, Hj; reflexivity).
  rewrite nth_error_map in Hn.
  destruct (nth_error (s_PBC s') j) as [f'|]; [|discriminate Hn].
  exists f'. split; [reflexivity|].
  cbn [option_map] in Hn. injection Hn as Hn.
  change (Math_max 0 infinity) with infinity in Hn.
  split.
  - intros Hpos. rewrite Hn. now apply mul_inf_pos.
  - intros Hz. rewrite Hn, (mul_inf_zero _ Hz). reflexivity.
Qed.

Lemma planner_misbehaviour_witness :
  userDemandFn nan_inputs = Some (fun _ => Some nan) /\
  (exists s' Qagg pt,
     simTick (fun x => x) (fun x => x) nan_inputs busy_sim = Completed s' Qagg 0 pt) /\
  userDemandFn throwing_inputs = Some (fun _ => None) /\
  (exists s1, simTick (fun x => x) (fun x => x) throwing_inputs busy_sim = Thrown s1) /\
  userDemandFn infinity_inputs = Some (fun _ => Some infinity) /\
  (exists s' Qagg Qserved pt,
     simTick (fun x => x) (fun x => x) infinity_inputs busy_sim
     = Completed s' Qagg Qserved pt /\
     map f_planned (s_PBC s') = [infinity]).
Proof.
  split; [reflexivity|]. split; [|split; [reflexivity|split; [|split; [reflexivity|]]]].
  - destruct (proj1 (planner_misbehaviour (fun x => x) (fun x => x) nan_inputs busy_sim
                       (fun _ => Some nan)) eq_refl) as [H _].
    destruct (H nan eq_refl (or_introl eq_refl)) as (s' & Qagg & pt & Hs & _).
    exists s', Qagg, pt. exact Hs.
  - destruct (proj1 (planner_misbehaviour (fun x => x) (fun x => x) throwing_inputs busy_sim
                       (fun _ => None)) eq_refl) as (_ & _ & H).
    destruct (H eq_refl) as (s1 & Hs & _); [discriminate|].
    exists s1. exact Hs.
  - destruct (proj1 (planner_misbehaviour (fun x => x) (fun x => x) infinity_inputs busy_sim
                       (fun _ => Some infinity)) eq_refl) as (_ & H & _).
    destruct (H infinity eq_refl) as (s' & Qagg & Qserved & pt & Hs & Hpl & Hinf).
    exists s', Qagg, Qserved, pt. split; [exact Hs|].
    destruct (Hinf eq_refl 0%nat (mkFirm "PBC0" 1 20 0.5 30 0 []) eq_refl)
      as (f' & Hn & Hpos & _).
    destruct (s_PBC s') as [|g [|g' r]]; try discriminate Hpl.
    cbn [nth_error] in Hn. inversion Hn; subst g.
    cbn [map]. f_equal. apply Hpos. vm_compute. reflexivity.
Defined.

(** C8 fails as stated.  A throwing planner function aborts the tick during
    planning: no base production takes place, no point is recorded and the
    driver's series stays empty.  A planner function that returns
    [+Infinity] is not read as zero demand: the firm plans an infinite
    quantity, serves its whole capacity of 20 and orders an infinite amount
    from the intermediate tier.  In [part_001] a NaN value is not read as
    zero demand either: the firm's production and inventory become NaN. *)
Lemma planner_fault_counterexample :
  (exists s1,
     simTick (fun x => x) (fun x => x) throwing_inputs busy_sim = Thrown s1 /\
     map f_history (s_PFP s1) = [[]] /\ map f_history (s_PBC s1) = [[]]) /\
  snd (tickDriver (fun x => x) (fun x => x) throwing_inputs (busy_sim, [])) = [] /\
  (exists s' Qagg pt,
     simTick (fun x => x) (fun x => x) infinity_inputs busy_sim
     = Completed s' Qagg 20 pt /\
     map f_planned (s_PBC s') = [infinity] /\
     map o_amount (s_orders s') = [infinity]) /\
  Older.pbcProduce (Older.planOf nan 1) 10 20 = (nan, nan, nan).
Proof.
  split; [|split; [|split]].
  - eexists. split; [vm_compute; reflexivity|]. split; reflexivity.
  - vm_compute. reflexivity.
  - do 3 eexists. split; [vm_compute; reflexivity|]. split; reflexivity.
  - vm_compute. reflexivity.
Qed.

(** ** The shortage cascade *)

Lemma positions_In {A} (p : A -> bool) l : forall k0 k,
  In k (positions p k0 l) <->
  exists x, (k0 <= k)%nat /\ nth_error l (k - k0) = Some x /\ p x = true.
Proof.
  induction l as [|y r IH]; intros k0 k; simpl.
  - split; [tauto|]. intros (x & _ & H & _). now destruct (k - k0)%nat.
  - assert (Hr : In k (positions p (S k0) r) <->
                 exists x, (k0 < k)%nat /\ nth_error (y :: r) (k - k0) = Some x /\ p x = true).
    { rewrite IH. split; intros (x & Hk & Hn & Hp); exists x; (split; [lia|]); split; auto.
      - replace (k - k0)%nat with (S (k - S k0)) by lia. exact Hn.
      - replace (k - k0)%nat with (S (k - S k0)) in Hn by lia. exact Hn. }
    destruct (p y) eqn:Py.
    + simpl. rewrite Hr. split.
      * intros [<-|(x & Hk & H)].
        -- exists y. rewrite Nat.sub_diag. auto.
        -- exists x. split; [lia|exact H].
      * intros (x & Hk & Hn & Hp).
        destruct (Nat.eq_dec k0 k) as [->|Hne]; [now left|].
        right. exists x. split; [lia|auto].
    + rewrite Hr. split.
      * intros (x & Hk & H). exists x. split; [lia|exact H].
      * intros (x & Hk & Hn & Hp).
        destruct (Nat.eq_dec k0 k) as [->|Hne].
        -- rewrite Nat.sub_diag in Hn. simpl in Hn. congruence.
        -- exists x. split; [lia|auto].
Qed.

Lemma due_positions t orders k :
  In k (positions (is_due t) 0 orders) <->
  exists ord, nth_error orders k = Some ord /\ o_filled ord = false /\ (o_due ord <= t)%Z.
Proof.
  rewrite positions_In. rewrite Nat.sub_0_r. unfold is_due.
  split.
  - intros (x & _ & Hn & Hp). exists x. split; [exact Hn|].
    apply andb_true_iff in Hp. destruct Hp as [Hf Hd].
    apply negb_true_iff in Hf. apply Z.leb_le in Hd. auto.
  - intros (x & Hn & Hf & Hd). exists x. split; [lia|]. split; [exact Hn|].
    rewrite Hf. simpl. now apply Z.leb_le.
Qed.

Lemma update_nth_other {A} (g : A -> A) l : forall k j,
  j <> k -> nth_error (update_nth k g l) j = nth_error l j.
Proof.
  induction l as [|x r IH]; intros k j Hne.
  - now destruct k.
  - destruct k, j; simpl; auto; try congruence.
Qed.

Lemma nth_error_snoc {A} (l : list A) x k y :
  nth_error l k = Some y -> nth_error (l ++ [x]) k = Some y.
Proof.
  intros H. rewrite nth_error_app1; [exact H|].
  apply nth_error_Some. congruence.
Qed.

Lemma delay_nonneg g a b :
  nonneg a -> positive_finite (b - a) -> (0 <= Math_round (fst (randRange g a b)))%Z.
Proof.
  intros Ha Hb. apply Math_round_nonneg, nonneg_notneg, randRange_nonneg; assumption.
Qed.

(** An order is touched only when it is processed itself or when it is
    the parent of the order that is processed. *)
Lemma processOrder_other k j s o :
  j <> k ->
  (forall ord, nth_error (s_orders s) k = Some ord -> o_orig ord <> Some j) ->
  nth_error (s_orders s) j = Some o ->
  nth_error (s_orders (processOrder k s)) j = Some o.
Proof.
  intros Hne Horig Hj. unfold processOrder.
  destruct (nth_error (s_orders s) k) as [ord|] eqn:Hk; [|exact Hj].
  specialize (Horig ord eq_refl).
  assert (Hko : forall ko, o_orig ord = Some ko -> j <> ko) by (intros ko E; congruence).
  repeat break_match; cbn [s_orders set_orders set_firms set_logs set_rng];
    rewrite ?update_nth_other by auto; auto using nth_error_snoc.
Qed.

(** C7 (amended).  An order is processed only on ticks at which it is
    unfilled and due.  When a due Final->Intermediate order finds the
    Intermediate firm's inventory short of its amount, no inventory moves,
    the order stays in the ledger unchanged (so it is due again on every
    later tick while it is unfilled), no other order changes, and, once a Raw
    firm is drawn, one child order for the shortfall is appended, linked to
    the parent by [orig] and due no earlier than the current tick.  Nothing
    records that the parent has already escalated: every tick on which it is
    due and short appends a further child. *)
Theorem shortage_spawns_child k s ord pfp pbc :
  nth_error (s_orders s) k = Some ord ->
  o_level ord = PBC_PFP ->
  find_firm (o_to ord) (s_PFP s) = Some pfp ->
  find_firm (o_from ord) (s_PBC s) = Some pbc ->
  geb (or_else (f_inventory pfp) 0) (o_amount ord) = false ->
  (forall t, In k (positions (is_due t) 0 (s_orders s)) <->
             o_filled ord = false /\ (o_due ord <= t)%Z) /\
  nth_error (s_orders (processOrder k s)) k = Some ord /\
  (forall lvl, firms (processOrder k s) lvl = firms s lvl) /\
  (forall j o, nth_error (s_orders s) j = Some o ->
               nth_error (s_orders (processOrder k s)) j = Some o) /\
  (forall pmp,
     index (s_PMP s)
           (Math_floor (fst (mulberry32 (s_rng s)) * of_nat (List.length (s_PMP s))))
     = Some pmp ->
     exists delay, (0 <= delay)%Z /\
       s_orders (processOrder k s)
       = s_orders s ++
         [mkOrder PFP_PMP (f_id pfp) (f_id pmp)
                  (Math_max 0 (o_amount ord - or_else (f_inventory pfp) 0))
                  (s_t s + delay) false (Some k)] /\
       children k (s_orders (processOrder k s))
       = children k (s_orders s) ++
         [mkOrder PFP_PMP (f_id pfp) (f_id pmp)
                  (Math_max 0 (o_amount ord - or_else (f_inventory pfp) 0))
                  (s_t s + delay) false (Some k)]).
Proof.
  intros Hk Hl Hpfp Hpbc Hshort. split.
  { intros t. rewrite due_positions. split.
    - intros (o & Ho & H). rewrite Hk in Ho. now inversion Ho; subst.
    - intros H. exists ord. auto. }
  unfold processOrder. rewrite Hk, Hl, Hpfp, Hpbc, Hshort.
  destruct (mulberry32 (s_rng s)) as [u rng] eqn:Eu. cbn [fst s_PMP set_rng].
  destruct (index (s_PMP s) (Math_floor (u * of_nat (List.length (s_PMP s)))))
    as [pmp|] eqn:Ei.
  - destruct (randRange rng (fst DEFAULT.delays_pfpToPmp) (snd DEFAULT.delays_pfpToPmp))
      as [x rng'] eqn:Ex.
    cbn [s_orders set_orders set_rng s_t].
    split; [now apply nth_error_snoc|].
    split; [intros lvl; destruct lvl; reflexivity|].
    split; [intros j o Hj; now apply nth_error_snoc|].
    intros pmp' Hp. inversion Hp; subst pmp'.
    exists (Math_round x). split.
    + replace x with (fst (randRange rng (fst DEFAULT.delays_pfpToPmp)
                                     (snd DEFAULT.delays_pfpToPmp)))
        by (rewrite Ex; reflexivity).
      apply delay_nonneg; [reflexivity|do 2 eexists; vm_compute; reflexivity].
    + split; [reflexivity|].
      unfold children. rewrite filter_app. cbn [filter o_orig].
      now rewrite Nat.eqb_refl.
  - cbn [s_orders set_rng].
    split; [exact Hk|].
    split; [intros lvl; destruct lvl; reflexivity|].
    split; [auto|]. intros pmp' Hp. discriminate Hp.
Qed.

Lemma shortage_spawns_child_witness :
  nth_error (s_orders (processOrder 0 short_sim)) 0 = Some short_order /\
  List.length (children 0 (s_orders (processOrder 0 short_sim))) = 1%nat.
Proof.
  destruct (shortage_spawns_child 0 short_sim short_order
              (mkFirm "PFP0" 1 20 0.5 10 0 []) (mkFirm "PBC0" 1 0 0.5 0 0 [])
              eq_refl eq_refl eq_refl eq_refl eq_refl)
    as (_ & Hp & _ & _ & Hc).
  split; [exact Hp|].
  destruct (Hc (mkFirm "PMP0" 1 20 0.5 0 0 []) eq_refl) as (delay & _ & _ & ->).
  reflexivity.
Defined.

(** C7 fails as stated.  In the shortage configuration the order placed at
    tick 1 comes due at tick 13; it is escalated at tick 13 and again at
    tick 14, so that after 14 ticks, with no order filled yet, it has two
    child orders. *)
Lemma shortage_cascade_counterexample :
  map (fun f => (f_capacity f, f_inventory f)) (s_PBC shortage_sim) = [(0, 0)%float] /\
  map f_inventory (s_PFP shortage_sim) = [0%float] /\
  map f_inventory (s_PMP shortage_sim) = [0%float] /\
  forall Math_exp Math_log,
    let s := runSim Math_exp Math_log (repeat auto_inputs 14) shortage_sim in
    s_t s = 14%Z /\
    forallb (fun o => negb (o_filled o)) (s_orders s) = true /\
    map (fun o => (o_level o, o_from o, o_to o, o_due o, o_orig o)) (firstn 1 (s_orders s))
    = [(PBC_PFP, "PBC0"%string, "PFP0"%string, 13%Z, None)] /\
    map (fun o => (o_level o, o_from o, o_to o, o_due o, o_orig o)) (children 0 (s_orders s))
    = [(PFP_PMP, "PFP0"%string, "PMP0"%string, 19%Z, Some 0%nat);
       (PFP_PMP, "PFP0"%string, "PMP0"%string, 22%Z, Some 0%nat)].
Proof.
  split; [reflexivity|]. split; [reflexivity|]. split; [reflexivity|].
  intros Math_exp Math_log. vm_compute. repeat split.
Qed.

(** ** The automatic price step *)

(** The automatic step of a completed tick of the current engine. *)
Lemma auto_price_tick Math_exp Math_log inp s s' Qagg Qserved pt :
  priceMode inp = auto ->
  simTick Math_exp Math_log inp s = Completed s' Qagg Qserved pt ->
  (exists cs rng0 s1,
     updateConsumers Math_exp Math_log inp (s_t s + 1) (s_price s) (s_price s)
                     (s_consumers s) 0%float (s_rng s) = (cs, Qagg, rng0) /\
     tickOrders Math_exp Math_log inp s = (s1, Qagg, false) /\
     Qserved = fold_left (fun q f => (q + served (s_t s1) f)%float) (s_PBC s1) 0%float) /\
  s_price s' = adjustPrice (s_price s) Qagg Qserved /\
  pt = recordPoint (s_t s + 1) (s_price s') Qagg Qserved.
Proof.
  intros Hm H.
  destruct (simTick_price _ _ _ _ _ _ _ _ H) as (Hp & Ht & Hpt).
  destruct (simTick_serve _ _ _ _ _ _ _ _ H) as (s1 & E & _ & _ & _ & _ & HQ).
  destruct (tickOrders_planning _ _ _ _ _ _ _ E) as (cs & rng0 & _ & _ & _ & Hu & _).
  unfold planning_price in Hu. rewrite Hm in Hu, Hp. rewrite Ht in Hpt.
  split; [|split; assumption].
  exists cs, rng0, s1. repeat split; assumption.
Qed.

Lemma older_price_step price Qd Qserved :
  ((Qd =? 0)%float = true -> fle 0.01 price ->
   Older.adjustPrice price Qd Qserved = price) /\
  (fle 1 Qd -> Older.adjustPrice price Qd Qserved = adjustPrice price Qd Qserved).
Proof.
  split.
  - intros Hz Hfl. unfold Older.adjustPrice. rewrite Hz.
    change (1 + 0.08 * 0)%float with 1%float.
    rewrite mul_one. apply Math_max_r; auto.
  - intros H1. unfold Older.adjustPrice, adjustPrice, priceGap.
    rewrite (Math_max_r 1 Qd H1 eq_refl). reflexivity.
Qed.

(** C3 (amended).  In [part_000], in auto price mode every completed tick
    sets [price' = max(0.01, price * (1 + 0.08 * gap))] with
    [gap = (demand - served) / max(1, demand)], where [demand] is the
    aggregate demand that the consumers show in the tick and [served] the
    sum of what the PBC firms serve in it, the two quantities of the
    recorded point; when the demand is zero the gap is [0] and a price at
    or above the floor is unchanged.

    In [part_001] the gap is [(Qd - Qserved) / Qd], relative to the demand
    itself: the step is the same whenever [Qd >= 1], a zero demand is
    short-circuited in the same way, and for a demand between 0 and 1 the
    step can differ. *)
Theorem auto_price_update Math_exp Math_log inp s s' Qagg Qserved pt :
  (priceMode inp = auto ->
   simTick Math_exp Math_log inp s = Completed s' Qagg Qserved pt ->
   let gap := if (Qagg =? 0)%float then 0%float
              else ((Qagg - Qserved) / Math_max 1 Qagg)%float in
   (exists cs rng0 s1,
      updateConsumers Math_exp Math_log inp (s_t s + 1) (s_price s) (s_price s)
                      (s_consumers s) 0%float (s_rng s) = (cs, Qagg, rng0) /\
      tickOrders Math_exp Math_log inp s = (s1, Qagg, false) /\
      Qserved = fold_left (fun q f => (q + served (s_t s1) f)%float) (s_PBC s1) 0%float) /\
   s_price s' = Math_max DEFAULT.pMin
                         (s_price s * (1 + DEFAULT.pPriceAdjustGain * gap))%float /\
   pt = recordPoint (s_t s + 1) (s_price s') Qagg Qserved /\
   DEFAULT.pPriceAdjustGain = 0.08%float /\ DEFAULT.pMin = 0.01%float /\
   ((Qagg =? 0)%float = true -> gap = 0%float /\
      (fle DEFAULT.pMin (s_price s) -> s_price s' = s_price s))) /\
  (forall price Qd Qs,
     Older.adjustPrice price Qd Qs
     = Math_max 0.01 (price * (1 + 0.08 * (if (Qd =? 0)%float then 0%float
                                            else ((Qd - Qs) / Qd)%float)))%float /\
     ((Qd =? 0)%float = true -> fle 0.01 price -> Older.adjustPrice price Qd Qs = price) /\
     (fle 1 Qd -> Older.adjustPrice price Qd Qs = adjustPrice price Qd Qs)).
Proof.
  split.
  - intros Hm H gap.
    destruct (auto_price_tick _ _ _ _ _ _ _ _ Hm H) as (Hq & Hp & Hpt).
    unfold adjustPrice, priceGap in Hp. fold gap in Hp.
    split; [exact Hq|]. split; [exact Hp|]. split; [exact Hpt|].
    split; [reflexivity|]. split; [reflexivity|].
    intros Hz. assert (Hg : gap = 0%float) by (unfold gap; now rewrite Hz).
    split; [exact Hg|]. intros Hfl. rewrite Hp, Hg.
    change (1 + DEFAULT.pPriceAdjustGain * 0)%float with 1%float.
    rewrite mul_one. apply Math_max_r; auto.
  - intros price Qd Qs. split; [reflexivity|]. apply older_price_step.
Qed.

Lemma auto_price_update_witness :
  priceMode auto_inputs = auto /\
  (exists s' Qagg Qserved pt,
     simTick (fun x => x) (fun x => x) auto_inputs busy_sim
     = Completed s' Qagg Qserved pt /\
     (Qagg =? 0)%float = false /\ Qserved = 20%float /\
     s_price s' = Math_max 0.01 (1 * (1 + 0.08 * ((Qagg - 20) / Math_max 1 Qagg)))%float /\
     flt 1 (s_price s')) /\
  Older.adjustPrice 2 0 5 = 2%float.
Proof.
  split; [reflexivity|]. split.
  - destruct (simTick (fun x => x) (fun x => x) auto_inputs busy_sim)
      as [s' Qagg Qserved pt|] eqn:E; [|vm_compute in E; discriminate E].
    destruct (proj1 (auto_price_update (fun x => x) (fun x => x) auto_inputs busy_sim
                       s' Qagg Qserved pt) eq_refl E) as (_ & Hp & _).
    exists s', Qagg, Qserved, pt. split; [reflexivity|].
    vm_compute in E. inversion E; subst. clear E.
    split; [vm_compute; reflexivity|]. split; [reflexivity|].
    split; [exact Hp|]. vm_compute. reflexivity.
  - exact (proj1 (proj2 (proj2 (auto_price_update (fun x => x) (fun x => x) auto_inputs
                                  busy_sim busy_sim 0 0 (mkPoint 0 0 0 0 0))
                               2%float 0%float 5%float))
                 eq_refl eq_refl).
Defined.

(** C3 fails as stated for [part_001], whose gap is not divided by
    [max(1, demand)]: at price 1 with a demand of 0.5 of which 0.25 is
    served, the older step moves the price to 1.04 where the formula of the
    claim gives 1.02. *)
Lemma older_price_gap_counterexample :
  Older.adjustPrice 1 0.5 0.25 = 1.04%float /\
  Math_max 0.01 (1 * (1 + 0.08 * ((0.5 - 0.25) / Math_max 1 0.5)))%float = 1.02%float /\
  (1.04 =? 1.02)%float = false.
Proof. repeat split; vm_compute; reflexivity. Qed.

(** ** Determinism *)

Section Determinism.
Variables Math_exp Math_log : float -> float.

Lemma updateConsumer_ext i1 i2 t prev price c rng :
  phaseIdx i1 = phaseIdx i2 ->
  updateConsumer Math_exp Math_log i1 t prev price c rng
  = updateConsumer Math_exp Math_log i2 t prev price c rng.
Proof. intros H. unfold updateConsumer. rewrite H. reflexivity. Qed.

Lemma updateConsumers_ext i1 i2 t prev price cs :
  phaseIdx i1 = phaseIdx i2 ->
  forall Q rng,
    updateConsumers Math_exp Math_log i1 t prev price cs Q rng
    = updateConsumers Math_exp Math_log i2 t prev price cs Q rng.
Proof.
  intros H. induction cs as [|c rest IH]; intros Q rng; simpl; [reflexivity|].
  rewrite (updateConsumer_ext i1 i2) by exact H.
  destruct (updateConsumer Math_exp Math_log i2 t prev price c rng) as [[c' q] rng'].
  now rewrite IH.
Qed.

Lemma perceivedFn_ext i1 i2 Q p rng :
  override_agree (userDemandFn i1) (userDemandFn i2) ->
  perceivedFn i1 Q p rng = perceivedFn i2 Q p rng.
Proof.
  intros H. unfold perceivedFn. inversion H as [|f g Hfg]; [reflexivity|].
  now rewrite Hfg.
Qed.

Lemma planPBC_ext i1 i2 t price Q sA pfps pbc :
  override_agree (userDemandFn i1) (userDemandFn i2) ->
  forall orders rng,
    planPBC i1 t price Q sA pfps pbc orders rng
    = planPBC i2 t price Q sA pfps pbc orders rng.
Proof.
  intros H. induction pbc as [|f rest IH]; intros orders rng; simpl; [reflexivity|].
  rewrite (perceivedFn_ext i1 i2) by exact H.
  destruct (perceivedFn i2 Q price rng) as [[v rng']|]; [|reflexivity].
  match goal with
  | |- context [let '(o, r) := ?x in _] => destruct x as [orders1 rng1]
  end.
  now rewrite IH.
Qed.

Lemma simTick_ext i1 i2 s :
  inputs_agree i1 i2 ->
  simTick Math_exp Math_log i1 s = simTick Math_exp Math_log i2 s.
Proof.
  intros (Hm & Hp & Hph & Ho).
  unfold simTick, tickOrders. rewrite <- Hm.
  assert (Hs : match priceMode i1 with
               | auto => set_t (s_t s + 1) s
               | manual => set_price (Math_max DEFAULT.pMin (manualPrice i1))
                                     (set_t (s_t s + 1) s)
               end
               = match priceMode i1 with
                 | auto => set_t (s_t s + 1) s
                 | manual => set_price (Math_max DEFAULT.pMin (manualPrice i2))
                                       (set_t (s_t s + 1) s)
                 end).
  { destruct (priceMode i1); [reflexivity|]. now rewrite Hp. }
  cbv zeta. rewrite Hs.
  rewrite (updateConsumers_ext i1 i2) by exact Hph.
  match goal with
  | |- context [updateConsumers ?a ?b ?c ?d ?e ?f ?g ?h ?i] =>
      destruct (updateConsumers a b c d e f g h i) as [[cs Qagg] rng]
  end.
  rewrite (planPBC_ext i1 i2) by exact Ho.
  reflexivity.
Qed.

Lemma run_ext inps1 inps2 :
  Forall2 inputs_agree inps1 inps2 ->
  forall s,
    runPoints Math_exp Math_log inps1 s = runPoints Math_exp Math_log inps2 s /\
    runSim Math_exp Math_log inps1 s = runSim Math_exp Math_log inps2 s.
Proof.
  induction 1 as [|i1 i2 r1 r2 Hi _ IH]; intros s; simpl; [auto|].
  rewrite (simTick_ext i1 i2 s Hi).
  destruct (simTick Math_exp Math_log i2 s) as [s' Q Qs pt|s'].
  - destruct (IH s') as [-> ->]. auto.
  - apply IH.
Qed.

End Determinism.

(** ** Surveys and sessions *)


Section Sessions.
Variables Math_exp Math_log : float -> float.







End Sessions.




(** ** Innovations *)

(** Planning, base production, orders and serving leave the technology of
    every firm and the ledger of innovations as they were. *)
Lemma serve_tech t f : tech (fst (serve t f)) = tech f.
Proof. reflexivity. Qed.

Lemma produceAll_tech t fs : forall rng,
  map tech (fst (produceAll t fs rng)) = map tech fs.
Proof.
  induction fs as [|f rest IH]; intros rng; cbn [produceAll map fst]; [reflexivity|].
  unfold produce. destruct (mulberry32 rng) as [u rng1].
  specialize (IH rng1). destruct (produceAll t rest rng1) as [rest' rng2].
  cbn [fst map] in *. rewrite IH. reflexivity.
Qed.

Lemma processOrder_innovations k s :
  s_innovations (processOrder k s) = s_innovations s.
Proof. unfold processOrder. repeat break_match; reflexivity. Qed.

Lemma processOrders_innovations s :
  s_innovations (processOrders s) = s_innovations s.
Proof.
  unfold processOrders.
  apply (fold_left_inv (fun x => s_innovations x = s_innovations s)); auto.
  intros a k H. now rewrite processOrder_innovations.
Qed.

Lemma planPBC_tech inp t price Qagg sA pfps pbc : forall orders rng,
  map tech (fst (fst (fst (planPBC inp t price Qagg sA pfps pbc orders rng))))
  = map tech pbc.
Proof.
  induction pbc as [|f rest IH]; intros orders rng; cbn [planPBC map fst]; [reflexivity|].
  destruct (perceivedFn inp Qagg price rng) as [[v rng1]|]; [|reflexivity].
  match goal with
  | |- context [let '(o, r) := ?x in _] => destruct x as [orders1 rng2]
  end.
  specialize (IH orders1 rng2).
  destruct (planPBC inp t price Qagg sA pfps rest orders1 rng2) as [[[rest' o'] r'] thr].
  cbn [fst map] in *. rewrite IH. reflexivity.
Qed.

Section InnovationFrames.
Variables Math_exp Math_log : float -> float.

Lemma tickOrders_frame inp s s1 Qagg thrown :
  tickOrders Math_exp Math_log inp s = (s1, Qagg, thrown) ->
  (forall lvl, map tech (firms s1 lvl) = map tech (firms s lvl)) /\
  s_innovations s1 = s_innovations s.
Proof.
  unfold tickOrders. intros H.
  destruct (priceMode inp) eqn:Em; cbn [s_t s_price s_consumers s_rng set_t set_price] in H;
  match type of H with
  | context [updateConsumers ?a ?b ?c ?d ?e ?f ?g ?h ?i] =>
      destruct (updateConsumers a b c d e f g h i) as [[cs Q] rng0] eqn:Eu
  end;
  cbn [s_t s_price s_PBC s_PFP s_orders s_rng set_rng set_consumers set_t set_price] in H;
  match type of H with
  | context [planPBC ?a ?b ?c ?d ?e ?f ?g ?h ?i] =>
      pose proof (planPBC_tech a b c d e f g h i) as Hp;
      destruct (planPBC a b c d e f g h i) as [[[pbc orders] rng] thr] eqn:Ep
  end;
  cbn [fst] in Hp;
  destruct thr.
  all: try (inversion H; subst; clear H;
            split; [intros lvl; destruct lvl; simpl; auto|destruct s; reflexivity]).
  all: cbn [s_t s_PMP s_PFP s_rng set_rng set_orders set_firms] in H.
  all: match type of H with
       | context [produceAll ?a ?b ?c] =>
           pose proof (produceAll_tech a b c) as Hm;
           destruct (produceAll a b c) as [pmp rng1]
       end; cbn [fst] in Hm.
  all: match type of H with
       | context [produceAll ?a ?b ?c] =>
           pose proof (produceAll_tech a b c) as Hf;
           destruct (produceAll a b c) as [pfp rng2]
       end; cbn [fst] in Hf.
  all: inversion H; subst; clear H.
  all: split; [intros lvl; rewrite processOrders_firms_map by reflexivity;
               destruct lvl; simpl; auto
              |rewrite processOrders_innovations; destruct s; reflexivity].
Qed.

(** A completed tick ends with the scheduling and the adoption of
    innovations, on a state whose technologies and innovations are those of
    the start of the tick. *)
Lemma simTick_innovations inp s s' Qagg Qserved pt :
  simTick Math_exp Math_log inp s = Completed s' Qagg Qserved pt ->
  exists s2,
    s' = trimLogs (adoptInnovations (scheduleInnovation s2)) /\
    s_t s2 = (s_t s + 1)%Z /\
    (forall lvl, map tech (firms s2 lvl) = map tech (firms s lvl)) /\
    s_innovations s2 = s_innovations s.
Proof.
  unfold simTick. intros H.
  destruct (tickOrders Math_exp Math_log inp s) as [[s1 Q] thrown] eqn:E.
  destruct (tickOrders_price_t _ _ _ _ _ _ _ E) as [_ Ht].
  destruct (tickOrders_frame _ _ _ _ _ E) as [Hf Hi].
  destruct thrown; [discriminate|].
  destruct (serveAll_spec (s_t s1) (s_PBC s1) 0%float) as [H1 _].
  destruct (serveAll (s_t s1) (s_PBC s1) 0%float) as [pbc Qs]. simpl in H1.
  inversion H; subst s' Q Qserved pt. clear H.
  eexists. split; [reflexivity|].
  assert (Hpbc : map tech pbc = map tech (s_PBC s)).
  { change (s_PBC s) with (firms s PBC). rewrite <- (Hf PBC), H1, map_map. reflexivity. }
  destruct (priceMode inp); simpl.
  - split; [exact Ht|]. split; [|exact Hi].
    intros lvl. destruct lvl; simpl; [exact Hpbc|apply (Hf PFP)|apply (Hf PMP)].
  - split; [exact Ht|]. split; [|exact Hi].
    intros lvl. destruct lvl; simpl; [exact Hpbc|apply (Hf PFP)|apply (Hf PMP)].
Qed.

End InnovationFrames.

Lemma scheduleInnovation_spec s :
  exists new,
    s_innovations (scheduleInnovation s) = s_innovations s ++ new /\
    Forall (fun x => i_scheduleAt x = s_t s /\ (i_scheduleAt x <= i_adoptAt x)%Z /\
                     i_adopted x = false) new.
Proof.
  unfold scheduleInnovation.
  repeat break_match; cbn [s_innovations set_innovations set_rng s_t];
    try (exists []; rewrite app_nil_r; split; [reflexivity|constructor]).
  all: eexists; split; [reflexivity|].
  all: constructor; [|constructor].
  all: cbn [i_scheduleAt i_adoptAt i_adopted]; split; [reflexivity|]; split; [|reflexivity].
  all: match goal with
       | H : randRange ?g ?a ?b = (?x, _) |- (_ <= _ + Math_round ?x)%Z =>
           assert (0 <= Math_round x)%Z;
           [replace x with (fst (randRange g a b)) by (rewrite H; reflexivity);
            apply delay_nonneg; [reflexivity|do 2 eexists; vm_compute; reflexivity]
           |lia]
       end.
Qed.

Lemma update_firm_not_found id g fs :
  find_firm id fs = None -> update_firm id g fs = fs.
Proof.
  unfold find_firm. induction fs as [|f r IH]; simpl; auto.
  destruct (String.eqb (f_id f) id); [discriminate|]. intros H. now rewrite IH.
Qed.

Lemma update_firm_ext id g g' fs :
  (forall f, g f = g' f) -> update_firm id g fs = update_firm id g' fs.
Proof.
  intros H. induction fs as [|f r IH]; simpl; auto.
  destruct (String.eqb (f_id f) id); now rewrite ?H, ?IH.
Qed.

Lemma find_firm_ids id fs :
  In id (map f_id fs) -> find_firm id fs <> None.
Proof.
  unfold find_firm. induction fs as [|f r IH]; simpl; [tauto|].
  intros [H|H].
  - subst id. now rewrite String.eqb_refl.
  - destruct (String.eqb (f_id f) id); [discriminate|auto].
Qed.

Lemma firms_set_firms lvl l s lvl' :
  firms (set_firms lvl l s) lvl' = if Tier_eqb lvl lvl' then l else firms s lvl'.
Proof. destruct lvl, lvl'; reflexivity. Qed.

Lemma set_adopted_idem x : i_adopted x = true -> set_adopted x = x.
Proof. destruct x; simpl; intros ->; reflexivity. Qed.

Lemma update_nth_same {A} (g : A -> A) l : forall k x,
  nth_error l k = Some x -> nth_error (update_nth k g l) k = Some (g x).
Proof.
  induction l as [|y r IH]; intros k x H; destruct k; simpl in *; try discriminate.
  - now inversion H.
  - now apply IH.
Qed.

Lemma update_nth_map {A B} (h : A -> B) (g : A -> A) l :
  (forall x, h (g x) = h x) -> forall k, map h (update_nth k g l) = map h l.
Proof.
  intros Hg. induction l as [|y r IH]; intros k; destruct k; simpl; auto.
  - now rewrite Hg.
  - now rewrite IH.
Qed.

Lemma Tier_eqb_eq a b : Tier_eqb a b = true -> a = b.
Proof. destruct a, b; simpl; intros H; try discriminate; reflexivity. Qed.

Lemma adoptInnovation_firms k s lvl :
  firms (adoptInnovation k s) lvl = stepAt (s_innovations s) lvl (firms s lvl) k.
Proof.
  unfold adoptInnovation, stepAt, adoptStep.
  destruct (nth_error (s_innovations s) k) as [x|]; [|reflexivity].
  destruct (find_firm (i_firm x) (firms s (i_level x))) eqn:F.
  - destruct (i_level x), lvl; reflexivity.
  - destruct (Tier_eqb (i_level x) lvl) eqn:T; [|reflexivity].
    apply Tier_eqb_eq in T. subst lvl. now rewrite update_firm_not_found.
Qed.

Lemma adoptInnovation_core k s :
  map core (s_innovations (adoptInnovation k s)) = map core (s_innovations s).
Proof.
  unfold adoptInnovation.
  destruct (nth_error (s_innovations s) k) as [x|]; [|reflexivity].
  destruct (find_firm (i_firm x) (firms s (i_level x))); [|reflexivity].
  cbn [s_innovations set_logs set_innovations].
  rewrite update_nth_map by reflexivity. destruct (i_level x); reflexivity.
Qed.

Lemma adoptInnovation_ids k s lvl :
  map f_id (firms (adoptInnovation k s) lvl) = map f_id (firms s lvl).
Proof.
  pose proof (adoptInnovation_stock k s lvl) as H.
  apply (f_equal (map (fun p => fst (fst (fst (fst p)))))) in H.
  rewrite !map_map in H. exact H.
Qed.

Lemma adoptInnovation_other k j s :
  j <> k ->
  nth_error (s_innovations (adoptInnovation k s)) j = nth_error (s_innovations s) j.
Proof.
  intros Hne. unfold adoptInnovation.
  destruct (nth_error (s_innovations s) k) as [x|]; [|reflexivity].
  destruct (find_firm (i_firm x) (firms s (i_level x))); [|reflexivity].
  cbn [s_innovations set_logs set_innovations].
  rewrite update_nth_other by exact Hne. destruct (i_level x); reflexivity.
Qed.

Lemma adoptInnovation_same k s x :
  nth_error (s_innovations s) k = Some x ->
  find_firm (i_firm x) (firms s (i_level x)) <> None ->
  nth_error (s_innovations (adoptInnovation k s)) k = Some (set_adopted x).
Proof.
  intros Hk Hf. unfold adoptInnovation. rewrite Hk.
  destruct (find_firm (i_firm x) (firms s (i_level x))); [|congruence].
  cbn [s_innovations set_logs set_innovations].
  apply update_nth_same. destruct (i_level x); exact Hk.
Qed.

Lemma adoptInnovation_kept k j s y :
  nth_error (s_innovations s) j = Some y -> i_adopted y = true ->
  nth_error (s_innovations (adoptInnovation k s)) j = Some y.
Proof.
  intros Hj Hy. destruct (Nat.eq_dec j k) as [->|Hne].
  - unfold adoptInnovation. rewrite Hj.
    destruct (find_firm (i_firm y) (firms s (i_level y))); [|exact Hj].
    cbn [s_innovations set_logs set_innovations].
    replace (Some y) with (Some (set_adopted y)) by (now rewrite set_adopted_idem).
    apply update_nth_same. destruct (i_level y); exact Hj.
  - now rewrite adoptInnovation_other.
Qed.

Lemma adoptStep_core lvl fs x x' :
  core x = core x' -> adoptStep lvl fs x = adoptStep lvl fs x'.
Proof.
  unfold core. intros H. injection H as Hf Hl Hc Ht _ _.
  unfold adoptStep. rewrite Hf, Hl.
  destruct (Tier_eqb (i_level x') lvl); [|reflexivity].
  apply update_firm_ext. intros f. unfold adopt. now rewrite Hc, Ht.
Qed.

Lemma stepAt_core inn inn' lvl fs k :
  map core inn = map core inn' -> stepAt inn lvl fs k = stepAt inn' lvl fs k.
Proof.
  intros H. apply (f_equal (fun l => nth_error l k)) in H.
  rewrite !nth_error_map in H. unfold stepAt.
  destruct (nth_error inn k) as [x|], (nth_error inn' k) as [x'|];
    simpl in H; try discriminate; [|reflexivity].
  apply adoptStep_core.
  exact (f_equal (fun o => match o with Some c => c | None => core x end) H).
Qed.

Lemma fold_left_eq {A B} (f g : A -> B -> A) l :
  (forall a b, f a b = g a b) -> forall a, fold_left f l a = fold_left g l a.
Proof.
  intros H. induction l as [|b r IH]; intros a; simpl; [reflexivity|].
  now rewrite H, IH.
Qed.

Lemma adoptFold_core ks : forall s,
  map core (s_innovations (fold_left (fun s k => adoptInnovation k s) ks s))
  = map core (s_innovations s).
Proof.
  induction ks as [|k r IH]; intros s; simpl; [reflexivity|].
  now rewrite IH, adoptInnovation_core.
Qed.

Lemma adoptFold_ids ks lvl : forall s,
  map f_id (firms (fold_left (fun s k => adoptInnovation k s) ks s) lvl)
  = map f_id (firms s lvl).
Proof.
  induction ks as [|k r IH]; intros s; simpl; [reflexivity|].
  now rewrite IH, adoptInnovation_ids.
Qed.

Lemma adoptFold_kept ks j y : forall s,
  nth_error (s_innovations s) j = Some y -> i_adopted y = true ->
  nth_error (s_innovations (fold_left (fun s k => adoptInnovation k s) ks s)) j = Some y.
Proof.
  induction ks as [|k r IH]; intros s Hj Hy; simpl; [exact Hj|].
  apply IH; [|exact Hy]. now apply adoptInnovation_kept.
Qed.

Lemma adoptFold_other ks j : forall s,
  ~ In j ks ->
  nth_error (s_innovations (fold_left (fun s k => adoptInnovation k s) ks s)) j
  = nth_error (s_innovations s) j.
Proof.
  induction ks as [|k r IH]; intros s Hn; simpl; [reflexivity|].
  simpl in Hn. rewrite IH by tauto. apply adoptInnovation_other. intros ->. tauto.
Qed.

Lemma adoptFold_same ks k x : forall s,
  In k ks ->
  nth_error (s_innovations s) k = Some x ->
  In (i_firm x) (map f_id (firms s (i_level x))) ->
  nth_error (s_innovations (fold_left (fun s k => adoptInnovation k s) ks s)) k
  = Some (set_adopted x).
Proof.
  induction ks as [|j r IH]; intros s Hin Hk Hid; simpl; [contradiction|].
  destruct (Nat.eq_dec k j) as [->|Hne].
  - apply adoptFold_kept; [|reflexivity].
    apply adoptInnovation_same; auto using find_firm_ids.
  - destruct Hin as [->|Hin]; [congruence|].
    apply IH; auto.
    + now rewrite adoptInnovation_other.
    + now rewrite adoptInnovation_ids.
Qed.

Lemma adoptFold_firms ks lvl : forall s,
  firms (fold_left (fun s k => adoptInnovation k s) ks s) lvl
  = fold_left (stepAt (s_innovations s) lvl) ks (firms s lvl).
Proof.
  induction ks as [|k r IH]; intros s; simpl; [reflexivity|].
  rewrite IH, adoptInnovation_firms.
  apply fold_left_eq. intros fs j. apply stepAt_core, adoptInnovation_core.
Qed.

Lemma stepAt_positions p lvl : forall l pre fs,
  fold_left (stepAt (pre ++ l) lvl) (positions p (List.length pre) l) fs
  = fold_left (adoptStep lvl) (filter p l) fs.
Proof.
  induction l as [|x r IH]; intros pre fs; simpl; [reflexivity|].
  assert (E : pre ++ x :: r = (pre ++ [x]) ++ r) by now rewrite <- app_assoc.
  assert (L : S (List.length pre) = List.length (pre ++ [x]))
    by (rewrite length_app; simpl; lia).
  assert (Hx : stepAt (pre ++ x :: r) lvl fs (List.length pre) = adoptStep lvl fs x).
  { unfold stepAt. rewrite nth_error_app2 by lia. now rewrite Nat.sub_diag. }
  destruct (p x); simpl.
  - rewrite Hx, L, E. apply IH.
  - rewrite L, E. apply IH.
Qed.

Lemma update_firm_tech id x : forall fs fs',
  map tech fs = map tech fs' ->
  map tech (update_firm id (fun f => adopt f x) fs)
  = map tech (update_firm id (fun f => adopt f x) fs').
Proof.
  induction fs as [|f r IH]; intros [|f' r'] H; simpl in H; try discriminate; auto.
  injection H as Hid Hmc HA Ht. cbn [update_firm].
  rewrite Hid. destruct (String.eqb (f_id f') id); cbn [map].
  - rewrite Ht. f_equal. unfold tech, adopt, set_cost_A.
    cbn [f_id f_marginalCost f_A]. now rewrite Hid, Hmc, HA.
  - rewrite (IH r' Ht). f_equal. unfold tech. now rewrite Hid, Hmc, HA.
Qed.

Lemma adoptStep_tech lvl x fs fs' :
  map tech fs = map tech fs' ->
  map tech (adoptStep lvl fs x) = map tech (adoptStep lvl fs' x).
Proof.
  intros H. unfold adoptStep. destruct (Tier_eqb (i_level x) lvl); auto.
  now apply update_firm_tech.
Qed.

Lemma fold_adoptStep_tech lvl l : forall fs fs',
  map tech fs = map tech fs' ->
  map tech (fold_left (adoptStep lvl) l fs) = map tech (fold_left (adoptStep lvl) l fs').
Proof.
  induction l as [|x r IH]; intros fs fs' H; simpl; auto using adoptStep_tech.
Qed.

Lemma trimLogs_innovations s : s_innovations (trimLogs s) = s_innovations s.
Proof. unfold trimLogs. break_match; reflexivity. Qed.

Lemma trimLogs_t s : s_t (trimLogs s) = s_t s.
Proof. unfold trimLogs. break_match; reflexivity. Qed.

Lemma tech_ids fs fs' : map tech fs = map tech fs' -> map f_id fs = map f_id fs'.
Proof.
  intros H. apply (f_equal (map (fun p => fst (fst p)))) in H.
  rewrite !map_map in H. exact H.
Qed.

(** The adoption loop of the older variant. *)
Lemma adoptDue_spec t l : forall mc A,
  (fst (fst (Older.adoptDue t mc A l)), snd (fst (Older.adoptDue t mc A l)))
  = fold_left olderEffect (filter (Older.due t) l) (mc, A) /\
  (forall k x,
     nth_error l k = Some x ->
     nth_error (snd (Older.adoptDue t mc A l)) k
     = Some (if Older.due t x
             then Older.mkInnov (Older.n_t0 x) true (Older.n_adoptAt x)
                                (Older.n_costMul x) (Older.n_tfpMul x)
             else x)) /\
  List.length (snd (Older.adoptDue t mc A l)) = List.length l.
Proof.
  induction l as [|x rest IH]; intros mc A; cbn [Older.adoptDue filter].
  - split; [reflexivity|]. split; [|reflexivity]. intros k y Hk. destruct k; discriminate Hk.
  - destruct (Older.due t x) eqn:E.
    + specialize (IH (mc * Older.n_costMul x)%float (A * Older.n_tfpMul x)%float).
      destruct (Older.adoptDue t (mc * Older.n_costMul x) (A * Older.n_tfpMul x) rest)
        as [[mc' A'] rest'].
      cbn [fst snd fold_left List.length] in *. destruct IH as (H1 & H2 & H3).
      split; [exact H1|]. split; [|now rewrite H3].
      intros k y Hk. destruct k as [|k]; cbn [nth_error] in *.
      * inversion Hk; subst y. now rewrite E.
      * now apply H2.
    + specialize (IH mc A).
      destruct (Older.adoptDue t mc A rest) as [[mc' A'] rest'].
      cbn [fst snd fold_left List.length] in *. destruct IH as (H1 & H2 & H3).
      split; [exact H1|]. split; [|now rewrite H3].
      intros k y Hk. destruct k as [|k]; cbn [nth_error] in *.
      * inversion Hk; subst y. now rewrite E.
      * now apply H2.
Qed.

Lemma adoptDue_adopted t l : forall mc A,
  Forall (fun x => Older.n_adopted x = true) l -> Older.adoptDue t mc A l = (mc, A, l).
Proof.
  induction l as [|x rest IH]; intros mc A H; cbn [Older.adoptDue]; [reflexivity|].
  inversion H as [|? ? Hx Hr]; subst.
  unfold Older.due. rewrite Hx. cbn [negb andb]. now rewrite (IH mc A Hr).
Qed.

(** The adoptions of a completed tick of the current engine. *)
Lemma innovation_adoption_tick Math_exp Math_log inp s s' Qagg Qserved pt :
  simTick Math_exp Math_log inp s = Completed s' Qagg Qserved pt ->
  s_t s' = (s_t s + 1)%Z /\
  exists new,
    map core (s_innovations s') = map core (s_innovations s ++ new) /\
    Forall (fun x => i_scheduleAt x = s_t s' /\ (i_scheduleAt x <= i_adoptAt x)%Z /\
                     i_adopted x = false) new /\
    (forall k x,
       nth_error (s_innovations s ++ new) k = Some x ->
       (is_adoptable (s_t s') x = false -> nth_error (s_innovations s') k = Some x) /\
       (is_adoptable (s_t s') x = true ->
        In (i_firm x) (map f_id (firms s (i_level x))) ->
        nth_error (s_innovations s') k = Some (set_adopted x)) /\
       (i_adopted x = true -> is_adoptable (s_t s') x = false)) /\
    (forall lvl,
       map tech (firms s' lvl)
       = map tech (fold_left (adoptStep lvl)
                             (filter (is_adoptable (s_t s')) (s_innovations s ++ new))
                             (firms s lvl))) /\
    (forall f x,
       f_marginalCost (adopt f x) = Math_max 0.01 (f_marginalCost f * i_costMul x) /\
       f_A (adopt f x) = (or_else (f_A f) 1 * i_tfpMul x)%float).
Proof.
  intros H.
  destruct (simTick_innovations _ _ _ _ _ _ _ _ H) as (s2 & -> & Ht & Hf & Hi).
  destruct (scheduleInnovation_spec s2) as (new & Hn & HF).
  destruct (scheduleInnovation_price_t s2) as [_ Ht3].
  set (s3 := scheduleInnovation s2) in *.
  assert (Ht' : s_t (trimLogs (adoptInnovations s3)) = s_t s2).
  { rewrite trimLogs_t. destruct (adoptInnovations_price_t s3) as [_ ->]. exact Ht3. }
  rewrite Ht'. split; [exact Ht|].
  exists new. rewrite Hi in Hn.
  unfold adoptInnovations. rewrite Ht3, Hn.
  split; [|split; [|split; [|split]]].
  - rewrite trimLogs_innovations, adoptFold_core. now rewrite Hn.
  - exact HF.
  - intros k x Hk. split; [|split].
    + intros Hp. rewrite trimLogs_innovations, adoptFold_other; [now rewrite Hn|].
      rewrite positions_In, Nat.sub_0_r. intros (y & _ & Hy & Py). congruence.
    + intros Hp Hid. rewrite trimLogs_innovations.
      apply adoptFold_same.
      * rewrite positions_In, Nat.sub_0_r. exists x. split; [lia|auto].
      * now rewrite Hn.
      * unfold s3. rewrite scheduleInnovation_firms.
        rewrite (tech_ids _ _ (Hf (i_level x))). exact Hid.
    + intros Ha. unfold is_adoptable. now rewrite Ha.
  - intros lvl. rewrite trimLogs_firms, adoptFold_firms, Hn.
    rewrite (stepAt_positions (is_adoptable (s_t s2)) lvl (s_innovations s ++ new) []).
    apply fold_adoptStep_tech. unfold s3. rewrite scheduleInnovation_firms. apply Hf.
  - intros f x. split; reflexivity.
Qed.

(** C6 (amended).  In [part_000], in a completed tick the ledger of
    innovations keeps its entries, at most gaining new ones at the end, each
    scheduled at the current tick with [adoptAt >= scheduleAt] and not
    adopted.  An entry that is already adopted, or whose adoption tick has
    not come, is left as it is; a pending entry whose adoption tick has come
    and whose firm exists is flagged adopted.  The technology of the firms
    changes only by the adoptions of the tick, taken in ledger order: the
    firm's marginal cost becomes [max(0.01, marginalCost * costMul)] and its
    productivity [(A || 1) * tfpMul].  An adopted entry is never adoptable
    again, so it changes its firm once and never on later ticks.

    In [part_001] and [src/src/App.jsx] the adoption loop of a firm
    multiplies: the innovations that are due, in order, turn [marginalCost]
    into [marginalCost * costMul] and [A] into [A * tfpMul], exactly, and
    are flagged adopted; the others are left as they are; an adopted
    innovation is never due again, and a firm whose innovations are all
    adopted is left unchanged at every tick. *)
Theorem innovation_adoption Math_exp Math_log inp s s' Qagg Qserved pt :
  (simTick Math_exp Math_log inp s = Completed s' Qagg Qserved pt ->
   s_t s' = (s_t s + 1)%Z /\
   exists new,
     map core (s_innovations s') = map core (s_innovations s ++ new) /\
     Forall (fun x => i_scheduleAt x = s_t s' /\ (i_scheduleAt x <= i_adoptAt x)%Z /\
                      i_adopted x = false) new /\
     (forall k x,
        nth_error (s_innovations s ++ new) k = Some x ->
        (is_adoptable (s_t s') x = false -> nth_error (s_innovations s') k = Some x) /\
        (is_adoptable (s_t s') x = true ->
         In (i_firm x) (map f_id (firms s (i_level x))) ->
         nth_error (s_innovations s') k = Some (set_adopted x)) /\
        (i_adopted x = true -> is_adoptable (s_t s') x = false)) /\
     (forall lvl,
        map tech (firms s' lvl)
        = map tech (fold_left (adoptStep lvl)
                              (filter (is_adoptable (s_t s')) (s_innovations s ++ new))
                              (firms s lvl))) /\
     (forall f x,
        f_marginalCost (adopt f x) = Math_max 0.01 (f_marginalCost f * i_costMul x) /\
        f_A (adopt f x) = (or_else (f_A f) 1 * i_tfpMul x)%float)) /\
  (forall t mc A l,
     (fst (fst (Older.adoptDue t mc A l)), snd (fst (Older.adoptDue t mc A l)))
     = fold_left olderEffect (filter (Older.due t) l) (mc, A) /\
     (forall x, filter (Older.due t) l = [x] ->
        fst (fst (Older.adoptDue t mc A l)) = (mc * Older.n_costMul x)%float /\
        snd (fst (Older.adoptDue t mc A l)) = (A * Older.n_tfpMul x)%float) /\
     (forall k x,
        nth_error l k = Some x ->
        nth_error (snd (Older.adoptDue t mc A l)) k
        = Some (if Older.due t x
                then Older.mkInnov (Older.n_t0 x) true (Older.n_adoptAt x)
                                   (Older.n_costMul x) (Older.n_tfpMul x)
                else x)) /\
     (forall t' x, Older.n_adopted x = true -> Older.due t' x = false) /\
     (forall t', Forall (fun x => Older.n_adopted x = true) l ->
        Older.adoptDue t' mc A l = (mc, A, l))).
Proof.
  split; [apply innovation_adoption_tick|].
  intros t mc A l. destruct (adoptDue_spec t l mc A) as (H1 & H2 & _).
  split; [exact H1|]. split; [|split; [exact H2|split]].
  - intros x Hx. rewrite Hx in H1. cbn [fold_left olderEffect fst snd] in H1.
    inversion H1. split; reflexivity.
  - intros t' x Hx. unfold Older.due. now rewrite Hx.
  - intros t' Hl. now apply adoptDue_adopted.
Qed.

Lemma innovation_adoption_witness :
  (exists s' Qagg Qserved pt,
     simTick (fun x => x) (fun x => x) auto_inputs innovation_sim
     = Completed s' Qagg Qserved pt /\
     s_t s' = 1%Z /\
     nth_error (s_innovations s') 0 = Some (set_adopted pending_innovation)) /\
  fst (Older.adoptDue 5 0.5 1 [Older.mkInnov 0 false 5 0.9 1.1])
  = ((0.5 * 0.9)%float, (1 * 1.1)%float).
Proof.
  split.
  - destruct (simTick (fun x => x) (fun x => x) auto_inputs innovation_sim)
      as [s' Qagg Qserved pt|] eqn:E; [|vm_compute in E; discriminate E].
    exists s', Qagg, Qserved, pt. split; [reflexivity|].
    destruct (proj1 (innovation_adoption (fun x => x) (fun x => x) _ _ _ _ _ _) E)
      as (Ht & new & _ & _ & Hk & _).
    split; [exact Ht|].
    destruct (Hk 0%nat pending_innovation eq_refl) as (_ & Ha & _).
    apply Ha.
    + rewrite Ht. reflexivity.
    + left. reflexivity.
  - destruct (proj2 (innovation_adoption (fun x => x) (fun x => x) auto_inputs
                       innovation_sim innovation_sim 0 0 (mkPoint 0 0 0 0 0))
                    5%Z 0.5%float 1%float [Older.mkInnov 0 false 5 0.9 1.1])
      as (_ & H & _).
    destruct (H (Older.mkInnov 0 false 5 0.9 1.1) eq_refl) as [H1 H2].
    destruct (Older.adoptDue 5 0.5 1 [Older.mkInnov 0 false 5 0.9 1.1]) as [[mc a] l'].
    cbn [fst snd] in *. now rewrite H1, H2.
Defined.

(** C6 fails as stated for [part_000]: the marginal cost is not
    multiplied by exactly [costMul] when the product falls under 0.01.  A firm with marginal cost
    0.0105 that adopts an innovation with [costMul = 0.92] ends with a
    marginal cost of 0.01, not 0.00966. *)
Lemma innovation_cost_floor_counterexample :
  map f_marginalCost (s_PBC cheap_sim) = [0.0105%float] /\
  map i_costMul (s_innovations cheap_sim) = [0.92%float] /\
  forall Math_exp Math_log,
    exists s' Qagg Qserved pt,
      simTick Math_exp Math_log auto_inputs cheap_sim = Completed s' Qagg Qserved pt /\
      map i_adopted (s_innovations s') = [true] /\
      map f_marginalCost (s_PBC s') = [0.01%float] /\
      (0.0105 * 0.92 =? 0.01)%float = false /\
      (0.0105 * 0.92 <? 0.01)%float = true.
Proof.
  split; [reflexivity|]. split; [reflexivity|].
  intros Math_exp Math_log.
  destruct (simTick Math_exp Math_log auto_inputs cheap_sim)
    as [s' Qagg Qserved pt|] eqn:E; [|vm_compute in E; discriminate E].
  exists s', Qagg, Qserved, pt. split; [reflexivity|].
  vm_compute in E. inversion E; subst. repeat split.
Qed.

(** ** Non-negative quantities *)

(** A transfer that the supplier's inventory covers leaves it not
    negative. *)
Lemma sub_covered inv amount :
  notneg inv -> notneg amount -> geb (or_else inv 0) amount = true ->
  notneg (inv - amount).
Proof.
  intros Hi Ha Hg. unfold geb in Hg. unfold or_else in Hg.
  destruct (truthy inv) eqn:T.
  - apply sub_notneg; assumption.
  - rewrite truthy_SF in T. apply negb_false_iff in T.
    rewrite notneg_SF in *. rewrite FloatAxioms.leb_spec in Hg. rewrite sub_spec.
    change (Prim2SF 0) with (S754_zero false) in Hg. unfold SFleb in Hg.
    destruct (Prim2SF inv) as [s|s| |s m e]; try discriminate T;
      destruct (Prim2SF amount) as [s'|s'| |s' m' e']; try destruct s';
        try discriminate; try reflexivity; destruct s; reflexivity.
Qed.

Lemma or_else_notneg x d : notneg x -> notneg d -> notneg (or_else x d).
Proof. intros Hx Hd. unfold or_else. now destruct (truthy x). Qed.

Lemma gtb_fle a b : gtb a b = true -> fle b a.
Proof. unfold gtb. intros H. now apply flt_fle. Qed.

Lemma update_firm_Forall (P : Firm -> Prop) id g l :
  Forall P l ->
  (forall f, find_firm id l = Some f -> P f -> P (g f)) ->
  Forall P (update_firm id g l).
Proof.
  unfold find_firm. induction 1 as [|f r Hf Hr IH]; intros Hg; simpl; [constructor|].
  simpl in Hg. destruct (String.eqb (f_id f) id).
  - constructor; auto.
  - constructor; auto.
Qed.

Lemma find_update_firm id h l f0 :
  (forall f, f_id (h f) = f_id f) ->
  find_firm id l = Some f0 ->
  find_firm id (update_firm id h l) = Some (h f0).
Proof.
  unfold find_firm. intros Hh. induction l as [|f r IH]; simpl; [discriminate|].
  destruct (String.eqb (f_id f) id) eqn:E; simpl.
  - intros H. inversion H; subst f0. now rewrite Hh, E.
  - rewrite E. exact IH.
Qed.

Lemma update_nth_Forall {A} (P : A -> Prop) (g : A -> A) l :
  Forall P l -> (forall x, P x -> P (g x)) -> forall k, Forall P (update_nth k g l).
Proof.
  intros H Hg. induction H as [|x r Hx Hr IH]; intros k; destruct k; simpl;
    constructor; auto.
Qed.

Lemma Forall_snoc {A} (P : A -> Prop) l x : Forall P l -> P x -> Forall P (l ++ [x]).
Proof. intros Hl Hx. apply Forall_app. split; [exact Hl|]. constructor; auto. Qed.

Lemma nth_error_Forall {A} (P : A -> Prop) l k x :
  Forall P l -> nth_error l k = Some x -> P x.
Proof.
  intros H Hk. rewrite Forall_forall in H. apply H. eapply nth_error_In; eauto.
Qed.

Lemma produce_ok t f rng : firm_ok f -> firm_ok (fst (produce t f rng)).
Proof.
  intros [Hi Hc]. unfold produce.
  pose proof (mulberry32_nonneg rng) as Hu.
  destruct (mulberry32 rng) as [u rng1]. cbn [fst] in *.
  split; [|exact Hc]. cbn [f_inventory push_history set_inventory].
  apply add_notneg.
  - apply nonneg_notneg, or_else_zero_nonneg, Hi.
  - apply mul_notneg.
    + apply or_else_notneg; [exact Hc|reflexivity].
    + apply add_notneg; [reflexivity|].
      apply mul_notneg; [now apply nonneg_notneg|reflexivity].
Qed.

Lemma produceAll_ok t fs : forall rng,
  Forall firm_ok fs -> Forall firm_ok (fst (produceAll t fs rng)).
Proof.
  induction fs as [|f rest IH]; intros rng H; cbn [produceAll fst]; [constructor|].
  inversion H as [|? ? Hf Hr]; subst.
  pose proof (produce_ok t f rng Hf) as Hp.
  destruct (produce t f rng) as [f' rng1]. cbn [fst] in Hp.
  specialize (IH rng1 Hr). destruct (produceAll t rest rng1) as [rest' rng2].
  cbn [fst] in *. constructor; assumption.
Qed.

Lemma serve_ok t f :
  firm_ok f -> firm_ok (fst (serve t f)) /\ nonneg (snd (serve t f)).
Proof.
  intros [Hi Hc]. unfold serve. cbn [fst snd].
  set (p := or_else (f_planned f) 0).
  set (i := or_else (f_inventory f) 0).
  set (c := or_else (f_capacity f) 9999).
  assert (Np : is_num p) by (apply or_else_is_num; reflexivity).
  assert (Ni : is_num i) by (apply or_else_is_num; reflexivity).
  assert (Nc : is_num c) by (apply or_else_is_num; reflexivity).
  assert (Hi0 : nonneg i) by (apply or_else_zero_nonneg, Hi).
  assert (Nm : is_num (Math_min3 p i c))
    by (unfold Math_min3; auto using Math_min_is_num).
  assert (Hle : fle (Math_min3 p i c) i).
  { unfold Math_min3. eapply fle_trans; [apply Math_min_le_l|apply Math_min_le_r];
      auto using Math_min_is_num. }
  assert (Hprod : nonneg (Math_max 0 (Math_min3 p i c)))
    by (apply Math_max_zero_nonneg, Nm).
  split; [|exact Hprod].
  split; [|exact Hc]. cbn [f_inventory push_history set_inventory].
  apply sub_notneg; [now apply nonneg_notneg|].
  destruct (0 <? Math_min3 p i c)%float eqn:L.
  - assert (E : Math_max 0 (Math_min3 p i c) = Math_min3 p i c).
    { unfold Math_max. unfold is_num in Nm. rewrite Nm, L. reflexivity. }
    rewrite E. exact Hle.
  - assert (E : Math_max 0 (Math_min3 p i c) = 0%float).
    { apply Math_max_zero_nonpos. apply not_flt_fle; auto. reflexivity. }
    rewrite E. exact Hi0.
Qed.

Lemma serveAll_ok t fs : forall Q,
  Forall firm_ok fs -> nonneg Q ->
  Forall firm_ok (fst (serveAll t fs Q)) /\ nonneg (snd (serveAll t fs Q)).
Proof.
  induction fs as [|f rest IH]; intros Q H HQ; cbn [serveAll fst snd]; [auto|].
  inversion H as [|? ? Hf Hr]; subst.
  destruct (serve_ok t f Hf) as [Hf' Hp].
  destruct (serve t f) as [f' produced]. cbn [fst snd] in *.
  destruct (IH (Q + produced)%float Hr (add_nonneg _ _ HQ Hp)) as [Hr' HQ'].
  destruct (serveAll t rest (Q + produced)%float) as [rest' Q'].
  cbn [fst snd] in *. split; [constructor|]; assumption.
Qed.

Ltac sim_cbn :=
  cbn [firms set_firms set_orders set_logs set_rng set_innovations set_t set_price
       set_consumers s_t s_seed s_rng s_price s_consumers s_PBC s_PFP s_PMP s_orders
       s_logs s_innovations s_scheduled s_adopted].

Lemma planPBC_ok inp t price Qagg sA pfps pbc : forall orders rng,
  Forall firm_ok pbc -> Forall order_ok orders ->
  Forall firm_ok (fst (fst (fst (planPBC inp t price Qagg sA pfps pbc orders rng)))) /\
  Forall order_ok (snd (fst (fst (planPBC inp t price Qagg sA pfps pbc orders rng)))).
Proof.
  induction pbc as [|f rest IH]; intros orders rng Hf Ho; cbn [planPBC fst snd]; [auto|].
  inversion Hf as [|? ? Hf1 Hr]; subst.
  destruct (perceivedFn inp Qagg price rng) as [[v rng1]|]; [|cbn [fst snd]; auto].
  set (plan := (Math_max 0 v * (f_A f * or_else (f_capacity f) 1 / sA))%float).
  cbn [f_inventory set_planned f_id].
  match goal with
  | |- context [let '(o, r) := ?x in _] =>
      assert (Ho1 : Forall order_ok (fst x));
      [|destruct x as [orders1 rng2]]
  end.
  { destruct (gtb plan (f_inventory f)) eqn:G; [|exact Ho].
    destruct (mulberry32 rng1) as [u rng2].
    destruct (index pfps (Math_floor (u * of_nat (List.length pfps)))) as [pfp|];
      [|exact Ho].
    destruct (randRange rng2 (fst DEFAULT.delays_pbcToPfp) (snd DEFAULT.delays_pbcToPfp))
      as [x rng3].
    cbn [fst]. apply Forall_snoc; [exact Ho|].
    unfold order_ok. cbn [o_amount].
    apply sub_notneg; [apply Hf1|now apply gtb_fle]. }
  cbn [fst] in Ho1.
  destruct (IH orders1 rng2 Hr Ho1) as [Hr' Ho'].
  destruct (planPBC inp t price Qagg sA pfps rest orders1 rng2) as [[[rest' o'] r'] thr].
  cbn [fst snd] in *. split; [|exact Ho'].
  constructor; [|exact Hr']. exact Hf1.
Qed.

Lemma orig_fill_ok s1 ord pfp_inventory :
  WF s1 ->
  (forall f, find_firm (o_from ord) (s_PFP s1) = Some f -> f_inventory f = pfp_inventory) ->
  WF (match o_orig ord with
      | Some ko =>
          match nth_error (s_orders s1) ko with
          | Some orig =>
              match find_firm (o_from orig) (s_PBC s1) with
              | Some pbc =>
                  if geb pfp_inventory (o_amount orig) then
                    let s := set_firms PFP
                      (update_firm (o_from ord)
                         (fun f => set_inventory (f_inventory f - o_amount orig) f)
                         (s_PFP s1)) s1 in
                    let s := set_firms PBC
                      (update_firm (o_from orig)
                         (fun f => set_inventory
                                     (or_else (f_inventory f) 0 + o_amount orig) f)
                         (s_PBC s)) s in
                    set_orders (update_nth ko set_filled (s_orders s)) s
                  else s1
              | None => s1
              end
          | None => s1
          end
      | None => s1
      end).
Proof.
  intros W Hinv. pose proof W as [Hf Ho].
  destruct (o_orig ord) as [ko|]; [|exact W].
  destruct (nth_error (s_orders s1) ko) as [orig|] eqn:Hko; [|exact W].
  pose proof (nth_error_Forall _ _ _ _ Ho Hko) as Horig. unfold order_ok in Horig.
  destruct (find_firm (o_from orig) (s_PBC s1)) as [pbc|]; [|exact W].
  destruct (geb pfp_inventory (o_amount orig)) eqn:G; [|exact W].
  cbv zeta. split.
  - intros lvl. destruct lvl; sim_cbn.
    + apply update_firm_Forall; [apply (Hf PBC)|].
      intros f _ [Hi Hc]. split; [|exact Hc]. cbn [f_inventory set_inventory].
      apply add_notneg; [|exact Horig].
      apply or_else_notneg; [exact Hi|reflexivity].
    + apply update_firm_Forall; [apply (Hf PFP)|].
      intros f Hfind [Hi Hc]. split; [|exact Hc]. cbn [f_inventory set_inventory].
      rewrite (Hinv f Hfind). apply sub_notneg; [exact Horig|exact G].
    + apply (Hf PMP).
  - sim_cbn. apply update_nth_Forall; auto.
Qed.

Lemma processOrder_ok k s : WF s -> WF (processOrder k s).
Proof.
  intros W. pose proof W as [Hf Ho]. unfold processOrder.
  destruct (nth_error (s_orders s) k) as [ord|] eqn:Hk; [|exact W].
  pose proof (nth_error_Forall _ _ _ _ Ho Hk) as Hord. unfold order_ok in Hord.
  assert (Wfilled : WF (set_orders (update_nth k set_filled (s_orders s)) s)).
  { split; [intros lvl; destruct lvl; [apply (Hf PBC)|apply (Hf PFP)|apply (Hf PMP)]|].
    sim_cbn. apply update_nth_Forall; auto. }
  destruct (o_level ord).
  - destruct (find_firm (o_to ord) (s_PFP s)) as [pfp|] eqn:Fp; [|exact Wfilled].
    destruct (find_firm (o_from ord) (s_PBC s)) as [pbc|] eqn:Fb; [|exact Wfilled].
    destruct (geb (or_else (f_inventory pfp) 0) (o_amount ord)) eqn:G.
    + cbv zeta. split.
      * intros lvl. destruct lvl; sim_cbn.
        -- apply update_firm_Forall; [apply (Hf PBC)|].
           intros f _ [Hi Hc]. split; [|exact Hc]. cbn [f_inventory set_inventory].
           apply add_notneg; [|exact Hord].
           apply or_else_notneg; [exact Hi|reflexivity].
        -- apply update_firm_Forall; [apply (Hf PFP)|].
           intros f Hfind [Hi Hc]. rewrite Fp in Hfind. inversion Hfind; subst f.
           split; [|exact Hc]. cbn [f_inventory set_inventory].
           now apply sub_covered.
        -- apply (Hf PMP).
      * sim_cbn. apply update_nth_Forall; auto.
    + cbv zeta. destruct (mulberry32 (s_rng s)) as [u rng]. sim_cbn.
      destruct (index (s_PMP s) (Math_floor (u * of_nat (List.length (s_PMP s)))))
        as [pmp|].
      * destruct (randRange rng (fst DEFAULT.delays_pfpToPmp) (snd DEFAULT.delays_pfpToPmp))
          as [x rng'].
        split; [intros lvl; destruct lvl; [apply (Hf PBC)|apply (Hf PFP)|apply (Hf PMP)]|].
        sim_cbn. apply Forall_snoc; [exact Ho|].
        unfold order_ok. cbn [o_amount]. apply Math_max_zero_notneg.
      * split; [intros lvl; destruct lvl; [apply (Hf PBC)|apply (Hf PFP)|apply (Hf PMP)]|exact Ho].
  - destruct (find_firm (o_to ord) (s_PMP s)) as [pmp|] eqn:Fm; [|exact Wfilled].
    destruct (find_firm (o_from ord) (s_PFP s)) as [pfp|] eqn:Fp; [|exact Wfilled].
    destruct (geb (or_else (f_inventory pmp) 0) (o_amount ord)) eqn:G; [|exact W].
    cbv zeta. apply orig_fill_ok.
    + split.
      * intros lvl. destruct lvl; sim_cbn.
        -- apply (Hf PBC).
        -- apply update_firm_Forall; [apply (Hf PFP)|].
           intros f Hfind [Hi Hc]. rewrite Fp in Hfind. inversion Hfind; subst f.
           split; [|exact Hc]. cbn [f_inventory set_inventory].
           apply add_notneg; [|exact Hord].
           apply or_else_notneg; [exact Hi|reflexivity].
        -- apply update_firm_Forall; [apply (Hf PMP)|].
           intros f Hfind [Hi Hc]. rewrite Fm in Hfind. inversion Hfind; subst f.
           split; [|exact Hc]. cbn [f_inventory set_inventory].
           now apply sub_covered.
      * sim_cbn. apply update_nth_Forall; auto.
    + sim_cbn. intros f Hfind.
      rewrite (find_update_firm _ _ _ pfp) in Hfind by (auto; reflexivity).
      inversion Hfind. reflexivity.
Qed.

Lemma processOrders_ok s : WF s -> WF (processOrders s).
Proof.
  intros W. unfold processOrders. apply (fold_left_inv WF); auto.
  intros a k. apply processOrder_ok.
Qed.

Lemma stock_ok l l' : map stock l = map stock l' -> Forall firm_ok l -> Forall firm_ok l'.
Proof.
  revert l'. induction l as [|f r IH]; intros [|f' r'] H Hl; simpl in H;
    try discriminate; constructor; inversion Hl; subst.
  - injection H as _ Hc Hi _ _ _. unfold firm_ok in *. now rewrite <- Hc, <- Hi.
  - apply IH; auto. now injection H.
Qed.

Lemma scheduleInnovation_orders s : s_orders (scheduleInnovation s) = s_orders s.
Proof. unfold scheduleInnovation. repeat break_match; reflexivity. Qed.

Lemma adoptInnovation_orders k s : s_orders (adoptInnovation k s) = s_orders s.
Proof.
  unfold adoptInnovation. repeat break_match; try reflexivity;
    destruct (i_level _); reflexivity.
Qed.

Lemma adoptInnovations_orders s : s_orders (adoptInnovations s) = s_orders s.
Proof.
  unfold adoptInnovations.
  apply (fold_left_inv (fun x => s_orders x = s_orders s)); auto.
  intros a k H. now rewrite adoptInnovation_orders.
Qed.

Lemma trimLogs_orders s : s_orders (trimLogs s) = s_orders s.
Proof. unfold trimLogs. break_match; reflexivity. Qed.

(** The innovations and the trimming of the log keep a state well
    formed. *)
Lemma innovations_ok s : WF s -> WF (trimLogs (adoptInnovations (scheduleInnovation s))).
Proof.
  intros [Hf Ho]. split.
  - intros lvl. rewrite trimLogs_firms.
    apply (stock_ok (firms s lvl)); [|apply Hf].
    now rewrite adoptInnovations_stock, scheduleInnovation_firms.
  - now rewrite trimLogs_orders, adoptInnovations_orders, scheduleInnovation_orders.
Qed.

Section Demand.
Variables Math_exp Math_log : float -> float.

Lemma computeConsumerDemand_notneg c p rng :
  notneg (fst (computeConsumerDemand Math_exp Math_log c p rng)).
Proof.
  unfold computeConsumerDemand. destruct (mulberry32 rng) as [u rng1]. cbn [fst].
  apply Math_max_zero_notneg.
Qed.

Lemma consumerReact_nonneg prev price rng : nonneg (fst (consumerReact prev price rng)).
Proof.
  unfold consumerReact.
  destruct (price =? prev)%float; [reflexivity|].
  destruct (mulberry32 rng) as [roll rng1].
  repeat break_match; apply randRange_nonneg;
    solve [reflexivity | do 2 eexists; vm_compute; reflexivity].
Qed.

Lemma updateConsumer_notneg inp t prev price c rng :
  notneg (snd (fst (updateConsumer Math_exp Math_log inp t prev price c rng))).
Proof.
  unfold updateConsumer.
  repeat match goal with
  | |- context [let '(_, _) := ?x in _] => destruct x eqn:?
  | |- context [if ?x then _ else _] => destruct x eqn:?
  end.
  all: cbn [fst snd].
  all: match goal with
       | E : computeConsumerDemand _ _ ?c ?p ?g = (?q, _),
         E' : consumerReact ?a ?b ?g' = (?r, _) |- notneg (?q * ?r) =>
           apply mul_notneg;
           [replace q with (fst (computeConsumerDemand Math_exp Math_log c p g))
              by (rewrite E; reflexivity);
            apply computeConsumerDemand_notneg
           |replace r with (fst (consumerReact a b g')) by (rewrite E'; reflexivity);
            apply nonneg_notneg, consumerReact_nonneg]
       end.
Qed.

End Demand.

Lemma notneg_num_nonneg x : notneg x -> is_num x -> nonneg x.
Proof.
  intros H Hn. apply notneg_cases in H. destruct H as [H|H]; [|exact H].
  unfold is_num in Hn. congruence.
Qed.

Lemma newFirms_ok prefix cap mc n : forall i rng,
  nonneg (fst cap) -> positive_finite (snd cap - fst cap) ->
  Forall firm_ok (fst (newFirms prefix cap mc n i rng)).
Proof.
  induction n as [|n IH]; intros i rng Ha Hb; cbn [newFirms fst]; [constructor|].
  destruct (randRange rng 0.8 1.3) as [A rng1].
  pose proof (randRange_nonneg rng1 (fst cap) (snd cap) Ha Hb) as Hc.
  destruct (randRange rng1 (fst cap) (snd cap)) as [capacity rng2].
  destruct (randRange rng2 (fst mc) (snd mc)) as [marginalCost rng3].
  specialize (IH (S i) rng3 Ha Hb).
  destruct (newFirms prefix cap mc n (S i) rng3) as [fs rng4].
  cbn [fst] in *. constructor; [|exact IH].
  split; [reflexivity|]. now apply nonneg_notneg.
Qed.

Section Invariant.
Variables Math_exp Math_log : float -> float.

Lemma updateConsumers_notneg inp t prev price cs : forall Q rng,
  notneg Q ->
  notneg (snd (fst (updateConsumers Math_exp Math_log inp t prev price cs Q rng))).
Proof.
  induction cs as [|c rest IH]; intros Q rng HQ; cbn [updateConsumers fst snd];
    [exact HQ|].
  pose proof (updateConsumer_notneg Math_exp Math_log inp t prev price c rng) as Hq.
  destruct (updateConsumer Math_exp Math_log inp t prev price c rng) as [[c' q] rng1].
  cbn [fst snd] in Hq.
  specialize (IH (Q + q)%float rng1 (add_notneg _ _ HQ Hq)).
  destruct (updateConsumers Math_exp Math_log inp t prev price rest (Q + q) rng1)
    as [[rest' Q'] rng2].
  exact IH.
Qed.

Lemma initSimulation_ok seed : WF (fst (initSimulation Math_exp Math_log seed)).
Proof.
  unfold initSimulation.
  destruct (newConsumers DEFAULT.consumersN 0 seed) as [cs rng0].
  destruct (firmCount DEFAULT.pbcCountRange rng0) as [n1 rng1].
  pose proof (newFirms_ok "PBC" (10, 50)%float (0.2, 1.0)%float n1 0 rng1) as H1.
  destruct (newFirms "PBC" (10, 50)%float (0.2, 1.0)%float n1 0 rng1) as [pbc rng2].
  destruct (firmCount DEFAULT.pfpCountRange rng2) as [n2 rng3].
  pose proof (newFirms_ok "PFP" (10, 80)%float (0.1, 0.8)%float n2 0 rng3) as H2.
  destruct (newFirms "PFP" (10, 80)%float (0.1, 0.8)%float n2 0 rng3) as [pfp rng4].
  destruct (firmCount DEFAULT.pmpCountRange rng4) as [n3 rng5].
  pose proof (newFirms_ok "PMP" (30, 140)%float (0.05, 0.6)%float n3 0 rng5) as H3.
  destruct (newFirms "PMP" (30, 140)%float (0.05, 0.6)%float n3 0 rng5) as [pmp rng6].
  destruct (calibrate Math_exp Math_log 40 cs pbc DEFAULT.p0 rng6) as [[p0 rng7] b].
  cbn [fst] in *. split; [|constructor].
  intros lvl. destruct lvl; sim_cbn;
    [apply H1|apply H2|apply H3];
    solve [reflexivity | do 2 eexists; vm_compute; reflexivity].
Qed.

Lemma tickOrders_ok inp s s1 Qagg thrown :
  WF s ->
  tickOrders Math_exp Math_log inp s = (s1, Qagg, thrown) ->
  WF s1 /\ notneg Qagg.
Proof.
  unfold tickOrders. intros W H. pose proof W as [Hf Ho].
  destruct (priceMode inp) eqn:Em; cbn [s_t s_price s_consumers s_rng set_t set_price] in H;
  match type of H with
  | context [updateConsumers ?a ?b ?c ?d ?e ?f ?g ?h ?i] =>
      pose proof (updateConsumers_notneg c d e f g h i eq_refl) as HQ;
      destruct (updateConsumers a b c d e f g h i) as [[cs Q] rng0] eqn:Eu
  end;
  cbn [fst snd] in HQ;
  cbn [s_t s_price s_PBC s_PFP s_orders s_rng set_rng set_consumers set_t set_price] in H;
  match type of H with
  | context [planPBC ?a ?b ?c ?d ?e ?f ?g ?h ?i] =>
      pose proof (planPBC_ok a b c d e f g h i (Hf PBC) Ho) as [Hp Hpo];
      destruct (planPBC a b c d e f g h i) as [[[pbc orders] rng] thr] eqn:Ep
  end;
  cbn [fst snd] in Hp, Hpo;
  destruct thr.
  all: try (inversion H; subst; clear H; split; [|exact HQ];
            split; [intros lvl; destruct lvl; sim_cbn;
                    [exact Hp|apply (Hf PFP)|apply (Hf PMP)]
                   |sim_cbn; exact Hpo]).
  all: cbn [s_t s_PMP s_PFP s_rng set_rng set_orders set_firms] in H.
  all: match type of H with
       | context [produceAll ?a ?b ?c] =>
           pose proof (produceAll_ok a b c (Hf PMP)) as Hm;
           destruct (produceAll a b c) as [pmp rng1]
       end; cbn [fst] in Hm.
  all: match type of H with
       | context [produceAll ?a ?b ?c] =>
           pose proof (produceAll_ok a b c (Hf PFP)) as Hf';
           destruct (produceAll a b c) as [pfp rng2]
       end; cbn [fst] in Hf'.
  all: inversion H; subst; clear H; split; [|exact HQ].
  all: apply processOrders_ok.
  all: split; [intros lvl; destruct lvl; sim_cbn; assumption|sim_cbn; exact Hpo].
Qed.

Lemma simTick_ok inp s :
  WF s ->
  match simTick Math_exp Math_log inp s with
  | Completed s' Qagg Qserved pt =>
      WF s' /\ nonneg Qserved /\ notneg Qagg /\
      (s_price s' <? DEFAULT.pMin)%float = false
  | Thrown s' => WF s'
  end.
Proof.
  intros W.
  destruct (simTick Math_exp Math_log inp s) as [s' Qagg Qserved pt|s'] eqn:E.
  - assert (Hprice : (s_price s' <? DEFAULT.pMin)%float = false).
    { destruct (simTick_price _ _ _ _ _ _ _ _ E) as [-> _].
      destruct (priceMode inp); [unfold adjustPrice|];
        apply Math_max_not_below; reflexivity. }
    unfold simTick in E.
    destruct (tickOrders Math_exp Math_log inp s) as [[s1 Q] thrown] eqn:E1.
    destruct (tickOrders_ok _ _ _ _ _ W E1) as [W1 HQ].
    destruct thrown; [discriminate|]. pose proof W1 as [Hf Ho].
    destruct (serveAll_ok (s_t s1) (s_PBC s1) 0%float (Hf PBC) eq_refl) as [Hs HQs].
    destruct (serveAll (s_t s1) (s_PBC s1) 0%float) as [pbc Qs]. cbn [fst snd] in *.
    inversion E; subst s' Q Qserved pt. clear E.
    split; [|auto].
    apply innovations_ok.
    destruct (priceMode inp); split;
      try (intros lvl; destruct lvl; sim_cbn;
           [exact Hs|apply (Hf PFP)|apply (Hf PMP)]);
      sim_cbn; exact Ho.
  - unfold simTick in E.
    destruct (tickOrders Math_exp Math_log inp s) as [[s1 Q] thrown] eqn:E1.
    destruct (tickOrders_ok _ _ _ _ _ W E1) as [W1 HQ].
    destruct thrown.
    + now inversion E; subst.
    + destruct (serveAll (s_t s1) (s_PBC s1) 0%float) as [pbc Qs]. discriminate.
Qed.

Lemma runSim_ok inps : forall s, WF s -> WF (runSim Math_exp Math_log inps s).
Proof.
  induction inps as [|inp rest IH]; intros s W; cbn [runSim]; [exact W|].
  pose proof (simTick_ok inp s W) as H.
  destruct (simTick Math_exp Math_log inp s) as [s' Qagg Qserved pt|s'].
  - apply IH, H.
  - apply IH, H.
Qed.

End Invariant.

(** C5 (amended).  No inventory, capacity or ordered amount is negative in
    the state that [initSimulation] builds, and a tick keeps it so, whether
    it completes or is left by an exception; hence this holds after every
    tick of every run.  After a completed tick the served quantity is
    [>= 0], the aggregate demand is not negative and the price is not below
    the floor.  The demand, the price and the inventories may however be
    NaN, which is [>=] nothing: each of them satisfies its bound whenever it
    is a number. *)
Theorem nonnegativity_invariant Math_exp Math_log :
  (forall seed inps,
     WF (runSim Math_exp Math_log inps (fst (initSimulation Math_exp Math_log seed)))) /\
  (forall inp s,
     WF s ->
     match simTick Math_exp Math_log inp s with
     | Completed s' Qagg Qserved pt =>
         WF s' /\
         (forall lvl f, In f (firms s' lvl) ->
            (f_inventory f <? 0)%float = false /\
            (is_num (f_inventory f) -> nonneg (f_inventory f))) /\
         nonneg Qserved /\
         (Qagg <? 0)%float = false /\ (is_num Qagg -> nonneg Qagg) /\
         (s_price s' <? DEFAULT.pMin)%float = false /\
         (is_num (s_price s') -> fle DEFAULT.pMin (s_price s'))
     | Thrown s' => WF s'
     end).
Proof.
  split.
  - intros seed inps. apply runSim_ok, initSimulation_ok.
  - intros inp s W. pose proof (simTick_ok Math_exp Math_log inp s W) as H.
    destruct (simTick Math_exp Math_log inp s) as [s' Qagg Qserved pt|s']; [|exact H].
    destruct H as (W' & HQs & HQ & Hp).
    split; [exact W'|]. split; [|split; [exact HQs|]].
    + intros lvl f Hin. destruct W' as [Hf _].
      specialize (Hf lvl). rewrite Forall_forall in Hf.
      destruct (Hf f Hin) as [Hi _]. split; [exact Hi|].
      now apply notneg_num_nonneg.
    + split; [exact HQ|]. split; [now apply notneg_num_nonneg|].
      split; [exact Hp|]. intros Hn. apply not_flt_fle; auto. reflexivity.
Qed.

Lemma nonnegativity_invariant_witness :
  WF busy_sim /\
  exists s' Qagg Qserved pt,
    simTick (fun x => x) (fun x => x) auto_inputs busy_sim = Completed s' Qagg Qserved pt /\
    WF s' /\ nonneg Qserved /\ (s_price s' <? DEFAULT.pMin)%float = false.
Proof.
  assert (W : WF busy_sim).
  { split; [intros lvl; destruct lvl|]; repeat constructor. }
  split; [exact W|].
  destruct (nonnegativity_invariant (fun x => x) (fun x => x)) as [_ H].
  specialize (H auto_inputs busy_sim W).
  destruct (simTick (fun x => x) (fun x => x) auto_inputs busy_sim)
    as [s' Qagg Qserved pt|s'] eqn:E; [|vm_compute in E; discriminate E].
  exists s', Qagg, Qserved, pt. split; [reflexivity|].
  destruct H as (W' & _ & HQs & _ & _ & Hp & _). auto.
Defined.

(** C5 fails as stated.  From a state whose quantities are all finite and
    non-negative, a manual price of 1e308 makes the demand of the consumer
    with the negative slope overflow to [+Infinity]; the next tick, in auto
    mode, computes the gap [Infinity / Infinity] and sets the price to NaN,
    which is not [>=] the floor; from the third tick on the demand is NaN as
    well. *)
Lemma nan_price_counterexample :
  WF overflow_sim /\
  forall Math_exp Math_log,
    let inps := [mkInputs manual 1e308 phaseA None 200;
                 mkInputs auto 1e308 phaseA None 200;
                 mkInputs auto 1e308 phaseA None 200] in
    map (fun pt => is_nan (p_price pt)) (runPoints Math_exp Math_log inps overflow_sim)
    = [false; true; true] /\
    map (fun pt => (DEFAULT.pMin <=? p_price pt)%float)
        (runPoints Math_exp Math_log inps overflow_sim)
    = [true; false; false] /\
    map (fun pt => (0 <=? p_qDemand pt)%float)
        (runPoints Math_exp Math_log inps overflow_sim)
    = [true; true; false] /\
    (DEFAULT.pMin <=? s_price (runSim Math_exp Math_log inps overflow_sim))%float = false.
Proof.
  split.
  - split; [intros lvl; destruct lvl|]; repeat constructor.
  - intros Math_exp Math_log. vm_compute. repeat split.
Qed.

(* ================================================================== *)
(** * Further properties of the code                                    *)
(* ================================================================== *)

(** ** The displayed series *)

Lemma last_snoc {A} (l : list A) (x d : A) : Utilities.last (Some (l ++ [x])) d = x.
Proof.
  unfold Utilities.last. destruct (l ++ [x]) eqn:E.
  - destruct l; discriminate.
  - rewrite <- E.
    assert (Hn : (List.length (l ++ [x]) - 1 = List.length l)%nat)
      by (rewrite length_app; simpl; lia).
    rewrite Hn, app_nth2 by lia. now rewrite Nat.sub_diag.
Qed.

Lemma appendPoint_snoc historyLen prev point :
  (0 < historyLen)%nat ->
  exists kept, appendPoint historyLen prev point = kept ++ [point].
Proof.
  intros H. unfold appendPoint. rewrite length_app. simpl.
  destruct (historyLen <? List.length prev + 1)%nat eqn:L.
  - apply Nat.ltb_lt in L.
    exists (skipn (List.length prev + 1 - historyLen) prev).
    rewrite skipn_app.
    replace (List.length prev + 1 - historyLen - List.length prev)%nat with 0%nat by lia.
    reflexivity.
  - exists prev. reflexivity.
Qed.

(** X1.  [setSeriesData] keeps a rolling window: after a point is
    appended the series holds [min(historyLen, n + 1)] points, and they are
    the most recent ones, in order. *)
Theorem series_window historyLen prev point :
  List.length (appendPoint historyLen prev point)
  = Nat.min historyLen (S (List.length prev)) /\
  exists dropped, prev ++ [point] = dropped ++ appendPoint historyLen prev point.
Proof.
  unfold appendPoint. rewrite length_app. simpl.
  replace (List.length prev + 1)%nat with (S (List.length prev)) by lia.
  destruct (historyLen <? S (List.length prev))%nat eqn:L.
  - apply Nat.ltb_lt in L. split.
    + rewrite length_skipn, length_app. cbn [List.length]. lia.
    + exists (firstn (S (List.length prev) - historyLen) (prev ++ [point])).
      now rewrite firstn_skipn.
  - apply Nat.ltb_ge in L. split; [rewrite length_app; cbn [List.length]; lia|].
    exists []. reflexivity.
Qed.

(** X2.  With a positive history length, the point that the header reads
    with [last(seriesData)] after a completed tick is the point of that
    tick, and it carries the new tick number. *)
Theorem latest_point_shown Math_exp Math_log inp s series s' Qagg Qserved pt d :
  (0 < historyLen inp)%nat ->
  simTick Math_exp Math_log inp s = Completed s' Qagg Qserved pt ->
  Utilities.last (Some (snd (tickDriver Math_exp Math_log inp (s, series)))) d = pt /\
  fst (tickDriver Math_exp Math_log inp (s, series)) = s' /\
  p_t pt = (s_t s + 1)%Z.
Proof.
  intros H E. unfold tickDriver. cbn [fst snd]. rewrite E. cbn [fst snd].
  destruct (appendPoint_snoc (historyLen inp) series pt H) as [kept ->].
  split; [apply last_snoc|]. split; [reflexivity|].
  destruct (simTick_price _ _ _ _ _ _ _ _ E) as (_ & Ht & ->). exact Ht.
Qed.

Lemma latest_point_shown_witness :
  exists pt,
    Utilities.last
      (Some (snd (tickDriver (fun x => x) (fun x => x) auto_inputs (busy_sim, [])))) pt = pt /\
    p_t pt = 1%Z.
Proof.
  destruct (simTick (fun x => x) (fun x => x) auto_inputs busy_sim)
    as [s' Qagg Qserved pt|] eqn:E; [|vm_compute in E; discriminate E].
  exists pt.
  destruct (latest_point_shown (fun x => x) (fun x => x) auto_inputs busy_sim [] s' Qagg
              Qserved pt pt) as (H1 & _ & H2).
  - vm_compute. lia.
  - exact E.
  - split; [exact H1|exact H2].
Defined.

(** ** The log *)

Lemma trimLogs_length s :
  (List.length (s_logs (trimLogs s)) <= 5000)%nat /\
  ((5000 < List.length (s_logs s))%nat -> List.length (s_logs (trimLogs s)) = 2000%nat) /\
  exists dropped, s_logs s = dropped ++ s_logs (trimLogs s).
Proof.
  unfold trimLogs. destruct (5000 <? List.length (s_logs s))%nat eqn:L.
  - apply Nat.ltb_lt in L. cbn [s_logs set_logs].
    rewrite length_skipn. split; [lia|]. split; [lia|].
    exists (firstn (List.length (s_logs s) - 2000) (s_logs s)).
    now rewrite firstn_skipn.
  - apply Nat.ltb_ge in L. split; [exact L|]. split; [lia|]. exists []. reflexivity.
Qed.

(** X3.  The log is bounded: after every completed tick it holds at most
    5000 entries. *)
Theorem log_bounded Math_exp Math_log inp s s' Qagg Qserved pt :
  simTick Math_exp Math_log inp s = Completed s' Qagg Qserved pt ->
  (List.length (s_logs s') <= 5000)%nat.
Proof.
  intros H. destruct (simTick_innovations _ _ _ _ _ _ _ _ H) as (s2 & -> & _).
  apply trimLogs_length.
Qed.

Lemma log_bounded_witness :
  exists s' Qagg Qserved pt,
    simTick (fun x => x) (fun x => x) auto_inputs busy_sim = Completed s' Qagg Qserved pt /\
    (List.length (s_logs s') <= 5000)%nat.
Proof.
  destruct (simTick (fun x => x) (fun x => x) auto_inputs busy_sim)
    as [s' Qagg Qserved pt|] eqn:E; [|vm_compute in E; discriminate E].
  exists s', Qagg, Qserved, pt. split; [reflexivity|].
  exact (log_bounded _ _ _ _ _ _ _ _ E).
Defined.

(** ** The ledger of orders *)

Lemma ledger_grows_refl l : ledger_grows l l.
Proof. intros k o H. exists o. auto. Qed.

Lemma ledger_grows_trans l1 l2 l3 :
  ledger_grows l1 l2 -> ledger_grows l2 l3 -> ledger_grows l1 l3.
Proof.
  intros H1 H2 k o Hk.
  destruct (H1 k o Hk) as (o' & Hk' & Hc & Hf).
  destruct (H2 k o' Hk') as (o'' & Hk'' & Hc' & Hf').
  exists o''. split; [exact Hk''|]. split; [congruence|auto].
Qed.

Lemma ledger_grows_app l new : ledger_grows l (l ++ new).
Proof.
  intros k o H. exists o. split; [|auto].
  rewrite nth_error_app1; [exact H|]. apply nth_error_Some. congruence.
Qed.

Lemma ledger_grows_filled l j : ledger_grows l (update_nth j set_filled l).
Proof.
  intros k o H. destruct (Nat.eq_dec k j) as [->|Hne].
  - exists (set_filled o). split; [now apply update_nth_same|]. split; reflexivity.
  - exists o. rewrite update_nth_other by exact Hne. auto.
Qed.

Lemma processOrder_ledger k s : ledger_grows (s_orders s) (s_orders (processOrder k s)).
Proof.
  unfold processOrder.
  repeat break_match; sim_cbn;
    repeat first
      [ apply ledger_grows_refl
      | apply ledger_grows_app
      | apply ledger_grows_filled
      | eapply ledger_grows_trans; [|apply ledger_grows_filled] ].
Qed.

Lemma processOrders_ledger s : ledger_grows (s_orders s) (s_orders (processOrders s)).
Proof.
  unfold processOrders.
  apply (fold_left_inv (fun x => ledger_grows (s_orders s) (s_orders x)));
    [|apply ledger_grows_refl].
  intros a k H. eapply ledger_grows_trans; [exact H|apply processOrder_ledger].
Qed.

Lemma planPBC_ledger inp t price Qagg sA pfps pbc : forall orders rng,
  ledger_grows orders (snd (fst (fst (planPBC inp t price Qagg sA pfps pbc orders rng)))).
Proof.
  induction pbc as [|f rest IH]; intros orders rng; cbn [planPBC fst snd];
    [apply ledger_grows_refl|].
  destruct (perceivedFn inp Qagg price rng) as [[v rng1]|];
    [|cbn [fst snd]; apply ledger_grows_refl].
  match goal with
  | |- context [let '(o, r) := ?x in _] =>
      assert (Ho1 : ledger_grows orders (fst x));
      [|destruct x as [orders1 rng2]]
  end.
  { repeat break_match; cbn [fst];
      first [apply ledger_grows_refl | apply ledger_grows_app]. }
  cbn [fst] in Ho1. specialize (IH orders1 rng2).
  destruct (planPBC inp t price Qagg sA pfps rest orders1 rng2) as [[[rest' o'] r'] thr].
  cbn [fst snd] in *. eapply ledger_grows_trans; eassumption.
Qed.

Section Ledger.
Variables Math_exp Math_log : float -> float.

Lemma tickOrders_ledger inp s s1 Qagg thrown :
  tickOrders Math_exp Math_log inp s = (s1, Qagg, thrown) ->
  ledger_grows (s_orders s) (s_orders s1).
Proof.
  unfold tickOrders. intros H.
  destruct (priceMode inp) eqn:Em; cbn [s_t s_price s_consumers s_rng set_t set_price] in H;
  match type of H with
  | context [updateConsumers ?a ?b ?c ?d ?e ?f ?g ?h ?i] =>
      destruct (updateConsumers a b c d e f g h i) as [[cs Q] rng0] eqn:Eu
  end;
  cbn [s_t s_price s_PBC s_PFP s_orders s_rng set_rng set_consumers set_t set_price] in H;
  match type of H with
  | context [planPBC ?a ?b ?c ?d ?e ?f ?g ?h ?i] =>
      pose proof (planPBC_ledger a b c d e f g h i) as Hp;
      destruct (planPBC a b c d e f g h i) as [[[pbc orders] rng] thr] eqn:Ep
  end;
  cbn [fst snd] in Hp;
  destruct thr.
  all: try (inversion H; subst; clear H; sim_cbn; exact Hp).
  all: cbn [s_t s_PMP s_PFP s_rng set_rng set_orders set_firms] in H.
  all: repeat match type of H with
       | context [produceAll ?a ?b ?c] => destruct (produceAll a b c) as [? ?]
       end.
  all: inversion H; subst; clear H.
  all: eapply ledger_grows_trans; [exact Hp|].
  all: match goal with
       | |- ledger_grows _ (s_orders (processOrders ?x)) =>
           apply (processOrders_ledger x)
       end.
Qed.

End Ledger.

(** X4.  The ledger is never swept.  Whether a tick completes or is left
    by an exception, every order is still at its position afterwards with
    the same level, firms, amount, due tick and parent; only its [filled]
    flag can have changed, and only from false to true. *)
Theorem ledger_append_only Math_exp Math_log inp s :
  match simTick Math_exp Math_log inp s with
  | Completed s' _ _ _ | Thrown s' =>
      (List.length (s_orders s) <= List.length (s_orders s'))%nat /\
      forall k o, nth_error (s_orders s) k = Some o ->
        exists o', nth_error (s_orders s') k = Some o' /\
                   order_core o' = order_core o /\
                   (o_filled o = true -> o_filled o' = true)
  end.
Proof.
  assert (Hlen : forall l l', ledger_grows l l' -> (List.length l <= List.length l')%nat).
  { intros l l' H. destruct l as [|o0 r] eqn:El; [simpl; lia|]. rewrite <- El in *.
    destruct (nth_error l (List.length l - 1)) as [o|] eqn:E.
    - destruct (H _ _ E) as (o' & E' & _).
      assert (List.length l - 1 < List.length l')%nat
        by (apply nth_error_Some; congruence).
      lia.
    - apply nth_error_None in E. subst l. simpl in E. lia. }
  unfold simTick.
  destruct (tickOrders Math_exp Math_log inp s) as [[s1 Q] thrown] eqn:E.
  pose proof (tickOrders_ledger _ _ _ _ _ _ _ E) as H.
  destruct thrown; [split; [now apply Hlen|exact H]|].
  destruct (serveAll (s_t s1) (s_PBC s1) 0%float) as [pbc Qs].
  rewrite trimLogs_orders, adoptInnovations_orders, scheduleInnovation_orders.
  destruct (priceMode inp); sim_cbn; (split; [now apply Hlen|exact H]).
Qed.

Lemma ledger_append_only_witness :
  match simTick (fun x => x) (fun x => x) auto_inputs short_sim with
  | Completed s' _ _ _ | Thrown s' =>
      exists o', nth_error (s_orders s') 0 = Some o' /\ order_core o' = order_core short_order
  end.
Proof.
  pose proof (ledger_append_only (fun x => x) (fun x => x) auto_inputs short_sim) as H.
  destruct (simTick (fun x => x) (fun x => x) auto_inputs short_sim) as [s' Qagg Qserved pt|s'];
    destruct H as [_ H];
    destruct (H 0%nat short_order eq_refl) as (o' & H1 & H2 & _);
    exists o'; split; assumption.
Defined.

(** ** The population *)

Lemma planPBC_map {B} (h : Firm -> B) inp t price Qagg sA pfps pbc :
  (forall v f, h (set_planned v f) = h f) ->
  forall orders rng,
    map h (fst (fst (fst (planPBC inp t price Qagg sA pfps pbc orders rng)))) = map h pbc.
Proof.
  intros Hh. induction pbc as [|f rest IH]; intros orders rng; cbn [planPBC map fst];
    [reflexivity|].
  destruct (perceivedFn inp Qagg price rng) as [[v rng1]|]; [|reflexivity].
  match goal with
  | |- context [let '(o, r) := ?x in _] => destruct x as [orders1 rng2]
  end.
  specialize (IH orders1 rng2).
  destruct (planPBC inp t price Qagg sA pfps rest orders1 rng2) as [[[rest' o'] r'] thr].
  cbn [fst map] in *. now rewrite IH, Hh.
Qed.

Lemma produceAll_map {B} (h : Firm -> B) t fs :
  (forall v f, h (set_inventory v f) = h f) ->
  (forall v f, h (push_history v f) = h f) ->
  forall rng, map h (fst (produceAll t fs rng)) = map h fs.
Proof.
  intros H1 H2. induction fs as [|f rest IH]; intros rng; cbn [produceAll map fst];
    [reflexivity|].
  unfold produce. destruct (mulberry32 rng) as [u rng1].
  specialize (IH rng1). destruct (produceAll t rest rng1) as [rest' rng2].
  cbn [fst map] in *. now rewrite IH, H2, H1.
Qed.

Lemma updateConsumer_id Math_exp Math_log inp t prev price c rng :
  c_id (fst (fst (updateConsumer Math_exp Math_log inp t prev price c rng))) = c_id c.
Proof.
  unfold updateConsumer.
  repeat match goal with
  | |- context [let '(_, _) := ?x in _] => destruct x eqn:?
  | |- context [if ?x then _ else _] => destruct x eqn:?
  end;
  repeat match goal with
  | H : context [if ?x then _ else _] |- _ => destruct x eqn:?
  | H : context [let '(_, _) := ?x in _] |- _ => destruct x eqn:?
  | H : (_, _) = (_, _) |- _ => injection H; clear H; intros; subst
  end;
  reflexivity.
Qed.

Lemma updateConsumers_ids Math_exp Math_log inp t prev price cs : forall Q rng,
  map c_id (fst (fst (updateConsumers Math_exp Math_log inp t prev price cs Q rng)))
  = map c_id cs.
Proof.
  induction cs as [|c rest IH]; intros Q rng; cbn [updateConsumers map fst];
    [reflexivity|].
  pose proof (updateConsumer_id Math_exp Math_log inp t prev price c rng) as Hc.
  destruct (updateConsumer Math_exp Math_log inp t prev price c rng) as [[c' q] rng1].
  specialize (IH (Q + q)%float rng1).
  destruct (updateConsumers Math_exp Math_log inp t prev price rest (Q + q) rng1)
    as [[rest' Q'] rng2].
  cbn [fst map] in *. now rewrite IH, Hc.
Qed.

Lemma scheduleInnovation_consumers s :
  s_consumers (scheduleInnovation s) = s_consumers s.
Proof. unfold scheduleInnovation. repeat break_match; reflexivity. Qed.

Lemma adoptInnovation_consumers k s : s_consumers (adoptInnovation k s) = s_consumers s.
Proof.
  unfold adoptInnovation. repeat break_match; try reflexivity;
    destruct (i_level _); reflexivity.
Qed.

Lemma adoptInnovations_consumers s : s_consumers (adoptInnovations s) = s_consumers s.
Proof.
  unfold adoptInnovations.
  apply (fold_left_inv (fun x => s_consumers x = s_consumers s)); auto.
  intros a k H. now rewrite adoptInnovation_consumers.
Qed.

Lemma trimLogs_consumers s : s_consumers (trimLogs s) = s_consumers s.
Proof. unfold trimLogs. break_match; reflexivity. Qed.

Lemma stock_identity l l' :
  map stock l = map stock l' -> map firm_identity l = map firm_identity l'.
Proof.
  intros H. apply (f_equal (map (fun p => (fst (fst (fst (fst p))), snd (fst (fst (fst p))))))) in H.
  rewrite !map_map in H. exact H.
Qed.

Section Population.
Variables Math_exp Math_log : float -> float.

Lemma tickOrders_identity inp s s1 Qagg thrown :
  tickOrders Math_exp Math_log inp s = (s1, Qagg, thrown) ->
  forall lvl, map firm_identity (firms s1 lvl) = map firm_identity (firms s lvl).
Proof.
  unfold tickOrders. intros H.
  destruct (priceMode inp) eqn:Em; cbn [s_t s_price s_consumers s_rng set_t set_price] in H;
  match type of H with
  | context [updateConsumers ?a ?b ?c ?d ?e ?f ?g ?h ?i] =>
      destruct (updateConsumers a b c d e f g h i) as [[cs Q] rng0] eqn:Eu
  end;
  cbn [s_t s_price s_PBC s_PFP s_orders s_rng set_rng set_consumers set_t set_price] in H;
  match type of H with
  | context [planPBC ?a ?b ?c ?d ?e ?f ?g ?h ?i] =>
      pose proof (planPBC_map firm_identity a b c d e f g (fun _ _ => eq_refl) h i) as Hp;
      destruct (planPBC a b c d e f g h i) as [[[pbc orders] rng] thr] eqn:Ep
  end;
  cbn [fst] in Hp;
  destruct thr.
  all: try (inversion H; subst; clear H;
            intros lvl; destruct lvl; sim_cbn; solve [auto]).
  all: cbn [s_t s_PMP s_PFP s_rng set_rng set_orders set_firms] in H.
  all: match type of H with
       | context [produceAll ?a ?b ?c] =>
           pose proof (produceAll_map firm_identity a b (fun _ _ => eq_refl)
                         (fun _ _ => eq_refl) c) as Hm;
           destruct (produceAll a b c) as [pmp rng1]
       end; cbn [fst] in Hm.
  all: match type of H with
       | context [produceAll ?a ?b ?c] =>
           pose proof (produceAll_map firm_identity a b (fun _ _ => eq_refl)
                         (fun _ _ => eq_refl) c) as Hf;
           destruct (produceAll a b c) as [pfp rng2]
       end; cbn [fst] in Hf.
  all: inversion H; subst; clear H.
  all: intros lvl; rewrite processOrders_firms_map by reflexivity;
       destruct lvl; sim_cbn; auto.
Qed.

End Population.

(** X5.  A tick neither creates nor removes a consumer or a firm, and it
    never changes a firm's capacity: whether it completes or is left by an
    exception, the consumers' ids and, in each tier, the firms' ids and
    capacities are afterwards what they were, in the same order. *)
Theorem population_fixed Math_exp Math_log inp s :
  match simTick Math_exp Math_log inp s with
  | Completed s' _ _ _ | Thrown s' =>
      map c_id (s_consumers s') = map c_id (s_consumers s) /\
      forall lvl, map firm_identity (firms s' lvl) = map firm_identity (firms s lvl)
  end.
Proof.
  destruct (simTick Math_exp Math_log inp s) as [s' Qagg Qserved pt|s'] eqn:E.
  - destruct (simTick_serve _ _ _ _ _ _ _ _ E) as (s1 & E1 & _ & Hb & Hf & Hm & _).
    destruct (tickOrders_planning _ _ _ _ _ _ _ E1)
      as (cs & rng0 & pbc & orders & rng & Hu & _ & _ & Hc & _).
    pose proof (tickOrders_identity _ _ _ _ _ _ _ E1) as Hi.
    split.
    + unfold simTick in E. rewrite E1 in E.
      destruct (serveAll (s_t s1) (s_PBC s1) 0%float) as [pbc' Qs].
      inversion E; subst s'. clear E.
      rewrite trimLogs_consumers, adoptInnovations_consumers, scheduleInnovation_consumers.
      assert (Hs : forall x, s_consumers (set_firms PBC pbc' x) = s_consumers x)
        by reflexivity.
      destruct (priceMode inp); sim_cbn; rewrite Hc;
        rewrite <- (updateConsumers_ids Math_exp Math_log inp (s_t s + 1) (s_price s)
                      (planning_price inp s) (s_consumers s) 0%float (s_rng s));
        now rewrite Hu.
    + intros lvl. rewrite <- (Hi lvl).
      destruct lvl; sim_cbn;
        [|apply stock_identity; exact Hf|apply stock_identity; exact Hm].
      rewrite (stock_identity _ _ Hb), map_map. reflexivity.
  - unfold simTick in E.
    destruct (tickOrders Math_exp Math_log inp s) as [[s1 Q] thrown] eqn:E1.
    destruct (tickOrders_planning _ _ _ _ _ _ _ E1)
      as (cs & rng0 & pbc & orders & rng & Hu & _ & _ & Hc & _).
    pose proof (tickOrders_identity _ _ _ _ _ _ _ E1) as Hi.
    destruct thrown.
    + inversion E; subst s'. split; [|exact Hi].
      rewrite Hc.
      rewrite <- (updateConsumers_ids Math_exp Math_log inp (s_t s + 1) (s_price s)
                    (planning_price inp s) (s_consumers s) 0%float (s_rng s)).
      now rewrite Hu.
    + destruct (serveAll (s_t s1) (s_PBC s1) 0%float) as [pbc' Qs]. discriminate.
Qed.

(** ** Runs *)

Lemma planPBC_never_throws inp t price Qagg sA pfps pbc :
  never_throws inp ->
  forall orders rng,
    snd (planPBC inp t price Qagg sA pfps pbc orders rng) = false.
Proof.
  intros Hn. induction pbc as [|f rest IH]; intros orders rng; cbn [planPBC snd];
    [reflexivity|].
  assert (Hp : perceivedFn inp Qagg price rng <> None).
  { unfold perceivedFn. unfold never_throws in Hn.
    destruct (userDemandFn inp) as [fn|].
    - specialize (Hn price). destruct (fn price); [discriminate|congruence].
    - destruct (mulberry32 rng). discriminate. }
  destruct (perceivedFn inp Qagg price rng) as [[v rng1]|]; [|congruence].
  match goal with
  | |- context [let '(o, r) := ?x in _] => destruct x as [orders1 rng2]
  end.
  specialize (IH orders1 rng2).
  destruct (planPBC inp t price Qagg sA pfps rest orders1 rng2) as [[[rest' o'] r'] thr].
  exact IH.
Qed.

Section Runs.
Variables Math_exp Math_log : float -> float.

Lemma simTick_t inp s :
  match simTick Math_exp Math_log inp s with
  | Completed s' _ _ pt => s_t s' = (s_t s + 1)%Z /\ p_t pt = (s_t s + 1)%Z
  | Thrown s' => s_t s' = (s_t s + 1)%Z
  end.
Proof.
  destruct (simTick Math_exp Math_log inp s) as [s' Qagg Qserved pt|s'] eqn:E.
  - destruct (simTick_price _ _ _ _ _ _ _ _ E) as (_ & Ht & ->). split; exact Ht.
  - unfold simTick in E.
    destruct (tickOrders Math_exp Math_log inp s) as [[s1 Q] thrown] eqn:E1.
    destruct (tickOrders_price_t _ _ _ _ _ _ _ E1) as [_ Ht].
    destruct thrown.
    + now inversion E; subst.
    + destruct (serveAll (s_t s1) (s_PBC s1) 0%float). discriminate.
Qed.

Lemma simTick_never_throws inp s :
  never_throws inp ->
  exists s' Qagg Qserved pt, simTick Math_exp Math_log inp s = Completed s' Qagg Qserved pt.
Proof.
  intros Hn.
  destruct (tickOrders Math_exp Math_log inp s) as [[s1 Q] thrown] eqn:E.
  destruct (tickOrders_planning _ _ _ _ _ _ _ E)
    as (cs & rng0 & pbc & orders & rng & _ & Hp & _).
  pose proof (planPBC_never_throws inp (s_t s + 1) (planning_price inp s) Q
                (sumA (s_PBC s)) (s_PFP s) (s_PBC s) Hn (s_orders s) rng0) as Ht.
  rewrite Hp in Ht. cbn [snd] in Ht. subst thrown.
  destruct (simTick_of_tickOrders _ _ _ _ _ _ E) as (s' & Qs & pt & H). eauto.
Qed.

Lemma run_t inps : forall s,
  s_t (runSim Math_exp Math_log inps s) = (s_t s + Z.of_nat (List.length inps))%Z /\
  (List.length (runPoints Math_exp Math_log inps s) <= List.length inps)%nat /\
  (Forall never_throws inps ->
   map p_t (runPoints Math_exp Math_log inps s)
   = map (fun k => (s_t s + Z.of_nat k + 1)%Z) (seq 0 (List.length inps))).
Proof.
  induction inps as [|inp rest IH]; intros s; cbn [runSim runPoints List.length].
  - split; [lia|]. split; [lia|]. reflexivity.
  - pose proof (simTick_t inp s) as Ht.
    destruct (simTick Math_exp Math_log inp s) as [s' Qagg Qserved pt|s'] eqn:E.
    + destruct Ht as [Ht Hp]. destruct (IH s') as (H1 & H2 & H3).
      split; [rewrite H1, Ht; lia|]. split; [simpl; lia|].
      intros HF. inversion HF as [|? ? Hn Hr]; subst.
      cbn [map seq]. rewrite Hp, (H3 Hr). f_equal; [lia|].
      rewrite <- seq_shift, map_map. apply map_ext. intros k. rewrite Ht. lia.
    + destruct (IH s') as (H1 & H2 & H3).
      split; [rewrite H1, Ht; lia|]. split; [lia|].
      intros HF. inversion HF as [|? ? Hn Hr]; subst.
      destruct (simTick_never_throws inp s Hn) as (x1 & x2 & x3 & x4 & Hx).
      congruence.
Qed.

End Runs.

(** X6.  Every tick, completed or not, advances the tick counter by
    one, so a run of [n] ticks ends at tick [t + n] and records at most [n]
    points.  When no planner function throws, every tick completes: the run
    records exactly [n] points, numbered [t + 1, ..., t + n]. *)
Theorem run_ticks Math_exp Math_log inps s :
  s_t (runSim Math_exp Math_log inps s) = (s_t s + Z.of_nat (List.length inps))%Z /\
  (List.length (runPoints Math_exp Math_log inps s) <= List.length inps)%nat /\
  (Forall never_throws inps ->
   map p_t (runPoints Math_exp Math_log inps s)
   = map (fun k => (s_t s + Z.of_nat k + 1)%Z) (seq 0 (List.length inps))).
Proof. apply run_t. Qed.

Lemma run_ticks_witness :
  map p_t (runPoints (fun x => x) (fun x => x) [auto_inputs; nan_inputs; manual_inputs 2]
                     busy_sim)
  = [1; 2; 3]%Z.
Proof.
  destruct (run_ticks (fun x => x) (fun x => x) [auto_inputs; nan_inputs; manual_inputs 2]
              busy_sim) as (_ & _ & H).
  rewrite H; [reflexivity|].
  repeat constructor. intros p. discriminate.
Defined.

(** ** Demand, reaction and dispersion *)

Lemma fold_left_notneg {A} (g : A -> float) (l : list A) :
  (forall x, notneg (g x)) ->
  forall Q, notneg Q -> notneg (fold_left (fun Q x => (Q + g x)%float) l Q).
Proof.
  intros Hg. induction l as [|x r IH]; intros Q HQ; simpl; [exact HQ|].
  apply IH. apply add_notneg; auto.
Qed.

(** X7.  Demand is never negative: at any price, NaN included, the noisy
    demand of a consumer and the oracle demand of the population are
    [>= 0] or NaN, never [< 0]. *)
Theorem demand_never_negative Math_exp Math_log s c p rng :
  (fst (computeConsumerDemand Math_exp Math_log c p rng) <? 0)%float = false /\
  (oracleDemandAt Math_exp Math_log s p <? 0)%float = false.
Proof.
  split; [apply computeConsumerDemand_notneg|].
  unfold oracleDemandAt.
  apply (fold_left_notneg
           (fun c =>
              match c_type c with
              | linear => Math_max 0 (c_a c - c_b c * p)
              | log => Math_max 0 (c_a c - c_b c * Math_log (1 + Math_max 0 p))
              | exp => Math_max 0 (c_a c * Math_exp (- c_b c * p))
              | poly => Math_max 0 (c_a c - c_b c * p - Math_max 0.001 (c_b c * 0.01) * p * p)
              end)%float).
  - intros x. destruct (c_type x); apply Math_max_zero_notneg.
  - reflexivity.
Qed.

(** X8.  [consumerReact] leaves the demand and the generator alone when
    the price has not changed; otherwise it takes exactly two draws and
    returns a factor of at least 0.7. *)
Theorem consumerReact_factor prev price rng :
  ((price =? prev)%float = true -> consumerReact prev price rng = (1%float, rng)) /\
  ((price =? prev)%float = false ->
   snd (consumerReact prev price rng) = snd (mulberry32 (snd (mulberry32 rng))) /\
   fle 0.7 (fst (consumerReact prev price rng))).
Proof.
  unfold consumerReact. split; intros E; rewrite E; [reflexivity|].
  destruct (mulberry32 rng) as [roll rng1]. cbn [snd].
  assert (H : forall a b,
             nonneg a -> positive_finite (b - a) -> fle 0.7 a ->
             snd (randRange rng1 a b) = snd (mulberry32 rng1) /\
             fle 0.7 (fst (randRange rng1 a b))).
  { intros a b Ha Hb Hle. split.
    - unfold randRange. now destruct (mulberry32 rng1).
    - eapply fle_trans; [exact Hle|]. now apply randRange_lower. }
  repeat break_match; apply H;
    solve [reflexivity | do 2 eexists; vm_compute; reflexivity].
Qed.

Lemma consumerReact_factor_witness :
  consumerReact 1 1 12345%float = (1%float, 12345%float) /\
  fle 0.7 (fst (consumerReact 1 2 12345%float)).
Proof.
  destruct (consumerReact_factor 1 1 12345%float) as [H1 _].
  destruct (consumerReact_factor 1 2 12345%float) as [_ H2].
  split; [apply H1; reflexivity|apply H2; reflexivity].
Defined.

Lemma SFdiv_notneg_count x y :
  SFnotneg x = true -> SFsign_is false y -> SFnotneg (SF64div x y) = true.
Proof.
  intros Hx Hy.
  destruct y as [sy|sy| |sy my ey]; simpl in Hy; try contradiction; subst sy.
  - destruct x as [sx|sx| |sx mx ex]; try destruct sx; try discriminate; reflexivity.
  - destruct x as [sx|sx| |sx mx ex]; try destruct sx; try discriminate; reflexivity.
  - apply SFdiv_notneg; [exact Hx|reflexivity].
Qed.

Lemma of_nat_sign n : SFsign_is false (Prim2SF (of_nat n)).
Proof.
  unfold of_nat, of_int. rewrite of_uint63_spec.
  pose proof (Uint63.to_Z_bounded (Uint63.of_Z (Z.of_nat n))) as [H _].
  unfold binary_normalize.
  destruct (Uint63Axioms.to_Z _) eqn:E; try reflexivity.
  - apply binary_round_sign.
  - exfalso. lia.
Qed.

Lemma variance_notneg arr : notneg (variance arr).
Proof.
  unfold variance. destruct arr as [|a r]; [reflexivity|].
  set (l := a :: r).
  change (notneg (fold_left (fun a b => a + sq (b - sum_floats l / of_nat (List.length l))) l 0
                  / of_nat (List.length l))%float).
  rewrite notneg_SF, div_spec.
  apply SFdiv_notneg_count; [|apply of_nat_sign].
  apply notneg_SF.
  apply (fold_left_notneg
           (fun b => sq (b - sum_floats l / of_nat (List.length l))%float)).
  - intros x. apply sq_notneg.
  - reflexivity.
Qed.

(** X9.  [variance] is [0] for an empty array and never negative: for
    any array it is [>= 0] or NaN. *)
Theorem variance_never_negative arr :
  variance [] = 0%float /\ (variance arr <? 0)%float = false.
Proof. split; [reflexivity|apply variance_notneg]. Qed.

(** ** [clamp] *)

Lemma Math_max_cases a b : is_num a -> is_num b -> Math_max a b = a \/ Math_max a b = b.
Proof.
  unfold Math_max, is_num. intros -> ->. simpl.
  destruct (a <? b)%float; auto. destruct (b <? a)%float; auto. destruct (get_sign a); auto.
Qed.

Lemma Math_max_ge_l a b : is_num a -> is_num b -> fle a (Math_max a b).
Proof.
  intros Ha Hb. unfold Math_max. unfold is_num in *. rewrite Ha, Hb. simpl.
  destruct (a <? b)%float eqn:L; [now apply flt_fle|].
  destruct (b <? a)%float eqn:L'; [now apply fle_refl|].
  destruct (get_sign a); [now apply not_flt_fle|]. now apply fle_refl.
Qed.

Lemma Math_max_ge_r a b : is_num a -> is_num b -> fle b (Math_max a b).
Proof.
  intros Ha Hb. unfold Math_max. unfold is_num in *. rewrite Ha, Hb. simpl.
  destruct (a <? b)%float eqn:L; [now apply fle_refl|].
  destruct (b <? a)%float eqn:L'; [now apply flt_fle|].
  destruct (get_sign a); [now apply fle_refl|]. now apply not_flt_fle.
Qed.

Lemma Math_max_lub c a b :
  is_num a -> is_num b -> fle a c -> fle b c -> fle (Math_max a b) c.
Proof. intros Ha Hb H1 H2. destruct (Math_max_cases a b Ha Hb) as [-> | ->]; assumption. Qed.

Lemma Math_nan_r_min b x : is_nan x = true -> is_nan (Math_min b x) = true.
Proof. intros H. unfold Math_min. rewrite H, orb_true_r. reflexivity. Qed.

Lemma Math_nan_r_max a x : is_nan x = true -> is_nan (Math_max a x) = true.
Proof. intros H. unfold Math_max. rewrite H, orb_true_r. reflexivity. Qed.

(** X10.  For bounds [a <= b], [clamp(x, a, b)] lies between [a] and [b]
    for every number [x], equals [x] when [x] already lies between them,
    and is NaN when [x] is NaN. *)
Theorem clamp_bounds x a b :
  fle a b ->
  (is_num x ->
   fle a (clamp x a b) /\ fle (clamp x a b) b /\
   (fle a x -> fle x b -> feq (clamp x a b) x)) /\
  (is_nan x = true -> is_nan (clamp x a b) = true).
Proof.
  intros Hab. destruct (fle_is_num _ _ Hab) as [Na Nb]. unfold clamp. split.
  - intros Nx.
    assert (Nm : is_num (Math_min b x)) by now apply Math_min_is_num.
    split; [now apply Math_max_ge_l|].
    split; [apply Math_max_lub; auto; now apply Math_min_le_l|].
    intros Hax Hxb. apply feq_fle. split.
    + apply Math_max_lub; auto. now apply Math_min_le_r.
    + eapply fle_trans; [|now apply Math_max_ge_r].
      apply Math_min_glb; auto. now apply fle_refl.
  - intros Hx. now apply Math_nan_r_max, Math_nan_r_min.
Qed.

Lemma clamp_bounds_witness :
  fle 1 (clamp 7 1 5) /\ fle (clamp 7 1 5) 5 /\ feq (clamp 3 1 5) 3.
Proof.
  destruct (clamp_bounds 7 1 5 eq_refl) as [H _].
  destruct (H eq_refl) as (H1 & H2 & _).
  destruct (clamp_bounds 3 1 5 eq_refl) as [H' _].
  destruct (H' eq_refl) as (_ & _ & H3).
  split; [exact H1|]. split; [exact H2|]. apply H3; reflexivity.
Defined.

(** ** The generator *)

Lemma lxor_32 a b :
  0 <= a < 4294967296 -> 0 <= b < 4294967296 -> 0 <= Z.lxor a b < 4294967296.
Proof.
  intros Ha Hb. split; [apply Z.lxor_nonneg; lia|].
  destruct (Z.eq_dec (Z.lxor a b) 0) as [->|Hne]; [lia|].
  assert (Hpos : 0 < Z.lxor a b) by (pose proof (proj2 (Z.lxor_nonneg a b)); lia).
  change 4294967296 with (2 ^ 32). apply Z.log2_lt_pow2; [exact Hpos|].
  pose proof (Z.log2_lxor a b (proj1 Ha) (proj1 Hb)) as Hl.
  assert (La : Z.log2 a < 32).
  { destruct (Z.eq_dec a 0) as [->|]; [reflexivity|].
    apply Z.log2_lt_pow2; [lia|]. change (2 ^ 32) with 4294967296. lia. }
  assert (Lb : Z.log2 b < 32).
  { destruct (Z.eq_dec b 0) as [->|]; [reflexivity|].
    apply Z.log2_lt_pow2; [lia|]. change (2 ^ 32) with 4294967296. lia. }
  lia.
Qed.

Lemma land_32 a : 0 <= Z.land a 4294967295 < 4294967296.
Proof.
  change 4294967295 with (Z.ones 32). rewrite Z.land_ones by lia.
  change (2 ^ 32) with 4294967296. apply Z.mod_pos_bound. lia.
Qed.

Lemma shiftr_32 a n : 0 <= n -> 0 <= a < 4294967296 -> 0 <= Z.shiftr a n < 4294967296.
Proof.
  intros Hn Ha. rewrite Z.shiftr_div_pow2 by exact Hn.
  assert (0 < 2 ^ n) by (apply Z.pow_pos_nonneg; lia).
  split; [apply Z.div_pos; lia|].
  apply Z.le_lt_trans with a; [|lia].
  apply Z.div_le_upper_bound; [lia|]. nia.
Qed.

Lemma mulberry32_bits_eq a :
  fst (mulberry32 a) = (of_int (mulberry32_bits a) / 4294967296)%float.
Proof. reflexivity. Qed.

Lemma mulberry32_bits_range a : 0 <= mulberry32_bits a < 4294967296.
Proof.
  unfold mulberry32_bits. cbv zeta.
  set (t1 := Math_imul _ _).
  assert (H1 : 0 <= t1 < 4294967296) by apply land_32.
  set (t2 := Z.lxor t1 _).
  assert (H2 : 0 <= t2 < 4294967296) by (apply lxor_32; [exact H1|apply land_32]).
  apply lxor_32; [exact H2|]. apply shiftr_32; [lia|exact H2].
Qed.

(** Rounding a mantissa of 53 digits, or twice one, is exact. *)
Lemma binary_round_aux_exact sx m e :
  Z.pos (digits2_pos m) = 53 -> -1074 <= e -> e <= 971 ->
  binary_round_aux prec emax sx (Z.pos m) e loc_Exact = S754_finite sx m e.
Proof.
  intros Hd He1 He2.
  assert (Hs : forall l, shr_fexp prec emax (Z.pos m) e l = (shr_record_of_loc (Z.pos m) l, e)).
  { intros l. unfold shr_fexp. cbn [Zdigits2]. rewrite Hd, fexp_eq.
    replace (Z.max (53 + e - 53) (-1074) - e) with 0 by lia. reflexivity. }
  unfold binary_round_aux. rewrite Hs. cbn [shr_record_of_loc shr_m loc_of_shr_record
                                             round_nearest_even].
  rewrite Hs. cbn [shr_record_of_loc shr_m].
  replace (e <=? emax - prec) with true; [reflexivity|].
  symmetry. apply Z.leb_le. change (emax - prec) with 971. exact He2.
Qed.

Lemma binary_round_aux_exact_double sx m e :
  Z.pos (digits2_pos m) = 53 -> -1074 <= e -> e <= 971 ->
  binary_round_aux prec emax sx (Z.pos m~0) (e - 1) loc_Exact = S754_finite sx m e.
Proof.
  intros Hd He1 He2.
  assert (Hs1 : shr_fexp prec emax (Z.pos m~0) (e - 1) loc_Exact
                = (Build_shr_record (Z.pos m) false false, e)).
  { unfold shr_fexp. cbn [Zdigits2 digits2_pos]. rewrite Pos2Z.inj_succ, Hd, fexp_eq.
    replace (Z.max (Z.succ 53 + (e - 1) - 53) (-1074) - (e - 1)) with 1 by lia.
    cbn [shr shr_record_of_loc iter_pos shr_1 orb]. f_equal. lia. }
  assert (Hs : shr_fexp prec emax (Z.pos m) e loc_Exact
               = (shr_record_of_loc (Z.pos m) loc_Exact, e)).
  { unfold shr_fexp. cbn [Zdigits2]. rewrite Hd, fexp_eq.
    replace (Z.max (53 + e - 53) (-1074) - e) with 0 by lia. reflexivity. }
  unfold binary_round_aux. rewrite Hs1.
  cbn [shr_m loc_of_shr_record round_nearest_even]. rewrite Hs.
  cbn [shr_record_of_loc shr_m].
  replace (e <=? emax - prec) with true; [reflexivity|].
  symmetry. apply Z.leb_le. change (emax - prec) with 971. exact He2.
Qed.

(** An integer below [2^32], as a number: a mantissa of 53 digits with an
    exponent of at most [-21]. *)
Lemma of_int_32 k :
  0 < k < 4294967296 ->
  exists m e, Prim2SF (of_int k) = S754_finite false m e /\
              Z.pos (digits2_pos m) = 53 /\ -52 <= e <= -21.
Proof.
  intros Hk. unfold of_int. rewrite of_uint63_spec.
  assert (Hz : Uint63Axioms.to_Z (Uint63.of_Z k) = k).
  { rewrite Uint63.of_Z_spec. apply Z.mod_small.
    change Uint63.wB with 9223372036854775808. lia. }
  rewrite Hz. destruct k as [|pk|pk]; try lia.
  unfold binary_normalize, binary_round.
  pose proof (digits2_pos_bounds pk) as [B1 B2].
  set (d := Z.pos (digits2_pos pk)) in *.
  assert (Hd : 1 <= d <= 32).
  { split; [unfold d; lia|].
    assert (2 ^ (d - 1) < 2 ^ 32) by (change (2 ^ 32) with 4294967296; lia).
    apply Z.pow_lt_mono_r_iff in H; lia. }
  rewrite Z.add_0_r, fexp_eq. replace (Z.max (d - 53) (-1074)) with (d - 53) by lia.
  destruct (shl_align_value pk 0 (d - 53)) as [Hv Hdig]; [lia|].
  assert (Hsnd : snd (shl_align pk 0 (d - 53)) = d - 53).
  { unfold shl_align. destruct (d - 53 - 0) eqn:E; try lia. reflexivity. }
  destruct (shl_align pk 0 (d - 53)) as [mz ez]. cbn [fst snd] in *. subst ez.
  fold d in Hdig.
  exists mz, (d - 53). split; [|split; [lia|lia]].
  apply binary_round_aux_exact; lia.
Qed.

(** Division by [2^32] of such a number only moves the exponent. *)
Lemma SFdiv_pow32 m e :
  Z.pos (digits2_pos m) = 53 -> -52 <= e <= -21 ->
  SF64div (S754_finite false m e) (S754_finite false 4503599627370496 (-20))
  = S754_finite false m (e - 32).
Proof.
  intros Hd He. unfold SF64div, SFdiv, SFdiv_core_binary.
  cbn [Zdigits2 xorb]. rewrite Hd.
  change (Z.pos (digits2_pos 4503599627370496)) with 53.
  rewrite fexp_eq.
  replace (Z.min (Z.max (53 + e - (53 + -20) - 53) (-1074)) (e - -20)) with (e - 33) by lia.
  replace (e - -20 - (e - 33)) with 53 by lia.
  cbv iota beta.
  assert (Hm : Z.shiftl (Z.pos m) 53 = Z.pos m~0 * 4503599627370496).
  { rewrite Z.shiftl_mul_pow2 by lia. change (2 ^ 53) with (2 * 4503599627370496).
    rewrite Pos2Z.inj_xO. lia. }
  rewrite Hm.
  destruct (Z.div_eucl (Z.pos m~0 * 4503599627370496) 4503599627370496) as [q r] eqn:E.
  assert (Hq : q = Z.pos m~0).
  { transitivity ((Z.pos m~0 * 4503599627370496) / 4503599627370496).
    - unfold Z.div. now rewrite E.
    - apply Z.div_mul. lia. }
  assert (Hr : r = 0).
  { transitivity ((Z.pos m~0 * 4503599627370496) mod 4503599627370496).
    - unfold Z.modulo. now rewrite E.
    - apply Z.mod_mul. lia. }
  subst q r.
  change (new_location 4503599627370496 0) with loc_Exact.
  replace (e - 33) with (e - 32 - 1) by lia.
  apply binary_round_aux_exact_double; lia.
Qed.

(** X11.  Every draw of [mulberry32] is a number [u] with [0 <= u < 1],
    whatever the state of the generator. *)
Theorem mulberry32_unit_interval (a : RngState) :
  nonneg (fst (mulberry32 a)) /\ flt (fst (mulberry32 a)) 1.
Proof.
  split; [apply mulberry32_nonneg|].
  rewrite mulberry32_bits_eq.
  pose proof (mulberry32_bits_range a) as Hk.
  unfold flt. rewrite FloatAxioms.ltb_spec, div_spec.
  change (Prim2SF 4294967296) with (S754_finite false 4503599627370496 (-20)).
  change (Prim2SF 1) with (S754_finite false 4503599627370496 (-52)).
  destruct (Z.eq_dec (mulberry32_bits a) 0) as [->|Hne]; [reflexivity|].
  destruct (of_int_32 (mulberry32_bits a)) as (m & e & -> & Hd & He); [lia|].
  rewrite SFdiv_pow32 by assumption.
  unfold SFltb, SFcompare.
  replace (e - 32 ?= -52) with Lt; [reflexivity|].
  symmetry. apply Z.compare_lt_iff. lia.
Qed.

(** X12.  For a lower bound [a >= 0] and a width [b - a] that is a
    positive finite number, [randRange(rng, a, b)] takes one draw and never
    returns less than [a]. *)
Theorem randRange_at_least rng a b :
  nonneg a -> positive_finite (b - a) ->
  fle a (fst (randRange rng a b)) /\
  snd (randRange rng a b) = snd (mulberry32 rng).
Proof.
  intros Ha Hb. split; [now apply randRange_lower|].
  unfold randRange. now destruct (mulberry32 rng).
Qed.

Lemma randRange_at_least_witness :
  fle 5 (fst (randRange 12345%float 5 15)).
Proof.
  apply (randRange_at_least 12345%float 5 15).
  - reflexivity.
  - do 2 eexists. vm_compute. reflexivity.
Defined.

(** ** The counters of innovations *)

Lemma positions_NoDup {A} (p : A -> bool) l : forall k0, NoDup (positions p k0 l).
Proof.
  induction l as [|x r IH]; intros k0; simpl; [constructor|].
  destruct (p x); [|apply IH].
  constructor; [|apply IH].
  rewrite positions_In. intros (y & Hk & _). lia.
Qed.

Lemma update_nth_length {A} (g : A -> A) l : forall k,
  List.length (update_nth k g l) = List.length l.
Proof. induction l as [|x r IH]; intros k; destruct k; simpl; auto. Qed.

Lemma adopted_count_update l : forall k x,
  nth_error l k = Some x -> i_adopted x = false ->
  adopted_count (update_nth k set_adopted l) = S (adopted_count l).
Proof.
  unfold adopted_count.
  induction l as [|y r IH]; intros k x Hk Hx; destruct k; simpl in Hk; try discriminate.
  - inversion Hk; subst y. simpl. now rewrite Hx.
  - simpl. destruct (i_adopted y); simpl; now rewrite (IH k x).
Qed.

Lemma adopted_count_app l x :
  i_adopted x = false -> adopted_count (l ++ [x]) = adopted_count l.
Proof.
  intros H. unfold adopted_count. rewrite filter_app. simpl. rewrite H.
  now rewrite app_nil_r.
Qed.

Lemma adoptInnovation_counters k s x :
  nth_error (s_innovations s) k = Some x -> i_adopted x = false ->
  counters_ok s -> counters_ok (adoptInnovation k s).
Proof.
  intros Hk Hx [H1 H2]. unfold adoptInnovation. rewrite Hk.
  destruct (find_firm (i_firm x) (firms s (i_level x))); [|split; assumption].
  assert (Hi : s_innovations (set_firms (i_level x)
                 (update_firm (i_firm x) (fun f => adopt f x) (firms s (i_level x))) s)
               = s_innovations s) by (destruct (i_level x); reflexivity).
  assert (Hs : s_scheduled (set_firms (i_level x)
                 (update_firm (i_firm x) (fun f => adopt f x) (firms s (i_level x))) s)
               = s_scheduled s) by (destruct (i_level x); reflexivity).
  assert (Ha : s_adopted (set_firms (i_level x)
                 (update_firm (i_firm x) (fun f => adopt f x) (firms s (i_level x))) s)
               = s_adopted s) by (destruct (i_level x); reflexivity).
  unfold counters_ok.
  cbn [s_innovations s_scheduled s_adopted set_logs set_innovations].
  rewrite Hi, Hs, Ha, update_nth_length, (adopted_count_update _ k x Hk Hx).
  split; [exact H1|]. rewrite H2. lia.
Qed.

Lemma adoptFold_counters ks : forall s,
  NoDup ks ->
  (forall k, In k ks ->
     exists x, nth_error (s_innovations s) k = Some x /\ i_adopted x = false) ->
  counters_ok s ->
  counters_ok (fold_left (fun s k => adoptInnovation k s) ks s).
Proof.
  induction ks as [|j r IH]; intros s Hnd Hks Hc; simpl; [exact Hc|].
  inversion Hnd as [|? ? Hj Hr]; subst.
  destruct (Hks j (or_introl eq_refl)) as (x & Hx & Hax).
  apply IH; [exact Hr| |now apply (adoptInnovation_counters j s x)].
  intros k Hk. destruct (Hks k (or_intror Hk)) as (y & Hy & Hay).
  exists y. split; [|exact Hay].
  rewrite adoptInnovation_other; [exact Hy|]. intros ->. contradiction.
Qed.

Lemma adoptInnovations_counters s : counters_ok s -> counters_ok (adoptInnovations s).
Proof.
  intros Hc. unfold adoptInnovations. apply adoptFold_counters; [apply positions_NoDup| |exact Hc].
  intros k Hk. apply positions_In in Hk. destruct Hk as (x & _ & Hx & Hp).
  rewrite Nat.sub_0_r in Hx. exists x. split; [exact Hx|].
  unfold is_adoptable in Hp. apply andb_true_iff in Hp. destruct Hp as [Hp _].
  now apply negb_true_iff in Hp.
Qed.

Lemma scheduleInnovation_counters s : counters_ok s -> counters_ok (scheduleInnovation s).
Proof.
  intros [H1 H2]. unfold scheduleInnovation.
  repeat break_match;
    cbn [s_innovations s_scheduled s_adopted set_innovations set_rng];
    try (split; assumption).
  all: unfold counters_ok;
       cbn [s_innovations s_scheduled s_adopted set_innovations set_rng].
  all: rewrite length_app, adopted_count_app by reflexivity.
  all: cbn [List.length]; split; [rewrite H1; lia|exact H2].
Qed.

Lemma trimLogs_counters s : counters_ok s -> counters_ok (trimLogs s).
Proof. unfold trimLogs. break_match; auto. Qed.

Lemma processOrder_counters k s :
  s_scheduled (processOrder k s) = s_scheduled s /\
  s_adopted (processOrder k s) = s_adopted s.
Proof. unfold processOrder. repeat break_match; split; reflexivity. Qed.

Lemma processOrders_counters s :
  s_scheduled (processOrders s) = s_scheduled s /\
  s_adopted (processOrders s) = s_adopted s.
Proof.
  unfold processOrders.
  apply (fold_left_inv (fun x => s_scheduled x = s_scheduled s /\
                                 s_adopted x = s_adopted s)); auto.
  intros a k [H1 H2]. destruct (processOrder_counters k a) as [-> ->]. auto.
Qed.

Section Counters.
Variables Math_exp Math_log : float -> float.

Lemma tickOrders_counters inp s s1 Qagg thrown :
  tickOrders Math_exp Math_log inp s = (s1, Qagg, thrown) ->
  counters_ok s -> counters_ok s1.
Proof.
  intros H [H1 H2].
  destruct (tickOrders_frame _ _ _ _ _ _ _ H) as [_ Hi].
  assert (Hc : s_scheduled s1 = s_scheduled s /\ s_adopted s1 = s_adopted s).
  { clear H1 H2 Hi. unfold tickOrders in H.
    destruct (priceMode inp) eqn:Em;
      cbn [s_t s_price s_consumers s_rng set_t set_price] in H;
    match type of H with
    | context [updateConsumers ?a ?b ?c ?d ?e ?f ?g ?h ?i] =>
        destruct (updateConsumers a b c d e f g h i) as [[cs Q] rng0] eqn:Eu
    end;
    cbn [s_t s_price s_PBC s_PFP s_orders s_rng set_rng set_consumers set_t set_price] in H;
    match type of H with
    | context [planPBC ?a ?b ?c ?d ?e ?f ?g ?h ?i] =>
        destruct (planPBC a b c d e f g h i) as [[[pbc orders] rng] thr] eqn:Ep
    end;
    destruct thr.
    all: try (inversion H; subst; clear H; split; reflexivity).
    all: cbn [s_t s_PMP s_PFP s_rng set_rng set_orders set_firms] in H.
    all: repeat match type of H with
         | context [produceAll ?a ?b ?c] => destruct (produceAll a b c) as [? ?]
         end.
    all: inversion H; subst; clear H.
    all: match goal with
         | |- context [processOrders ?x] =>
             destruct (processOrders_counters x) as [-> ->]
         end; split; reflexivity. }
  destruct Hc as [Hs Ha]. unfold counters_ok. now rewrite Hs, Ha, Hi.
Qed.

Lemma simTick_counters inp s :
  counters_ok s ->
  match simTick Math_exp Math_log inp s with
  | Completed s' _ _ _ | Thrown s' => counters_ok s'
  end.
Proof.
  intros Hc. unfold simTick.
  destruct (tickOrders Math_exp Math_log inp s) as [[s1 Q] thrown] eqn:E.
  pose proof (tickOrders_counters _ _ _ _ _ E Hc) as H1.
  destruct thrown; [exact H1|].
  destruct (serveAll (s_t s1) (s_PBC s1) 0%float) as [pbc Qs].
  apply trimLogs_counters, adoptInnovations_counters, scheduleInnovation_counters.
  destruct (priceMode inp); exact H1.
Qed.

Lemma runSim_counters inps : forall s,
  counters_ok s -> counters_ok (runSim Math_exp Math_log inps s).
Proof.
  induction inps as [|inp rest IH]; intros s Hc; cbn [runSim]; [exact Hc|].
  pose proof (simTick_counters inp s Hc) as H.
  destruct (simTick Math_exp Math_log inp s); apply IH, H.
Qed.

Lemma initSimulation_counters seed :
  counters_ok (fst (initSimulation Math_exp Math_log seed)).
Proof.
  unfold initSimulation.
  repeat match goal with
  | |- context [let '(_, _) := ?x in _] => destruct x
  end.
  split; reflexivity.
Qed.

End Counters.

Lemma pending_iff l :
  (Z.of_nat (adopted_count l) < Z.of_nat (List.length l))%Z <->
  exists x, In x l /\ i_adopted x = false.
Proof.
  unfold adopted_count. induction l as [|y r IH]; simpl.
  - split; [lia|]. intros (x & [] & _).
  - destruct (i_adopted y) eqn:Ey; simpl.
    + split.
      * intros H. destruct (proj1 IH) as (x & Hx & Hax); [lia|]. eauto.
      * intros (x & [->|Hx] & Hax); [congruence|].
        assert (Z.of_nat (List.length (filter i_adopted r)) < Z.of_nat (List.length r))%Z
          by (apply IH; eauto).
        lia.
    + split; [intros _; eauto|]. intros _.
      pose proof (filter_length_le i_adopted r). lia.
Qed.

(** X13.  The counters of scheduled and adopted innovations agree with
    the ledger in every state of every run, whether ticks complete or are
    cut short: [scheduled] is the number of innovations and [adopted] the
    number of those flagged adopted. *)
Theorem innovation_counters Math_exp Math_log :
  (forall seed inps,
     counters_ok (runSim Math_exp Math_log inps (fst (initSimulation Math_exp Math_log seed)))) /\
  (forall inp s,
     counters_ok s ->
     match simTick Math_exp Math_log inp s with
     | Completed s' _ _ _ | Thrown s' => counters_ok s'
     end).
Proof.
  split.
  - intros seed inps. apply runSim_counters, initSimulation_counters.
  - intros inp s. apply simTick_counters.
Qed.

Lemma innovation_counters_witness :
  counters_ok quiet_sim /\
  match simTick (fun x => x) (fun x => x) auto_inputs quiet_sim with
  | Completed s' _ _ _ | Thrown s' => counters_ok s'
  end.
Proof.
  assert (Hc : counters_ok quiet_sim) by (split; reflexivity).
  split; [exact Hc|].
  exact (proj2 (innovation_counters (fun x => x) (fun x => x)) auto_inputs quiet_sim Hc).
Defined.

(** ** The preview of the demand editor *)

Lemma isFinite_is_num x : isFinite x = true -> is_num x.
Proof.
  unfold isFinite, is_num. intros H. apply negb_true_iff, orb_false_iff in H. tauto.
Qed.

Lemma Math_max_list_spec l : forall acc,
  is_num acc -> Forall is_num l ->
  is_num (fold_left Math_max l acc) /\
  (fold_left Math_max l acc = acc \/ In (fold_left Math_max l acc) l) /\
  fle acc (fold_left Math_max l acc) /\
  Forall (fun x => fle x (fold_left Math_max l acc)) l.
Proof.
  induction l as [|a r IH]; intros acc Ha Hl; cbn [fold_left].
  - repeat split; auto. now apply fle_refl.
  - inversion Hl as [|? ? Hn Hr]; subst.
    assert (Hm : is_num (Math_max acc a))
      by (destruct (Math_max_cases acc a Ha Hn) as [-> | ->]; assumption).
    destruct (IH (Math_max acc a) Hm Hr) as (H1 & H2 & H3 & H4).
    split; [exact H1|]. split; [|split].
    + destruct H2 as [H2|H2]; [|right; now right].
      rewrite H2. destruct (Math_max_cases acc a Ha Hn) as [E|E]; rewrite E.
      * now left.
      * right. now left.
    + eapply fle_trans; [apply (Math_max_ge_l acc a Ha Hn)|exact H3].
    + constructor; [|exact H4].
      eapply fle_trans; [apply (Math_max_ge_r acc a Ha Hn)|exact H3].
Qed.

Lemma Math_max_list_one l :
  Forall (fun x => isFinite x = true) l ->
  fle 1 (Math_max_list (l ++ [1%float])) /\
  isFinite (Math_max_list (l ++ [1%float])) = true /\
  Forall (fun x => fle x (Math_max_list (l ++ [1%float]))) l.
Proof.
  intros Hl. unfold Math_max_list.
  assert (Hf : Forall (fun x => isFinite x = true) (l ++ [1%float]))
    by (apply Forall_app; split; [exact Hl|constructor; [reflexivity|constructor]]).
  assert (Hn : Forall is_num (l ++ [1%float]))
    by (eapply Forall_impl; [|exact Hf]; apply isFinite_is_num).
  destruct (Math_max_list_spec (l ++ [1%float]) neg_infinity eq_refl Hn)
    as (H1 & H2 & H3 & H4).
  apply Forall_app in H4. destruct H4 as [H4 H5].
  inversion H5 as [|? ? Hone _]; subst.
  split; [exact Hone|]. split; [|exact H4].
  destruct H2 as [H2|H2].
  - rewrite H2 in Hone. vm_compute in Hone. discriminate Hone.
  - rewrite Forall_forall in Hf. now apply Hf.
Qed.

Lemma Math_max_zero_finite q : isFinite q = true -> isFinite (Math_max 0 q) = true.
Proof.
  intros H. destruct (Math_max_cases 0 q eq_refl (isFinite_is_num _ H)) as [-> | ->];
    [reflexivity|exact H].
Qed.

Lemma Math_max_zero_num x : isFinite (Math_max 0 x) = true -> is_num x.
Proof.
  intros H. destruct (is_nan x) eqn:E; [|exact E].
  unfold Math_max in H. rewrite E, orb_true_r in H. discriminate H.
Qed.

Lemma previewPoint_q fn maxP i :
  nonneg (snd (previewPoint fn maxP i)) /\ isFinite (snd (previewPoint fn maxP i)) = true.
Proof.
  unfold previewPoint. cbn [snd].
  match goal with
  | |- nonneg (Math_max 0 ?q) /\ _ => assert (H : isFinite q = true)
  end.
  { destruct fn as [f|]; [|reflexivity].
    destruct (f _) as [q|]; [|reflexivity].
    destruct (isFinite q) eqn:E; [exact E|reflexivity]. }
  split; [apply Math_max_zero_nonneg, isFinite_is_num, H|apply Math_max_zero_finite, H].
Qed.

(** X15.  The preview of the demand editor has 61 points whatever the
    function does: where it throws or gives a value that is not finite
    the point is drawn at [0], every quantity drawn is a finite number at
    least [0], and [maxQ], by which the heights are divided, is a finite
    number at least [1] and at least every quantity.  For an applied
    editor function the quantity drawn is the function's value wherever
    that value is finite. *)
Theorem preview_sanitised Math_exp Math_log fn maxP :
  let pts := previewPoints fn maxP in
  List.length pts = 61%nat /\
  Forall (fun pt => nonneg (snd pt) /\ isFinite (snd pt) = true /\
                    fle (snd pt) (previewMaxQ pts)) pts /\
  fle 1 (previewMaxQ pts) /\ isFinite (previewMaxQ pts) = true /\
  (forall type params i,
     let f := createDemandFn Math_exp Math_log type params in
     let p := (of_nat i / 60 * maxP)%float in
     isFinite (f p) = true ->
     feq (snd (previewPoint (applyEditorDemand Math_exp Math_log type params) maxP i)) (f p)).
Proof.
  intros pts.
  assert (Hq : Forall (fun x => isFinite x = true) (map snd pts)).
  { apply Forall_forall. intros x Hx. apply in_map_iff in Hx.
    destruct Hx as (pt & <- & Hpt). unfold pts, previewPoints in Hpt.
    apply in_map_iff in Hpt. destruct Hpt as (i & <- & _). apply previewPoint_q. }
  destruct (Math_max_list_one _ Hq) as (H1 & H2 & H3).
  split; [reflexivity|]. split; [|split; [exact H1|split; [exact H2|]]].
  - apply Forall_forall. intros pt Hpt.
    assert (Hin : In (snd pt) (map snd pts)) by (now apply in_map).
    rewrite Forall_forall in H3. specialize (H3 _ Hin).
    unfold pts, previewPoints in Hpt.
    apply in_map_iff in Hpt. destruct Hpt as (i & <- & _).
    destruct (previewPoint_q fn maxP i) as [Ha Hb]. auto.
  - intros type params i f p Hf.
    unfold previewPoint, applyEditorDemand. cbn [snd]. fold p. fold f. rewrite Hf.
    apply Math_max_zero_feq.
    unfold f, createDemandFn in Hf |- *.
    destruct type; cbv beta in Hf |- *; apply Math_max_zero_nonneg;
      exact (Math_max_zero_num _ Hf).
Qed.

Lemma preview_sanitised_witness :
  feq (snd (previewPoint (applyEditorDemand (fun x => x) (fun x => x) ed_linear
                            (mkDParams 100 5 0.01 100 2 1)) 20 30))
      (createDemandFn (fun x => x) (fun x => x) ed_linear (mkDParams 100 5 0.01 100 2 1)
         (of_nat 30 / 60 * 20)%float).
Proof.
  apply (preview_sanitised (fun x => x) (fun x => x) None 20). reflexivity.
Defined.

(** ** The older variant of the engine *)

Lemma is_nan_eq x : is_nan x = true -> x = nan.
Proof. intros H. apply Prim2SF_inj. apply is_nan_SF in H. rewrite H. reflexivity. Qed.

Lemma add_nan_l x : (nan + x)%float = nan.
Proof. apply Prim2SF_inj. rewrite add_spec. reflexivity. Qed.

Lemma add_nan_r x : (x + nan)%float = nan.
Proof. apply Prim2SF_inj. rewrite add_spec. now destruct (Prim2SF x). Qed.

Lemma sub_nan_l x : (nan - x)%float = nan.
Proof. apply Prim2SF_inj. rewrite sub_spec. reflexivity. Qed.

Lemma mul_nan_r x : (x * nan)%float = nan.
Proof. apply Prim2SF_inj. rewrite mul_spec. now destruct (Prim2SF x). Qed.

Lemma pickLoop_member {A} (arr : list (float * A)) : forall r v,
  Older.pickLoop r arr = Some v -> In v (map snd arr).
Proof.
  induction arr as [|[w x] rest IH]; intros r v H; cbn [Older.pickLoop] in H; [discriminate|].
  destruct (r - w <=? 0)%float.
  - inversion H; subst. now left.
  - right. eapply IH, H.
Qed.

Lemma pickLoop_nan {A} (arr : list (float * A)) : Older.pickLoop nan arr = None.
Proof.
  induction arr as [|[w x] rest IH]; cbn [Older.pickLoop]; [reflexivity|].
  rewrite sub_nan_l. exact IH.
Qed.

Lemma total_nan {A} (arr : list (float * A)) :
  Exists (fun x => is_nan (fst x) = true) arr ->
  forall acc, fold_left (fun s x => (s + fst x)%float) arr acc = nan.
Proof.
  assert (Hn : forall l : list (float * A),
             fold_left (fun s x => (s + fst x)%float) l nan = nan).
  { induction l as [|y l IH]; cbn [fold_left]; [reflexivity|]. now rewrite add_nan_l. }
  induction 1 as [x l Hx|x l _ IH]; intros acc; cbn [fold_left].
  - rewrite (is_nan_eq _ Hx), add_nan_r. apply Hn.
  - apply IH.
Qed.

Lemma last_member {A} (l : list A) :
  l <> [] -> exists v, nth_error l (List.length l - 1) = Some v /\ In v l.
Proof.
  intros Hl. destruct (nth_error l (List.length l - 1)) as [v|] eqn:E.
  - exists v. split; [reflexivity|]. eapply nth_error_In, E.
  - apply nth_error_None in E. destruct l; [congruence|]. cbn [List.length] in E. lia.
Qed.

(** X16.  [pickWeighted] of the older variant draws one number and, for
    an array that is not empty, returns the value of one of its items;
    on an empty array it fails ([arr[-1].value]).  When a weight is NaN
    the weights play no part: the value of the last item is returned. *)
Theorem pickWeighted_member {A} (rng : RngState) (arr : list (float * A)) :
  snd (Older.pickWeighted rng arr) = snd (mulberry32 rng) /\
  (arr = [] -> fst (Older.pickWeighted rng arr) = None) /\
  (arr <> [] ->
   exists v, fst (Older.pickWeighted rng arr) = Some v /\ In v (map snd arr)) /\
  (Exists (fun x => is_nan (fst x) = true) arr ->
   fst (Older.pickWeighted rng arr)
   = option_map snd (nth_error arr (List.length arr - 1))).
Proof.
  unfold Older.pickWeighted. destruct (mulberry32 rng) as [u rng'].
  cbn [snd]. split; [|split; [|split]].
  - now destruct (Older.pickLoop _ arr).
  - intros ->. reflexivity.
  - intros Hne.
    destruct (Older.pickLoop _ arr) as [v|] eqn:E; cbn [fst].
    + exists v. split; [reflexivity|]. eapply pickLoop_member, E.
    + destruct (last_member arr Hne) as (x & Hx & Hin). rewrite Hx.
      exists (snd x). split; [reflexivity|]. now apply in_map.
  - intros Hnan. rewrite (total_nan arr Hnan), mul_nan_r, pickLoop_nan. reflexivity.
Qed.

Lemma pickWeighted_member_witness :
  exists v, fst (Older.pickWeighted 7%float [(1%float, 10%Z); (nan, 20%Z); (3%float, 30%Z)])
            = Some v /\ v = 30%Z.
Proof.
  destruct (proj2 (proj2 (@pickWeighted_member Z 7%float
                           [(1%float, 10%Z); (nan, 20%Z); (3%float, 30%Z)])))
    as [H1 H2].
  exists 30%Z. split; [|reflexivity].
  rewrite H2; [reflexivity|]. right. left. reflexivity.
Defined.

(** X17.  The production step of a PBC firm in the older variant never
    produces a negative quantity and never drives a non-negative
    inventory below zero.  For numbers, the firm produces no more than
    its inventory and capacity together and takes from the inventory no
    more than it holds and no more than it produces. *)
Theorem older_pbc_production planned inventory capacity :
  let '(produced, consumed, rest) := Older.pbcProduce planned inventory capacity in
  notneg produced /\
  (notneg inventory -> notneg rest) /\
  (is_num planned -> nonneg inventory -> nonneg capacity ->
   nonneg produced /\ fle produced (inventory + capacity) /\
   fle consumed inventory /\ fle consumed produced /\ nonneg consumed).
Proof.
  unfold Older.pbcProduce.
  set (possible := Math_min planned (inventory + capacity)).
  set (produced := Math_max 0 possible).
  set (consumed := Math_min inventory produced).
  assert (Hp : notneg produced) by apply Math_max_zero_notneg.
  split; [exact Hp|]. split.
  - intros Hi.
    destruct (is_nan inventory) eqn:Ei.
    { rewrite (is_nan_eq _ Ei), sub_nan_l. reflexivity. }
    destruct (is_nan produced) eqn:Ep.
    { unfold consumed, Math_min. rewrite Ep, orb_true_r.
      apply notneg_cases. left. apply is_nan_SF. rewrite sub_spec.
      now destruct (Prim2SF inventory). }
    apply sub_notneg.
    + destruct (Math_min_cases inventory produced Ei Ep) as [E|E];
        unfold consumed; rewrite E; assumption.
    + apply Math_min_le_l; assumption.
  - intros Hpl Hi Hc.
    pose proof (add_nonneg _ _ Hi Hc) as Hsum.
    pose proof (nonneg_is_num _ Hsum) as Hsn.
    pose proof (nonneg_is_num _ Hi) as Hin.
    assert (Hpos : is_num possible) by (now apply Math_min_is_num).
    assert (Hprod : nonneg produced) by (now apply Math_max_zero_nonneg).
    pose proof (nonneg_is_num _ Hprod) as Hpn.
    split; [exact Hprod|]. split; [|split; [|split]].
    + apply Math_max_lub; auto. reflexivity. now apply Math_min_le_r.
    + now apply Math_min_le_l.
    + now apply Math_min_le_r.
    + destruct (Math_min_cases inventory produced Hin Hpn) as [E|E];
        unfold consumed; rewrite E; assumption.
Qed.

Lemma older_pbc_production_witness :
  notneg (snd (Older.pbcProduce 8 3 10)) /\
  fle (fst (fst (Older.pbcProduce 8 3 10))) (3 + 10).
Proof.
  pose proof (older_pbc_production 8 3 10) as H.
  destruct (Older.pbcProduce 8 3 10) as [[produced consumed] rest] eqn:E.
  destruct H as (_ & H1 & H2). split.
  - apply H1. reflexivity.
  - apply H2; reflexivity.
Defined.

(** ** The indicators and the tips *)

Lemma skipn_window {A} (old recent : list A) n :
  List.length recent = n -> skipn (List.length (old ++ recent) - n) (old ++ recent) = recent.
Proof.
  intros <-. rewrite length_app.
  replace (List.length old + List.length recent - List.length recent)%nat
    with (List.length old) by lia.
  rewrite skipn_app, skipn_all, Nat.sub_diag. reflexivity.
Qed.

(** X18.  The live indicators depend on the last 40 points of the series
    only.  For an empty series they are all [0]; the two variances are
    never negative; and when the demand of the window adds up to zero the
    utilization is the quantity served (the division is by [1]). *)
Theorem kpis_window (old recent : list MetricsPoint) :
  (List.length recent = 40%nat -> kpis (old ++ recent) = kpis recent) /\
  kpis [] = mkKpis 0 0 0 0 /\
  notneg (priceVar (kpis recent)) /\ notneg (demandVar (kpis recent)) /\
  (List.length recent = 40%nat ->
   truthy (fold_left (fun a b => a + or_else (p_qDemand b) 0)%float recent 0%float) = false ->
   utilization (kpis (old ++ recent))
   = (fold_left (fun a b => a + or_else (p_qServed b) 0) recent 0 / 1)%float).
Proof.
  assert (Hw : List.length recent = 40%nat -> kpis (old ++ recent) = kpis recent).
  { intros H.
    assert (E : skipn (List.length recent - 40) recent = recent)
      by (rewrite H, Nat.sub_diag; reflexivity).
    unfold kpis. rewrite (skipn_window old recent 40 H), E. reflexivity. }
  split; [exact Hw|]. split; [reflexivity|].
  split; [apply variance_notneg|]. split; [apply variance_notneg|].
  intros H Hz. rewrite (Hw H).
  assert (E : skipn (List.length recent - 40) recent = recent)
    by (rewrite H, Nat.sub_diag; reflexivity).
  unfold kpis. rewrite E. cbn [utilization].
  destruct recent as [|pt r]; [discriminate H|].
  rewrite (or_else_falsy _ 1 Hz). reflexivity.
Qed.

Lemma kpis_window_witness :
  kpis (mkPoint 0 1 0 0 1 :: repeat (mkPoint 1 2 0 3 1) 40)
  = kpis (repeat (mkPoint 1 2 0 3 1) 40).
Proof.
  apply (proj1 (kpis_window [mkPoint 0 1 0 0 1] (repeat (mkPoint 1 2 0 3 1) 40))).
  reflexivity.
Defined.

(** X19.  There is always a tip.  The tip about pending innovations is
    shown exactly when fewer innovations are adopted than scheduled,
    which in a state of a run means that some innovation of the ledger is
    not adopted yet; the tip that all is stable is shown only alone. *)
Theorem tips_pending Math_exp Math_log (k : Kpis) :
  (forall scheduled adopted,
     tips k scheduled adopted <> [] /\
     (In "Hay innovaciones pendientes: espera adopción o acelera pedidos para aprovechar."%string
         (tips k scheduled adopted) <-> (adopted < scheduled)%Z) /\
     (In "Todo estable. Explora Fase C para estresar el sistema."%string
         (tips k scheduled adopted) ->
      tips k scheduled adopted
      = ["Todo estable. Explora Fase C para estresar el sistema."%string])) /\
  (forall seed inps,
     let s := runSim Math_exp Math_log inps (fst (initSimulation Math_exp Math_log seed)) in
     In "Hay innovaciones pendientes: espera adopción o acelera pedidos para aprovechar."%string
        (tips k (s_scheduled s) (s_adopted s))
     <-> exists x, In x (s_innovations s) /\ i_adopted x = false).
Proof.
  assert (H : forall scheduled adopted,
     tips k scheduled adopted <> [] /\
     (In "Hay innovaciones pendientes: espera adopción o acelera pedidos para aprovechar."%string
         (tips k scheduled adopted) <-> (adopted < scheduled)%Z) /\
     (In "Todo estable. Explora Fase C para estresar el sistema."%string
         (tips k scheduled adopted) ->
      tips k scheduled adopted
      = ["Todo estable. Explora Fase C para estresar el sistema."%string])).
  { intros scheduled adopted. unfold tips. rewrite <- Z.ltb_lt.
    destruct (avgEff k <? 0.7)%float, (gtb (priceVar k) 0.15),
             (utilization k <? 0.8)%float, (adopted <? scheduled)%Z;
      cbn [app]; (split; [discriminate|]); split.
    all: try (split; [intros _; reflexivity|intros _; cbn [In]; tauto]).
    all: try (split; [|discriminate]).
    all: try reflexivity.
    all: cbn [In]; intros Hin;
         repeat (destruct Hin as [Hin|Hin]; [discriminate Hin|]); contradiction. }
  split; [exact H|].
  intros seed inps s.
  destruct (H (s_scheduled s) (s_adopted s)) as (_ & -> & _).
  destruct (runSim_counters Math_exp Math_log inps _
              (initSimulation_counters Math_exp Math_log seed)) as [H1 H2].
  fold s in H1, H2. rewrite H1, H2. apply pending_iff.
Qed.

Lemma tips_pending_witness :
  tips (mkKpis 1 0 0 1) 0 0 = ["Todo estable. Explora Fase C para estresar el sistema."%string].
Proof.
  apply (proj1 (tips_pending (fun x => x) (fun x => x) (mkKpis 1 0 0 1)) 0%Z 0%Z).
  left. reflexivity.
Defined.

(** ** The initial state *)

Lemma sample_ab_a rng : fle 5 (fst (fst (sample_ab rng))).
Proof.
  unfold sample_ab.
  assert (H : fle 5 (fst (randRange rng 5 200))).
  { apply randRange_lower; [reflexivity|]. do 2 eexists. vm_compute. reflexivity. }
  destruct (randRange rng 5 200) as [a r1]. cbn [fst] in H.
  destruct (mulberry32 r1) as [signRoll r2].
  destruct (signRoll <? 0.75)%float; [destruct (randRange r2 0.01 10); exact H|].
  destruct (signRoll <? 0.95)%float; [exact H|].
  destruct (randRange r2 0.1 5); exact H.
Qed.

Lemma newConsumer_shape i rng :
  let c := fst (newConsumer i rng) in
  c_id c = firm_id "C" i /\ c_nextUpdateAt c = c_Ti c /\ c_lastUpdate c = 0%Z /\
  fle 5 (c_a c) /\ (0 <= c_Ti c)%Z.
Proof.
  unfold newConsumer.
  destruct (mulberry32 rng) as [typeRand r1].
  pose proof (sample_ab_a r1) as Ha.
  destruct (sample_ab r1) as [[a b] r2]. cbn [fst] in Ha.
  destruct (randRange r2 0 50) as [x r3].
  assert (Hy : nonneg (fst (randRange r3 (fst DEFAULT.consumerUpdateRange)
                                         (snd DEFAULT.consumerUpdateRange)))).
  { apply randRange_nonneg; [reflexivity|]. do 2 eexists. vm_compute. reflexivity. }
  destruct (randRange r3 _ _) as [y r4]. cbn [fst] in *.
  repeat split; try exact Ha. apply Math_round_nonneg, nonneg_notneg, Hy.
Qed.

Lemma newConsumers_shape n : forall i rng,
  map c_id (fst (newConsumers n i rng)) = map (firm_id "C") (seq i n) /\
  Forall (fun c => c_nextUpdateAt c = c_Ti c /\ c_lastUpdate c = 0%Z /\
                   fle 5 (c_a c) /\ (0 <= c_Ti c)%Z)
         (fst (newConsumers n i rng)).
Proof.
  induction n as [|n IH]; intros i rng; cbn [newConsumers]; [split; [reflexivity|constructor]|].
  pose proof (newConsumer_shape i rng) as Hc.
  destruct (newConsumer i rng) as [c r1]. cbn [fst] in Hc.
  specialize (IH (S i) r1). destruct (newConsumers n (S i) r1) as [cs r2].
  cbn [fst map seq] in *. destruct IH as [IH1 IH2]. destruct Hc as (Hid & Hrest).
  split; [now rewrite Hid, IH1|]. constructor; assumption.
Qed.

Lemma newFirms_shape prefix cap mc n : forall i rng,
  map (fun f => (f_id f, f_inventory f, f_planned f, f_history f))
      (fst (newFirms prefix cap mc n i rng))
  = map (fun i => (firm_id prefix i, 0%float, 0%float, [])) (seq i n).
Proof.
  induction n as [|n IH]; intros i rng; cbn [newFirms]; [reflexivity|].
  destruct (randRange rng 0.8 1.3) as [A r1].
  destruct (randRange r1 (fst cap) (snd cap)) as [capacity r2].
  destruct (randRange r2 (fst mc) (snd mc)) as [marginalCost r3].
  specialize (IH (S i) r3). destruct (newFirms prefix cap mc n (S i) r3) as [fs r4].
  cbn [fst map seq] in *. now rewrite IH.
Qed.

(** X14.  The state that [initSimulation] builds, whatever the seed: tick
    0, the seed kept, 350 consumers named C0 to C349, each with its next
    update due at its period [Ti >= 0], no update yet and [a >= 5]; in
    every tier the firms are named by their position and hold no
    inventory, no plan and no history; no orders, logs or innovations;
    both counters at 0; and a series of one point that shows the initial
    price with efficiency 1. *)
Theorem initSimulation_shape Math_exp Math_log seed :
  let s := fst (initSimulation Math_exp Math_log seed) in
  let series := snd (initSimulation Math_exp Math_log seed) in
  s_t s = 0%Z /\ s_seed s = seed /\
  map c_id (s_consumers s) = map (firm_id "C") (seq 0 350) /\
  Forall (fun c => c_nextUpdateAt c = c_Ti c /\ c_lastUpdate c = 0%Z /\
                   fle 5 (c_a c) /\ (0 <= c_Ti c)%Z) (s_consumers s) /\
  (forall lvl, exists n,
     map (fun f => (f_id f, f_inventory f, f_planned f, f_history f)) (firms s lvl)
     = map (fun i => (firm_id (match lvl with PBC => "PBC" | PFP => "PFP" | PMP => "PMP" end) i,
                      0%float, 0%float, []))
           (seq 0 n)) /\
  s_orders s = [] /\ s_logs s = [] /\ s_innovations s = [] /\
  s_scheduled s = 0%Z /\ s_adopted s = 0%Z /\
  series = [mkPoint 0 (s_price s) 0 0 1].
Proof.
  unfold initSimulation.
  pose proof (newConsumers_shape DEFAULT.consumersN 0 seed) as Hc.
  destruct (newConsumers DEFAULT.consumersN 0 seed) as [cs r1].
  destruct (firmCount DEFAULT.pbcCountRange r1) as [n1 r2].
  pose proof (newFirms_shape "PBC" (10, 50)%float (0.2, 1.0)%float n1 0 r2) as H1.
  destruct (newFirms "PBC" _ _ n1 0 r2) as [pbc r3].
  destruct (firmCount DEFAULT.pfpCountRange r3) as [n2 r4].
  pose proof (newFirms_shape "PFP" (10, 80)%float (0.1, 0.8)%float n2 0 r4) as H2.
  destruct (newFirms "PFP" _ _ n2 0 r4) as [pfp r5].
  destruct (firmCount DEFAULT.pmpCountRange r5) as [n3 r6].
  pose proof (newFirms_shape "PMP" (30, 140)%float (0.05, 0.6)%float n3 0 r6) as H3.
  destruct (newFirms "PMP" _ _ n3 0 r6) as [pmp r7].
  destruct (calibrate Math_exp Math_log 40 cs pbc DEFAULT.p0 r7) as [[p0 r8] brk].
  cbn [fst snd s_t s_seed s_consumers s_orders s_logs s_innovations s_scheduled
       s_adopted s_price] in *.
  destruct Hc as [Hc1 Hc2].
  repeat split; try assumption.
  intros lvl. destruct lvl; [exists n1|exists n2|exists n3]; assumption.
Qed.

(** ** Closing a session *)

Lemma abs_notneg x : notneg (Math_abs x).
Proof.
  unfold Math_abs. rewrite notneg_SF, abs_spec. now destruct (Prim2SF x).
Qed.

Lemma sum_notneg l : Forall notneg l ->
  forall Q, notneg Q -> notneg (fold_left (fun a b => (a + b)%float) l Q).
Proof.
  induction 1 as [|x l Hx _ IH]; intros Q HQ; cbn [fold_left]; [exact HQ|].
  apply IH, add_notneg; assumption.
Qed.

(** X20.  The statistics of a closed session: the cumulative regret and
    the two volatilities are never negative, the number of ticks is the
    number of points shown, and the counters reported are those of the
    state.  For an empty series every average and sum is [0]: the
    averages divide by [max(1, 0)]. *)
Theorem finalizeSession_stats Math_exp Math_log s data :
  let st := finalizeSession Math_exp Math_log s data in
  notneg (st_cumulativeRegret st) /\
  notneg (st_demandVol st) /\ notneg (st_priceVol st) /\
  st_ticks st = List.length data /\
  st_innovationCounts st = (s_scheduled s, s_adopted s) /\
  finalizeSession Math_exp Math_log s []
  = mkStats 0 0 0 0 0 0 0 0 0 (s_scheduled s, s_adopted s) (s_seed s).
Proof.
  unfold finalizeSession. cbn [st_cumulativeRegret st_demandVol st_priceVol st_ticks
                               st_innovationCounts].
  split; [|split; [|split; [|split; [|split]]]]; try reflexivity.
  - apply sum_notneg; [|reflexivity].
    apply Forall_forall. intros x Hx. apply in_map_iff in Hx.
    destruct Hx as (pt & <- & _). apply abs_notneg.
  - apply variance_notneg.
  - apply variance_notneg.
Qed.
